(** * Distributed file backup: chunking, encryption, distribution, catalog

    A shallow embedding of [src/main.cpp]: the [Encryption] class (AES-256-CBC
    through OpenSSL's EVP interface), the [DatabaseManager] catalog, the
    simulated [CloudProvider], and [BackupSystem] with its upload queue, its
    worker threads and [backupFile].

    Integers are modelled as [Z] with the wrap-around of their C++ type
    written out ([size_t] is 64 bits, [int] 32 bits); byte vectors are
    [list byte]; threads are interleaved by an explicit schedule, which
    also says what each [upload] call meets: whether its body throws and
    what its stream does to the file. The file system is the files
    written and the operating system's resolution of paths to files. *)

From Stdlib Require Import String Ascii.
From Stdlib Require Import ZArith List Lia Bool Permutation.
From Stdlib.Strings Require Import Byte.
From Stdlib Require Import DecimalString HexadecimalString.
From Stdlib Require DecimalZ DecimalPos HexadecimalN HexadecimalPos.
Import ListNotations.
Local Open Scope Z_scope.

(* ================================================================= *)
(** ** Machine integers *)

(** [size_t]: unsigned, 64 bits. *)
Definition to_size_t (z : Z) : Z := z mod 2 ^ 64.

(** [int]: signed, 32 bits, two's complement conversion. *)
Definition INT_MAX : Z := 2 ^ 31 - 1.
Definition to_int (z : Z) : Z := (z + 2 ^ 31) mod 2 ^ 32 - 2 ^ 31.

(** [sqlite3_int64]: signed, 64 bits. *)
Definition to_int64 (z : Z) : Z := (z + 2 ^ 63) mod 2 ^ 64 - 2 ^ 63.

(** [std::to_string(int)]. *)
Definition to_string (z : Z) : string :=
  DecimalString.NilZero.string_of_int (Z.to_int z).

(* ================================================================= *)
(** ** Configuration constants *)

Definition CHUNK_SIZE : Z := 10 * 1024 * 1024.
Definition AES_KEY_SIZE : Z := 256.
Definition NUM_UPLOAD_THREADS : nat := 4.
Definition AES_BLOCK_SIZE : nat := 16.

(* ================================================================= *)
(** ** [BackupSystem::calculateChecksum] *)

(** The mathematical sum of the byte values of a payload. *)
Definition byte_sum (data : list byte) : Z :=
  fold_right (fun b acc => Z.of_N (Byte.to_N b) + acc) 0 data.

(** [size_t sum = 0; for (auto byte : data) sum += byte;] then
    [ss << std::hex << sum]: lower-case hexadecimal, no prefix. *)
Definition calculateChecksum (data : list byte) : string :=
  let sum :=
    fold_left (fun sum b => to_size_t (sum + Z.of_N (Byte.to_N b))) data 0 in
  HexadecimalString.NilZero.string_of_uint (N.to_hex_uint (Z.to_N sum)).

(* ================================================================= *)
(** ** Chunking: the size computations and the read loop of [backupFile]

    The functions take the chunk size as a parameter [cs]; the program is
    their instance at [CHUNK_SIZE]. *)

(** Rounded-up quotient, the [ceil(S/C)] of the specification. *)
Definition ceil_div (s c : Z) : Z := (s + c - 1) / c.

(** [file.seekg(0, end); size_t file_size = file.tellg();] *)
Definition file_size_of (content : list byte) : Z :=
  to_size_t (Z.of_nat (length content)).

(** [int chunk_count = (file_size + CHUNK_SIZE - 1) / CHUNK_SIZE;]
    computed in [size_t], then converted to [int]. *)
Definition chunk_count_of (cs file_size : Z) : Z :=
  to_int (to_size_t (file_size + cs - 1) / cs).

(** Iterations of [for (int i = 0; i < chunk_count; ++i)]. *)
Definition loop_iterations (cs file_size : Z) : nat :=
  Z.to_nat (chunk_count_of cs file_size).

(** [std::min(CHUNK_SIZE, file_size - (i * CHUNK_SIZE))], in [size_t]. *)
Definition chunk_size_at (cs file_size i : Z) : Z :=
  Z.min cs (to_size_t (file_size - to_size_t (to_size_t i * cs))).

(** [std::vector<unsigned char> chunk(chunk_size); file.read(chunk.data(),
    chunk_size);]: the vector starts zeroed, the bytes the stream still has
    are copied to its front and the stream advances. *)
Definition read (n : Z) (stream : list byte) : list byte * list byte :=
  let got := firstn (Z.to_nat n) stream in
  (got ++ repeat x00 (Z.to_nat n - length got), skipn (Z.to_nat n) stream).

(** The chunk loop, as the sequence of [(i, chunk)] pairs it reads. *)
Fixpoint chunk_loop (cs file_size : Z) (n : nat) (i : Z) (stream : list byte)
  : list (Z * list byte) :=
  match n with
  | O => []
  | S n' =>
      let '(chunk, rest) := read (chunk_size_at cs file_size i) stream in
      (i, chunk) :: chunk_loop cs file_size n' (i + 1) rest
  end.

Definition chunks_of (cs : Z) (content : list byte) : list (Z * list byte) :=
  let file_size := file_size_of content in
  chunk_loop cs file_size (loop_iterations cs file_size) 0 content.

(* ================================================================= *)
(** ** [CloudProvider] and the round-robin selection *)

Record CloudProvider := mkCloudProvider {
  name : string;
  base_path : string
}.

(** The three providers the [BackupSystem] constructor registers. *)
Definition default_providers : list CloudProvider :=
  [ mkCloudProvider "GoogleDrive" "./backup/gdrive";
    mkCloudProvider "Dropbox" "./backup/dropbox";
    mkCloudProvider "OneDrive" "./backup/onedrive" ].

(** [i % providers.size()]: [i] is an [int] converted to [size_t]. *)
Definition provider_index (num_providers i : Z) : Z :=
  to_size_t i mod num_providers.

(** [providers[i % providers.size()]]; [None] stands for the undefined
    behaviour of an empty provider list. *)
Definition select_provider (providers : list CloudProvider) (i : Z)
  : option CloudProvider :=
  match providers with
  | [] => None
  | _ => nth_error providers
           (Z.to_nat (provider_index (Z.of_nat (length providers)) i))
  end.

(** How many of the chunks [0 .. k-1] go to the provider at position [b]. *)
Definition assigned_count (num_providers : Z) (k : nat) (b : Z) : nat :=
  length (filter (fun i => provider_index num_providers i =? b)
                 (map Z.of_nat (seq 0 k))).

(* ================================================================= *)
(** ** Bytes and vectors *)

Definition bits : Type :=
  (bool * (bool * (bool * (bool * (bool * (bool * (bool * bool)))))))%type.

Definition bits_xor (x y : bits) : bits :=
  let '(x0, (x1, (x2, (x3, (x4, (x5, (x6, x7))))))) := x in
  let '(y0, (y1, (y2, (y3, (y4, (y5, (y6, y7))))))) := y in
  (xorb x0 y0, (xorb x1 y1, (xorb x2 y2, (xorb x3 y3,
   (xorb x4 y4, (xorb x5 y5, (xorb x6 y6, xorb x7 y7))))))).

Definition byte_xor (a b : byte) : byte :=
  Byte.of_bits (bits_xor (Byte.to_bits a) (Byte.to_bits b)).

(** XOR of two blocks, byte by byte. *)
Definition xor_block (a b : list byte) : list byte :=
  map (fun xy => byte_xor (fst xy) (snd xy)) (combine a b).

Definition byte_of_nat (n : nat) : byte :=
  match Byte.of_nat n with Some b => b | None => x00 end.

Definition nat_of_byte (b : byte) : nat := N.to_nat (Byte.to_N b).

(** The byte with only bit [k] set ([k < 8]). *)
Definition bit_mask (k : nat) : byte := byte_of_nat (2 ^ k).

(** Flip bit [pos] of a byte vector: bit [pos mod 8] of byte [pos / 8]. *)
Fixpoint flip_bit (pos : nat) (data : list byte) : list byte :=
  match data with
  | [] => []
  | x :: rest =>
      if (pos <? 8)%nat then byte_xor x (bit_mask pos) :: rest
      else x :: flip_bit (pos - 8) rest
  end.

(** [std::vector<unsigned char> v(n)]: [n] zero bytes. *)
Definition vector_new (n : nat) : list byte := repeat x00 n.

(** Writing [data] into the buffer [v] from offset [off] on (the EVP calls
    never write past the end: they output at most [inl + 16] bytes). *)
Definition store (v : list byte) (off : nat) (data : list byte) : list byte :=
  firstn off v ++ data ++ skipn (off + length data) v.

(** [v.resize(n)]. *)
Definition resize (n : nat) (v : list byte) : list byte :=
  firstn n v ++ repeat x00 (n - length v).

(* ================================================================= *)
(** ** The block cipher behind [EVP_aes_256_cbc()]

    AES-256 itself is OpenSSL's; the embedding takes it as a keyed
    permutation of 16-byte blocks. *)

Class BlockCipher := {
  E : list byte -> list byte -> list byte;
  D : list byte -> list byte -> list byte;
  E_length : forall k b, length b = AES_BLOCK_SIZE ->
                         length (E k b) = AES_BLOCK_SIZE;
  D_length : forall k c, length c = AES_BLOCK_SIZE ->
                         length (D k c) = AES_BLOCK_SIZE;
  D_E : forall k b, length b = AES_BLOCK_SIZE -> D k (E k b) = b
}.

(** PKCS#7 padding of the last, partial block ([length buf < 16]). *)
Definition pkcs7_pad (buf : list byte) : list byte :=
  let n := (AES_BLOCK_SIZE - length buf)%nat in
  buf ++ repeat (byte_of_nat n) n.

(** The padding check of [EVP_DecryptFinal_ex] on the held-back block:
    [n = final[b-1]]; fail if [n == 0 || n > b]; fail unless the last [n]
    bytes all equal [n]; the plaintext is the first [b - n] bytes. *)
Definition pkcs7_unpad (final : list byte) : option (list byte) :=
  let n := nat_of_byte (last final x00) in
  if ((n =? 0) || (AES_BLOCK_SIZE <? n))%nat then None
  else if forallb (fun x => (nat_of_byte x =? n)%nat)
                  (skipn (AES_BLOCK_SIZE - n) final)
       then Some (firstn (AES_BLOCK_SIZE - n) final)
       else None.

(** The cipher context: key, chaining value, the partial block buffered so
    far, and the block [EVP_DecryptUpdate] holds back ([final_used]). *)
Record EVP_CIPHER_CTX := mkCtx {
  ctx_key : list byte;
  ctx_iv : list byte;
  ctx_buf : list byte;
  ctx_final : option (list byte)
}.

Section EVP.
Context {cipher : BlockCipher}.

(** CBC encryption of the bytes fed in, block by block as the buffer
    fills: outputs the cipher blocks, keeps chaining value and buffer. *)
Fixpoint encrypt_bytes (k chain buf data : list byte)
  : list byte * (list byte * list byte) :=
  match data with
  | [] => ([], (chain, buf))
  | x :: rest =>
      let buf' := buf ++ [x] in
      if (length buf' =? AES_BLOCK_SIZE)%nat then
        let c := E k (xor_block buf' chain) in
        let '(out, st) := encrypt_bytes k c [] rest in
        (c ++ out, st)
      else encrypt_bytes k chain buf' rest
  end.

(** CBC decryption, as the list of plaintext blocks. *)
Fixpoint decrypt_bytes (k chain buf data : list byte)
  : list (list byte) * (list byte * list byte) :=
  match data with
  | [] => ([], (chain, buf))
  | x :: rest =>
      let buf' := buf ++ [x] in
      if (length buf' =? AES_BLOCK_SIZE)%nat then
        let p := xor_block (D k buf') chain in
        let '(out, st) := decrypt_bytes k buf' [] rest in
        (p :: out, st)
      else decrypt_bytes k chain buf' rest
  end.

Definition EVP_EncryptInit_ex (k i : list byte) : EVP_CIPHER_CTX :=
  mkCtx k i [] None.

(** [inl] is an [int]; nothing is processed when [inl <= 0]. *)
Definition EVP_EncryptUpdate (ctx : EVP_CIPHER_CTX) (inp : list byte)
  (inl : Z) : EVP_CIPHER_CTX * list byte :=
  if inl <=? 0 then (ctx, [])
  else
    let '(out, (chain, buf)) :=
      encrypt_bytes (ctx_key ctx) (ctx_iv ctx) (ctx_buf ctx)
                    (firstn (Z.to_nat inl) inp) in
    (mkCtx (ctx_key ctx) chain buf None, out).

(** Pads the buffered partial block and encrypts it. *)
Definition EVP_EncryptFinal_ex (ctx : EVP_CIPHER_CTX) : bool * list byte :=
  (true, E (ctx_key ctx) (xor_block (pkcs7_pad (ctx_buf ctx)) (ctx_iv ctx))).

Definition EVP_DecryptInit_ex (k i : list byte) : EVP_CIPHER_CTX :=
  mkCtx k i [] None.

(** With padding on, when the input ends on a block boundary the last
    decrypted block is held back for [EVP_DecryptFinal_ex]. *)
Definition EVP_DecryptUpdate (ctx : EVP_CIPHER_CTX) (inp : list byte)
  (inl : Z) : EVP_CIPHER_CTX * list byte :=
  if inl <=? 0 then (ctx, [])
  else
    let '(blocks, (chain, buf)) :=
      decrypt_bytes (ctx_key ctx) (ctx_iv ctx) (ctx_buf ctx)
                    (firstn (Z.to_nat inl) inp) in
    let blocks :=
      match ctx_final ctx with Some f => f :: blocks | None => blocks end in
    match buf, blocks with
    | [], _ :: _ => (mkCtx (ctx_key ctx) chain buf (Some (last blocks [])),
                     concat (removelast blocks))
    | _, _ => (mkCtx (ctx_key ctx) chain buf None, concat blocks)
    end.

(** Returns 0 with [*outl = 0] on a wrong final block length or a bad
    padding, 1 with the unpadded bytes otherwise. *)
Definition EVP_DecryptFinal_ex (ctx : EVP_CIPHER_CTX) : bool * list byte :=
  match ctx_buf ctx, ctx_final ctx with
  | [], Some final =>
      match pkcs7_unpad final with
      | Some out => (true, out)
      | None => (false, [])
      end
  | _, _ => (false, [])
  end.
End EVP.

(* ================================================================= *)
(** ** [class Encryption] *)

Record Encryption := mkEncryption {
  key : list byte;   (* unsigned char key[32] *)
  iv : list byte     (* unsigned char iv[16] *)
}.

(** The constructor fills both arrays from [RAND_bytes]; the random bytes
    are the arguments. *)
Definition Encryption_new (rand_key rand_iv : list byte) : Encryption :=
  mkEncryption (firstn 32 rand_key) (firstn 16 rand_iv).

Definition setKey (enc : Encryption) (k i : list byte) : Encryption :=
  mkEncryption (firstn 32 k) (firstn 16 i).

Definition getKey (enc : Encryption) : list byte * list byte :=
  (key enc, iv enc).

Section EncryptionMethods.
Context {cipher : BlockCipher}.

(** [Encryption::encrypt]. The return values of the EVP calls are not
    looked at; the lengths travel as [int]. *)
Definition encrypt (enc : Encryption) (plaintext : list byte) : list byte :=
  let ctx := EVP_EncryptInit_ex (key enc) (iv enc) in
  let ciphertext := vector_new (length plaintext + AES_BLOCK_SIZE) in
  let '(ctx, out1) :=
    EVP_EncryptUpdate ctx plaintext (to_int (Z.of_nat (length plaintext))) in
  let ciphertext := store ciphertext 0 out1 in
  let len := Z.of_nat (length out1) in
  let ciphertext_len := len in
  let '(_, out2) := EVP_EncryptFinal_ex ctx in
  let ciphertext := store ciphertext (Z.to_nat len) out2 in
  let len := Z.of_nat (length out2) in
  let ciphertext_len := to_int (ciphertext_len + len) in
  resize (Z.to_nat (to_size_t ciphertext_len)) ciphertext.

(** The body of [Encryption::decrypt], with the value
    [EVP_DecryptFinal_ex] returns next to the vector built. *)
Definition decrypt_run (enc : Encryption) (ciphertext : list byte)
  : bool * list byte :=
  let ctx := EVP_DecryptInit_ex (key enc) (iv enc) in
  let plaintext := vector_new (length ciphertext) in
  let '(ctx, out1) :=
    EVP_DecryptUpdate ctx ciphertext (to_int (Z.of_nat (length ciphertext))) in
  let plaintext := store plaintext 0 out1 in
  let len := Z.of_nat (length out1) in
  let plaintext_len := len in
  let '(ok, out2) := EVP_DecryptFinal_ex ctx in
  let plaintext := store plaintext (Z.to_nat len) out2 in
  let len := Z.of_nat (length out2) in
  let plaintext_len := to_int (plaintext_len + len) in
  (ok, resize (Z.to_nat (to_size_t plaintext_len)) plaintext).

(** [Encryption::decrypt]: the result of [EVP_DecryptFinal_ex] is
    dropped and whatever was written is returned. *)
Definition decrypt (enc : Encryption) (ciphertext : list byte) : list byte :=
  snd (decrypt_run enc ciphertext).
End EncryptionMethods.

(* ================================================================= *)
(** ** [class DatabaseManager]: the catalog

    The two tables are lists of rows in insertion order. The SQLite return
    codes are not looked at by the source; statements are taken to succeed. *)

Record FileRow := mkFileRow {
  file_id : Z;
  original_path : string;
  file_size : Z;
  chunk_count : Z;
  encryption_key : list byte;
  encryption_iv : list byte;
  backup_date : string;
  status : string
}.

Record ChunkRow := mkChunkRow {
  chunk_id : Z;
  chunk_file_id : Z;
  chunk_index : Z;
  chunk_size : Z;
  cloud_provider : string;
  remote_path : string;
  checksum : string;
  upload_status : string
}.

Record Database := mkDatabase {
  files : list FileRow;
  chunks : list ChunkRow;
  files_seq : Z;    (* AUTOINCREMENT: largest file_id ever used *)
  chunks_seq : Z    (* AUTOINCREMENT: largest chunk_id ever used *)
}.

(** [initTables] on a new database file. *)
Definition empty_db : Database := mkDatabase [] [] 0 0.

(** [INSERT INTO files ... VALUES (?, ?, ?, ?, ?, ?, 'pending')], returning
    [sqlite3_last_insert_rowid] converted to [int]. *)
Definition insertFile (db : Database) (path : string) (size : Z) (count : Z)
  (k i : list byte) (now : string) : Database * Z :=
  let rowid := files_seq db + 1 in
  let row := mkFileRow rowid path (to_int64 size) count
                       (firstn 32 k) (firstn 16 i) now "pending" in
  (mkDatabase (files db ++ [row]) (chunks db) rowid (chunks_seq db),
   to_int rowid).

(** [INSERT INTO chunks ... VALUES (?, ?, ?, ?, ?, ?, 'uploaded')]. *)
Definition insertChunk (db : Database) (fid : Z) (index : Z) (size : Z)
  (provider : string) (path : string) (sum : string) : Database :=
  let rowid := chunks_seq db + 1 in
  let row := mkChunkRow rowid fid index (to_int64 size) provider path sum
                        "uploaded" in
  mkDatabase (files db) (chunks db ++ [row]) (files_seq db) rowid.

(** [UPDATE files SET status = ? WHERE file_id = ?]. *)
Definition updateFileStatus (db : Database) (fid : Z) (st : string)
  : Database :=
  let set row :=
    if file_id row =? fid then
      mkFileRow (file_id row) (original_path row) (file_size row)
                (chunk_count row) (encryption_key row) (encryption_iv row)
                (backup_date row) st
    else row in
  mkDatabase (map set (files db)) (chunks db) (files_seq db) (chunks_seq db).

(** The status column of the file record [fid]. *)
Definition file_status (db : Database) (fid : Z) : option string :=
  option_map status (find (fun row => file_id row =? fid) (files db)).

(** The chunk indices recorded as uploaded for the file [fid]. *)
Definition uploaded_indices (db : Database) (fid : Z) : list Z :=
  map chunk_index
      (filter (fun row => (chunk_file_id row =? fid)
                          && String.eqb (upload_status row) "uploaded")
              (chunks db)).

(** The indices [0, ..., n-1]. *)
Definition all_indices (n : Z) : list Z := map Z.of_nat (seq 0 (Z.to_nat n)).

(** Equality of two index lists as sets. *)
Definition same_set (a b : list Z) : bool :=
  forallb (fun x => existsb (Z.eqb x) b) a
  && forallb (fun x => existsb (Z.eqb x) a) b.

(* ================================================================= *)
(** ** [CloudProvider::upload] *)

(** The file system under the providers. Paths go to the operating system
    as they are built: [resolve] is the file a path names there (two
    different strings can name one file), [objects] the files written,
    the newest entry of a file first. *)
Record Storage := mkStorage {
  resolve : string -> string;
  objects : list (string * list byte)
}.

(** A file system with no file in which every path names a file of its
    own. *)
Definition no_files : Storage := mkStorage (fun path => path) [].

(** What the stream of one [upload] call did to the file: all bytes were
    written; the file was opened (and truncated) but the write stopped
    after [n] bytes; or the stream did not open and the file is as it
    was. A stream that fails raises no exception. *)
Inductive Effect :=
| Written
| Truncated (n : nat)
| NotOpened.

Definition write_file (st : Storage) (path : string) (content : list byte)
  : Storage :=
  mkStorage (resolve st) ((resolve st path, content) :: objects st).

Definition stream_effect (st : Storage) (path : string) (data : list byte)
  (effect : Effect) : Storage :=
  match effect with
  | Written => write_file st path data
  | Truncated n => write_file st path (firstn n data)
  | NotOpened => st
  end.

(** [upload] opens [base_path + "/" + filename], writes, closes and
    returns [true], whatever the stream did; only when the body throws
    ([completes = false]) does [catch (...)] return [false]. The state of
    the stream is never tested. *)
Definition upload (p : CloudProvider) (data : list byte) (filename : string)
  (completes : bool) (effect : Effect) (st : Storage) : Storage * bool :=
  (stream_effect st (base_path p ++ "/" ++ filename) data effect, completes).

(* ================================================================= *)
(** ** [CloudProvider::download] *)

(** [std::ifstream file(full_path, std::ios::binary)]: the content of the
    file the path names, or [None] when there is none and the stream fails
    to open. *)
Definition open_file (st : Storage) (path : string) : option (list byte) :=
  option_map snd
    (find (fun entry => String.eqb (fst entry) (resolve st path))
          (objects st)).

(** [std::vector<unsigned char>::max_size()], [PTRDIFF_MAX]. *)
Definition vector_max_size : Z := 2 ^ 63 - 1.

(** [download]: on a stream that failed to open [tellg] returns [-1], which
    [size_t size] turns into [2^64 - 1]; constructing a vector larger than
    [max_size()] throws [std::length_error], the [None] here. Otherwise the
    vector of [size] zero bytes is filled by [file.read]. *)
Definition download (p : CloudProvider) (filename : string) (st : Storage)
  : option (list byte) :=
  let full_path := (base_path p ++ "/" ++ filename)%string in
  let file := open_file st full_path in
  let size :=
    to_size_t (match file with
               | Some content => Z.of_nat (length content)
               | None => -1
               end) in
  if vector_max_size <? size then None
  else Some (fst (read size (match file with
                             | Some content => content
                             | None => []
                             end))).

(* ================================================================= *)
(** ** [class BackupSystem] *)

(** What the program prints. *)
Inductive Output :=
| OutStarting (filepath : string)
| OutFileSize (size : Z)
| OutWillCreate (count : Z)
| OutUploading (i : Z) (provider : string)
| OutUploaded (i : Z)
| ErrFailedUpload (i : Z)
| OutCompleted.

(** The closure pushed on [upload_queue], as the record of its captures. *)
Record Task := mkTask {
  t_provider : CloudProvider;
  t_encrypted : list byte;
  t_remote_filename : string;
  t_file_id : Z;
  t_i : Z;
  t_chunk_size : Z;
  t_checksum : string
}.

Record BackupSystem := mkBackupSystem {
  db : Database;
  providers : list CloudProvider;
  storage : Storage;
  upload_queue : list Task;
  workers : list (option Task);   (* the task each worker thread is running *)
  stop_workers : bool;
  output : list Output
}.

(** The constructor, on a database [db0] and provider directories [st0]. *)
Definition BackupSystem_new (db0 : Database) (st0 : Storage) : BackupSystem :=
  mkBackupSystem db0 default_providers st0 [] (repeat None NUM_UPLOAD_THREADS)
                 false [].

(** The body of an upload task. *)
Definition run_task (t : Task) (completes : bool) (effect : Effect)
  (sys : BackupSystem) : BackupSystem :=
  let out := output sys ++ [OutUploading (t_i t) (name (t_provider t))] in
  let '(st, ok) := upload (t_provider t) (t_encrypted t)
                          (t_remote_filename t) completes effect
                          (storage sys) in
  if ok then
    mkBackupSystem
      (insertChunk (db sys) (t_file_id t) (t_i t) (t_chunk_size t)
                   (name (t_provider t)) (t_remote_filename t) (t_checksum t))
      (providers sys) st (upload_queue sys) (workers sys) (stop_workers sys)
      (out ++ [OutUploaded (t_i t)])
  else
    mkBackupSystem (db sys) (providers sys) st (upload_queue sys)
                   (workers sys) (stop_workers sys)
                   (out ++ [ErrFailedUpload (t_i t)]).

(** Replace the slot of worker [w]. *)
Fixpoint set_worker (w : nat) (v : option Task) (ws : list (option Task))
  : list (option Task) :=
  match ws, w with
  | [], _ => []
  | _ :: rest, O => v :: rest
  | x :: rest, S w' => x :: set_worker w' v rest
  end.

Definition with_workers (sys : BackupSystem) (q : list Task)
  (ws : list (option Task)) : BackupSystem :=
  mkBackupSystem (db sys) (providers sys) (storage sys) q ws
                 (stop_workers sys) (output sys).

(** One pass of [workerThread]'s loop up to the end of the locked block:
    pop the front task if there is one (otherwise the thread sleeps). *)
Definition worker_take (w : nat) (sys : BackupSystem) : BackupSystem :=
  if stop_workers sys then sys
  else
    match nth_error (workers sys) w, upload_queue sys with
    | Some None, task :: rest =>
        with_workers sys rest (set_worker w (Some task) (workers sys))
    | _, _ => sys
    end.

(** [if (task) task();] outside the lock. *)
Definition worker_run (w : nat) (completes : bool) (effect : Effect)
  (sys : BackupSystem) : BackupSystem :=
  match nth_error (workers sys) w with
  | Some (Some task) =>
      let sys' := run_task task completes effect sys in
      with_workers sys' (upload_queue sys') (set_worker w None (workers sys'))
  | _ => sys
  end.

(** What one call of [backupFile] takes from its environment: the path, the
    file's content ([None] when it cannot be opened), the bytes [RAND_bytes]
    delivers and the clock. *)
Record Input := mkInput {
  in_filepath : string;
  in_content : option (list byte);
  in_rand_key : list byte;
  in_rand_iv : list byte;
  in_now : string
}.

(** The locals of [backupFile] that stay fixed once computed. *)
Record Run := mkRun {
  run_enc : Encryption;
  run_file_id : Z;
  run_file_size : Z;
  run_chunk_count : Z
}.

(** Where the thread that called [backupFile] stands. *)
Inductive Main :=
| Start (inp : Input)
| Chunking (run : Run) (i : Z) (stream : list byte)
| Waiting (run : Run)
| Finished (run : Run)
| Threw (what : string).

Record State := mkState {
  main : Main;
  sys : BackupSystem
}.

(** The scheduler's choices: the main thread runs to its next lock, a
    worker runs its locked block, a worker runs the task it holds (with
    what happens in the provider's [upload]: whether its body completes
    or throws, and what its stream does to the file). *)
Inductive Event :=
| MainStep
| WorkerTake (w : nat)
| WorkerRun (w : nat) (completes : bool) (effect : Effect).

Section Backup.
Context {cipher : BlockCipher}.
Variable cs : Z.

(** The loop body from the encryption to the closure, for chunk [i]. *)
Definition make_task (run : Run) (provider : CloudProvider) (i : Z)
  (size : Z) (chunk : list byte) : Task :=
  let encrypted := encrypt (run_enc run) chunk in
  let remote_filename :=
    ("file_" ++ to_string (run_file_id run)
     ++ "_chunk_" ++ to_string i ++ ".enc")%string in
  let sum := calculateChecksum encrypted in
  mkTask provider encrypted remote_filename (run_file_id run) i size sum.

(** [BackupSystem::backupFile], one stretch at a time. From [Start]: open
    the file (or throw), compute the sizes, create the [Encryption] object
    and insert the file record. At the top of the loop: read, encrypt,
    select the provider, checksum and push the task under the queue lock,
    or leave the loop. In the wait loop: one look at the queue under the
    lock; if it is empty, [updateFileStatus(file_id, "completed")]. An
    empty provider list makes [providers[i % 0]] undefined; the model
    stops the thread there. *)
Definition main_step (m : Main) (s : BackupSystem) : Main * BackupSystem :=
  match m with
  | Start inp =>
      let out := output s ++ [OutStarting (in_filepath inp)] in
      match in_content inp with
      | None =>
          (Threw ("Cannot open file: " ++ in_filepath inp),
           mkBackupSystem (db s) (providers s) (storage s) (upload_queue s)
                          (workers s) (stop_workers s) out)
      | Some content =>
          let size := file_size_of content in
          let count := chunk_count_of cs size in
          let out := out ++ [OutFileSize size; OutWillCreate count] in
          let enc := Encryption_new (in_rand_key inp) (in_rand_iv inp) in
          let '(k, i) := getKey enc in
          let '(db', fid) :=
            insertFile (db s) (in_filepath inp) size count k i (in_now inp) in
          (Chunking (mkRun enc fid size count) 0 content,
           mkBackupSystem db' (providers s) (storage s) (upload_queue s)
                          (workers s) (stop_workers s) out)
      end
  | Chunking run i stream =>
      if i <? run_chunk_count run then
        let size := chunk_size_at cs (run_file_size run) i in
        let '(chunk, rest) := read size stream in
        match select_provider (providers s) i with
        | None => (Threw "no provider", s)
        | Some provider =>
            let task := make_task run provider i size chunk in
            (Chunking run (i + 1) rest,
             with_workers s (upload_queue s ++ [task]) (workers s))
        end
      else (Waiting run, s)
  | Waiting run =>
      match upload_queue s with
      | [] =>
          (Finished run,
           mkBackupSystem
             (updateFileStatus (db s) (run_file_id run) "completed")
             (providers s) (storage s) (upload_queue s) (workers s)
             (stop_workers s) (output s ++ [OutCompleted]))
      | _ :: _ => (Waiting run, s)
      end
  | Finished _ | Threw _ => (m, s)
  end.

(** One step of the whole program under the scheduler's choice. *)
Definition step (ev : Event) (st : State) : State :=
  match ev with
  | MainStep =>
      let '(m, s) := main_step (main st) (sys st) in mkState m s
  | WorkerTake w => mkState (main st) (worker_take w (sys st))
  | WorkerRun w completes effect =>
      mkState (main st) (worker_run w completes effect (sys st))
  end.

(** The run under a schedule. *)
Definition exec (sched : list Event) (st : State) : State :=
  fold_left (fun st ev => step ev st) sched st.

(** [BackupSystem system(db); system.backupFile(path)]: the state in which
    the call starts; [exec] runs it. *)
Definition backupFile (inp : Input) (db0 : Database) (st0 : Storage)
  : State :=
  mkState (Start inp) (BackupSystem_new db0 st0).
End Backup.

(** A chunk's upload task is over: its row is in the catalog, or its
    failure was reported. *)
Definition terminal (s : BackupSystem) (fid i : Z) : bool :=
  existsb (Z.eqb i) (uploaded_indices (db s) fid)
  || existsb (fun o => match o with ErrFailedUpload j => j =? i | _ => false end)
             (output s).

(** The task a worker slot holds, as a list. *)
Definition slot_tasks (slot : option Task) : list Task :=
  match slot with Some t => [t] | None => [] end.

(** The tasks that are queued or held by a worker. *)
Definition outstanding (s : BackupSystem) : list Task :=
  upload_queue s ++ flat_map slot_tasks (workers s).

(* ================================================================= *)
(** ** A small block cipher to run the model on

    Reverses the block and XORs every byte with the first key byte. *)

Definition demo_E (k b : list byte) : list byte :=
  map (fun x => byte_xor x (hd x00 k)) (rev b).

Definition demo_D (k c : list byte) : list byte :=
  rev (map (fun x => byte_xor x (hd x00 k)) c).

(* ================================================================= *)
(** * Vocabulary of the statements *)

(** ** Bytes, chunk sizes and ciphertexts *)

(** The all-zero bit pattern. *)
Definition zero_bits : bits :=
  (false, (false, (false, (false, (false, (false, (false, false))))))).

(** All chunks but the last have [cs] bytes; none is empty or longer. *)
Definition sizes_ok (cs : Z) (l : list (list byte)) : Prop :=
  Forall (fun c => Z.of_nat (length c) = cs) (removelast l)
  /\ Forall (fun c => 0 < Z.of_nat (length c) <= cs) l.

(** The ciphertext of [P] under chaining value [chain]: the blocks
    [EVP_EncryptUpdate] emits, then the padded block of
    [EVP_EncryptFinal_ex]. *)
Definition cbc_ciphertext {cipher : BlockCipher} (k chain P : list byte)
  : list byte :=
  let st := snd (encrypt_bytes k chain [] P) in
  fst (encrypt_bytes k chain [] P)
  ++ E k (xor_block (pkcs7_pad (snd st)) (fst st)).

(** The arrays of an [Encryption] object have their declared sizes. *)
Definition valid_Encryption (enc : Encryption) : Prop :=
  length (key enc) = 32%nat /\ length (iv enc) = AES_BLOCK_SIZE.

(** ** Steps and schedules *)

(** The row [insertChunk] adds for a task. *)
Definition row_of (db0 : Database) (t : Task) : ChunkRow :=
  mkChunkRow (chunks_seq db0 + 1) (t_file_id t) (t_i t)
             (to_int64 (t_chunk_size t)) (name (t_provider t))
             (t_remote_filename t) (t_checksum t) "uploaded".

(** The scheduler lets the thread in [backupFile] run. *)
Definition is_main (ev : Event) : bool :=
  match ev with MainStep => true | _ => false end.

(** How often the schedule lets the thread in [backupFile] run. *)
Definition main_steps (sched : list Event) : nat :=
  length (filter is_main sched).

(** Nothing queued and every worker idle. *)
Definition quiet (s : BackupSystem) : Prop :=
  upload_queue s = [] /\ Forall (fun slot => slot = None) (workers s).

(** A catalog as SQLite and this program keep it: the ids of the file
    records do not exceed the AUTOINCREMENT counter, the next id fits the
    [int] it is converted to, and the chunk rows refer to files recorded
    earlier. *)
Definition catalog_ok (d : Database) : Prop :=
  0 <= files_seq d /\ files_seq d + 1 <= INT_MAX
  /\ Forall (fun row => file_id row <= files_seq d) (files d)
  /\ Forall (fun row => chunk_file_id row <= files_seq d) (chunks d).

(** The state of a backup of an empty file after the thread in
    [backupFile] has run [k] times. *)
Definition empty_phase {cipher : BlockCipher} (path : string)
  (rk ri : list byte) (now : string) (d0 : Database) (st0 : Storage)
  (k : nat) : State :=
  exec CHUNK_SIZE (repeat MainStep k)
       (backupFile (mkInput path (Some []) rk ri now) d0 st0).

(** ** Accounting for the chunks of a run *)

(** The chunk indices whose failure was reported. *)
Definition failed_indices (out : list Output) : list Z :=
  flat_map (fun o => match o with ErrFailedUpload j => [j] | _ => [] end) out.

(** Occurrences of the index [x]. *)
Definition cnt (x : Z) (l : list Z) : nat := count_occ Z.eq_dec l x.

(** The chunk rows written since the catalog was [d0]. *)
Definition new_chunks (d0 : Database) (s : BackupSystem) : list ChunkRow :=
  skipn (length (chunks d0)) (chunks (db s)).

(** Every index below [n] is accounted for exactly once: its task is
    queued or held by a worker, or its row was recorded, or its failure
    was reported. *)
Definition balanced (d0 : Database) (s : BackupSystem) (n : Z) : Prop :=
  forall x,
    (cnt x (map t_i (outstanding s))
     + cnt x (map chunk_index (new_chunks d0 s))
     + cnt x (failed_indices (output s)))%nat
    = cnt x (all_indices n).

(** The tasks around and the rows written since [d0] all belong to the
    file of the run, whose id is the next one after [d0]. *)
Definition tasks_of_run (d0 : Database) (s : BackupSystem) : Prop :=
  (forall t, In t (outstanding s) -> t_file_id t = files_seq d0 + 1)
  /\ chunks (db s) = chunks d0 ++ new_chunks d0 s
  /\ Forall (fun row => chunk_file_id row = files_seq d0 + 1
                        /\ upload_status row = "uploaded"%string)
            (new_chunks d0 s).

(** The catalog [d] holds the file records of [d0] and, last, the record
    of the run, with this status. *)
Definition file_row_is (d0 d : Database) (st : string) (count : Z) : Prop :=
  exists row,
    files d = files d0 ++ [row] /\ file_id row = files_seq d0 + 1
    /\ status row = st /\ chunk_count row = count.

(** What holds of every state a schedule can reach from a call of
    [backupFile] on the catalog [d0]. *)
Definition Inv (d0 : Database) (st0 : Storage) (st : State) : Prop :=
  match main st with
  | Start _ => sys st = BackupSystem_new d0 st0
  | Chunking run i _ =>
      tasks_of_run d0 (sys st)
      /\ run_file_id run = files_seq d0 + 1
      /\ file_row_is d0 (db (sys st)) "pending" (run_chunk_count run)
      /\ 0 <= i /\ (i = 0 \/ i <= run_chunk_count run)
      /\ balanced d0 (sys st) i
  | Waiting run =>
      tasks_of_run d0 (sys st)
      /\ run_file_id run = files_seq d0 + 1
      /\ file_row_is d0 (db (sys st)) "pending" (run_chunk_count run)
      /\ balanced d0 (sys st) (run_chunk_count run)
  | Finished run =>
      tasks_of_run d0 (sys st)
      /\ run_file_id run = files_seq d0 + 1
      /\ file_row_is d0 (db (sys st)) "completed" (run_chunk_count run)
      /\ balanced d0 (sys st) (run_chunk_count run)
  | Threw _ =>
      files (db (sys st)) = files d0
      \/ exists count, file_row_is d0 (db (sys st)) "pending" count
  end.

(** ** Inputs for the examples *)

(** An [Encryption] object, a run and payloads for the examples. *)
Definition demo_enc : Encryption :=
  Encryption_new (repeat x5a 32) (map byte_of_nat (seq 1 16)).

Definition demo_run : Run := mkRun demo_enc 1 40 1.

Definition demo_payload : list byte := map byte_of_nat (seq 65 40).

(** A one-byte file, for the runs below. *)
Definition one_byte_file : Input :=
  mkInput "a.bin" (Some [x41]) (repeat x5a 32) (map byte_of_nat (seq 1 16))
          "2024-01-01 00:00:00".

(** ** The tasks of a run and the objects behind its rows *)

(** The name the loop body gives the object of chunk [i] of file [fid]. *)
Definition remote_filename_of (fid i : Z) : string :=
  ("file_" ++ to_string fid ++ "_chunk_" ++ to_string i ++ ".enc")%string.

(** The provider the constructor's list has at [i % 3]. *)
Definition provider_for (i : Z) : CloudProvider :=
  nth (Z.to_nat (provider_index 3 i)) default_providers
      (mkCloudProvider "" "").

(** The locals of the call on a file with this content. *)
Definition run_of (cs : Z) (rk ri : list byte) (d0 : Database)
  (content : list byte) : Run :=
  mkRun (Encryption_new rk ri) (to_int (files_seq d0 + 1))
        (file_size_of content)
        (chunk_count_of cs (file_size_of content)).

(** The task the loop body builds for a chunk the chunker delivers. *)
Definition task_for {cipher : BlockCipher} (cs : Z) (run : Run)
  (ic : Z * list byte) : Task :=
  make_task run (provider_for (fst ic)) (fst ic)
            (chunk_size_at cs (run_file_size run) (fst ic)) (snd ic).

(** The catalog's AUTOINCREMENT counters bound the ids in use, and no two
    chunk rows share an id. *)
Definition ids_ok (d : Database) : Prop :=
  Forall (fun row => file_id row <= files_seq d) (files d)
  /\ Forall (fun row => chunk_id row <= chunks_seq d) (chunks d)
  /\ NoDup (map file_id (files d))
  /\ NoDup (map chunk_id (chunks d)).

(** No character of the string is [c]. *)
Fixpoint avoids (c : ascii) (s : string) : bool :=
  match s with
  | EmptyString => true
  | String x rest => negb (Ascii.eqb x c) && avoids c rest
  end.

(** The indices the run has dealt with or still holds: those of the tasks
    queued or held by a worker, of the rows recorded for the file, and of
    the failures reported. *)
Definition accounted (st : State) (run : Run) : list Z :=
  map t_i (outstanding (sys st))
  ++ uploaded_indices (db (sys st)) (run_file_id run)
  ++ failed_indices (output (sys st)).

(** Where [upload] puts the object of a task. *)
Definition object_path (t : Task) : string :=
  (base_path (t_provider t) ++ "/" ++ t_remote_filename t)%string.

(** The row is the one some task of [tasks] wrote, and that task's
    ciphertext is what the provider's directory holds under its name. *)
Definition row_stored (tasks : list Task) (st : Storage) (row : ChunkRow)
  : Prop :=
  exists (t : Task) (d : Database),
    In t tasks /\ row = row_of d t
    /\ open_file st (object_path t) = Some (t_encrypted t).

(** The catalog [d] holds the file records of [d0] and, last, the record
    of the run with its path, key and IV. *)
Definition key_row (d0 d : Database) (path : string) (enc : Encryption)
  : Prop :=
  exists frow,
    files d = files d0 ++ [frow] /\ file_id frow = files_seq d0 + 1
    /\ original_path frow = path
    /\ encryption_key frow = firstn 32 (key enc)
    /\ encryption_iv frow = firstn 16 (iv enc).

(** A path [upload] builds for one of the three providers from an object
    name of the loop body. *)
Definition is_object_path (path : string) : Prop :=
  exists (p : CloudProvider) (fid i : Z),
    In p default_providers
    /\ path = (base_path p ++ "/" ++ remote_filename_of fid i)%string.

(** No two object paths name the same file: the provider directories are
    different directories and no object in them is a link to another. *)
Definition alias_free (st : Storage) : Prop :=
  forall a b : string,
    is_object_path a -> is_object_path b ->
    resolve st a = resolve st b -> a = b.

(** In this step of the schedule the stream of [upload] writes every
    byte, or it does not open the file and [upload] returns [false]. *)
Definition sound_upload (ev : Event) : bool :=
  match ev with
  | WorkerRun _ _ (Truncated _) | WorkerRun _ true NotOpened => false
  | _ => true
  end.

(** Behind every row written since [d0] there is the stored ciphertext. *)
Definition rows_stored (tasks : list Task) (d0 : Database)
  (s : BackupSystem) : Prop :=
  Forall (row_stored tasks (storage s)) (new_chunks d0 s).

(** What holds of every state a schedule can reach from a call of
    [backupFile] on a file with this content: the tasks around are tasks
    of the file's chunks, the rows of the catalog [d0] come first in the
    chunk table, and the file record carries path, key and IV. *)
Definition Queued {cipher : BlockCipher} (cs : Z) (path : string)
  (content rk ri : list byte) (now : string) (d0 : Database)
  (st0 : Storage) (st : State) : Prop :=
  let run := run_of cs rk ri d0 content in
  let tasks := map (task_for cs run) (chunks_of cs content) in
  providers (sys st) = default_providers
  /\ chunks (db (sys st)) = chunks d0 ++ new_chunks d0 (sys st)
  /\ (forall t, In t (outstanding (sys st)) -> In t tasks)
  /\ match main st with
     | Start inp =>
         inp = mkInput path (Some content) rk ri now
         /\ sys st = BackupSystem_new d0 st0
     | Chunking r i stream =>
         r = run /\ key_row d0 (db (sys st)) path (run_enc run)
         /\ exists done,
              chunks_of cs content
              = done ++ chunk_loop cs (run_file_size run)
                                   (Z.to_nat (run_chunk_count run - i))
                                   i stream
     | Waiting r | Finished r =>
         r = run /\ key_row d0 (db (sys st)) path (run_enc run)
     | Threw _ => False
     end.

(** The number of worker slots never changes, and once the thread in
    [backupFile] is past its wait loop the queue is empty. *)
Definition returned_ok (st : State) : Prop :=
  length (workers (sys st)) = NUM_UPLOAD_THREADS
  /\ match main st with
     | Finished _ => upload_queue (sys st) = []
     | _ => True
     end.

(** The file system names files as [st0] does and holds what [st0] held
    and, written later, only files that paths of tasks of [tasks] name. *)
Definition objects_added (tasks : list Task) (st0 sto : Storage) : Prop :=
  resolve sto = resolve st0
  /\ exists added : list (string * list byte),
       objects sto = added ++ objects st0
       /\ Forall (fun entry =>
                    exists t, In t tasks
                              /\ fst entry = resolve st0 (object_path t))
                 added.

(* ================================================================= *)
(** * Properties *)

(** ** Bytes *)

Ltac split_bits x :=
  destruct x as [? [? [? [? [? [? [? ?]]]]]]].

Lemma bits_xor_assoc (x y z : bits) :
  bits_xor (bits_xor x y) z = bits_xor x (bits_xor y z).
Proof.
  split_bits x; split_bits y; split_bits z; simpl.
  now rewrite !xorb_assoc.
Qed.

Lemma bits_xor_nilpotent (x : bits) : bits_xor x x = zero_bits.
Proof. split_bits x; simpl. now rewrite !xorb_nilpotent. Qed.

Lemma bits_xor_zero_r (x : bits) : bits_xor x zero_bits = x.
Proof. split_bits x; simpl. now rewrite !xorb_false_r. Qed.

Lemma to_bits_byte_xor (a b : byte) :
  Byte.to_bits (byte_xor a b) = bits_xor (Byte.to_bits a) (Byte.to_bits b).
Proof. apply Byte.to_bits_of_bits. Qed.

Lemma to_bits_inj (a b : byte) : Byte.to_bits a = Byte.to_bits b -> a = b.
Proof.
  intros H.
  rewrite <- (Byte.of_bits_to_bits a), <- (Byte.of_bits_to_bits b).
  now f_equal.
Qed.

Lemma byte_xor_assoc (a b c : byte) :
  byte_xor (byte_xor a b) c = byte_xor a (byte_xor b c).
Proof.
  apply to_bits_inj. rewrite !to_bits_byte_xor. apply bits_xor_assoc.
Qed.

Lemma byte_xor_cancel_r (a b : byte) : byte_xor (byte_xor a b) b = a.
Proof.
  apply to_bits_inj.
  now rewrite !to_bits_byte_xor, bits_xor_assoc, bits_xor_nilpotent,
    bits_xor_zero_r.
Qed.

Lemma xorb_fixed (a b : bool) : xorb a b = a -> b = false.
Proof. destruct a, b; simpl; congruence. Qed.

Lemma byte_xor_fixed (a m : byte) : byte_xor a m = a -> m = x00.
Proof.
  intros H. apply (f_equal Byte.to_bits) in H.
  rewrite to_bits_byte_xor in H.
  apply to_bits_inj. change (Byte.to_bits x00) with zero_bits.
  revert H. generalize (Byte.to_bits a) (Byte.to_bits m). intros x y H.
  split_bits x; split_bits y; simpl in H. unfold zero_bits.
  injection H as H0 H1 H2 H3 H4 H5 H6 H7.
  apply xorb_fixed in H0, H1, H2, H3, H4, H5, H6, H7.
  now subst.
Qed.

(** ** The checksum *)

Lemma to_size_t_add_l (a b : Z) :
  to_size_t (to_size_t a + b) = to_size_t (a + b).
Proof. unfold to_size_t. apply Zplus_mod_idemp_l. Qed.

Lemma byte_sum_cons (b : byte) (data : list byte) :
  byte_sum (b :: data) = Z.of_N (Byte.to_N b) + byte_sum data.
Proof. reflexivity. Qed.

Lemma checksum_fold (data : list byte) (acc : Z) :
  fold_left (fun sum b => to_size_t (sum + Z.of_N (Byte.to_N b)))
            data (to_size_t acc)
  = to_size_t (acc + byte_sum data).
Proof.
  revert acc. induction data as [|b data IH]; intros acc; cbn [fold_left].
  - change (byte_sum []) with 0. now rewrite Z.add_0_r.
  - rewrite to_size_t_add_l, IH, byte_sum_cons. f_equal. lia.
Qed.

Lemma calculateChecksum_sum (data : list byte) :
  calculateChecksum data
  = HexadecimalString.NilZero.string_of_uint
      (N.to_hex_uint (Z.to_N (to_size_t (byte_sum data)))).
Proof.
  unfold calculateChecksum.
  change 0 with (to_size_t 0) at 1.
  now rewrite checksum_fold.
Qed.

Lemma byte_sum_Permutation (d1 d2 : list byte) :
  Permutation d1 d2 -> byte_sum d1 = byte_sum d2.
Proof. induction 1; rewrite ?byte_sum_cons; lia. Qed.

(** ** Chunking *)

Lemma ceil_div_0 (cs : Z) : 0 < cs -> ceil_div 0 cs = 0.
Proof. intros. unfold ceil_div. apply Z.div_small. lia. Qed.

Lemma ceil_div_pos (l cs : Z) : 0 < cs -> 0 < l -> 0 < ceil_div l cs.
Proof.
  intros. unfold ceil_div.
  apply Z.div_str_pos. lia.
Qed.

Lemma ceil_div_step (l cs : Z) :
  0 < cs -> 0 < l -> ceil_div l cs = 1 + ceil_div (l - Z.min cs l) cs.
Proof.
  intros Hcs Hl. unfold ceil_div.
  destruct (Z.min_spec cs l) as [[Hlt ->] | [Hle ->]].
  - replace (l + cs - 1) with (1 * cs + (l - cs + cs - 1)) by lia.
    rewrite Z.div_add_l by lia. reflexivity.
  - replace (l - l + cs - 1) with (cs - 1) by lia.
    rewrite (Z.div_small (cs - 1)) by lia.
    replace (l + cs - 1) with (1 * cs + (l - 1)) by lia.
    rewrite Z.div_add_l by lia. rewrite Z.div_small; lia.
Qed.

Lemma read_exact (n : Z) (stream : list byte) :
  0 <= n <= Z.of_nat (length stream) ->
  read n stream = (firstn (Z.to_nat n) stream, skipn (Z.to_nat n) stream).
Proof.
  intros H. unfold read.
  rewrite length_firstn, Nat.min_l by lia.
  now rewrite Nat.sub_diag, app_nil_r.
Qed.

Lemma chunk_size_at_exact (cs fs i : Z) :
  0 < cs -> 0 <= i -> i * cs <= fs < 2 ^ 64 ->
  chunk_size_at cs fs i = Z.min cs (fs - i * cs).
Proof.
  intros Hcs Hi Hfs. unfold chunk_size_at, to_size_t.
  assert (i < 2 ^ 64) by nia.
  rewrite (Z.mod_small i), (Z.mod_small (i * cs)), Z.mod_small; nia.
Qed.

Lemma chunk_loop_length (cs fs : Z) (n : nat) (i : Z) (stream : list byte) :
  length (chunk_loop cs fs n i stream) = n.
Proof.
  revert i stream. induction n as [|n IH]; intros i stream; simpl.
  - reflexivity.
  - destruct (read (chunk_size_at cs fs i) stream) as [chunk rest].
    simpl. now rewrite IH.
Qed.


Lemma chunk_loop_spec (cs fs : Z) :
  0 < cs -> fs < 2 ^ 64 ->
  forall (n : nat) (i : Z) (stream : list byte),
    0 <= i ->
    (0 < Z.of_nat (length stream) ->
     fs = i * cs + Z.of_nat (length stream)) ->
    Z.of_nat n = ceil_div (Z.of_nat (length stream)) cs ->
    let chunks := chunk_loop cs fs n i stream in
    map fst chunks = map (fun k => i + Z.of_nat k) (seq 0 n)
    /\ sizes_ok cs (map snd chunks)
    /\ concat (map snd chunks) = stream.
Proof.
  intros Hcs Hfs. induction n as [|n IH]; intros i stream Hi Hsize Hn.
  - simpl. repeat split; try constructor.
    destruct stream as [|b stream]; [reflexivity|].
    pose proof (ceil_div_pos (Z.of_nat (length (b :: stream))) cs Hcs) as Hp.
    simpl length in *. lia.
  - assert (Hl : 0 < Z.of_nat (length stream)).
    { destruct stream; [|simpl; lia].
      simpl in Hn. rewrite ceil_div_0 in Hn; lia. }
    pose proof (ceil_div_step _ _ Hcs Hl) as Hstep.
    specialize (Hsize Hl).
    cbn [chunk_loop]. cbv zeta.
    rewrite chunk_size_at_exact by lia.
    replace (fs - i * cs) with (Z.of_nat (length stream)) by lia.
    set (m := Z.min cs (Z.of_nat (length stream))) in *.
    assert (Hm : 0 < m <= Z.of_nat (length stream)) by lia.
    rewrite read_exact by lia.
    specialize (IH (i + 1) (skipn (Z.to_nat m) stream)).
    rewrite length_skipn in IH.
    replace (Z.of_nat (length stream - Z.to_nat m))
      with (Z.of_nat (length stream) - m) in IH by lia.
    destruct IH as (IHi & (IHs1 & IHs2) & IHc); try lia.
    cbn [map fst snd concat].
    split; [|split].
    + cbn [seq map]. f_equal; [lia|]. rewrite IHi, <- seq_shift, map_map.
      apply map_ext. intros. lia.
    + assert (Hlen : Z.of_nat (length (firstn (Z.to_nat m) stream)) = m).
      { rewrite length_firstn. lia. }
      split.
      * destruct (map snd (chunk_loop cs fs n (i + 1)
                              (skipn (Z.to_nat m) stream))) as [|c l] eqn:El.
        { constructor. }
        change (removelast (?a :: c :: l)) with (a :: removelast (c :: l)).
        constructor; [|assumption].
        rewrite Hlen.
        destruct n as [|n]; [discriminate El|].
        destruct (Z.eq_dec (Z.of_nat (length stream) - m) 0) as [E0|N0].
        { rewrite E0, ceil_div_0 in Hstep; lia. }
        subst m. lia.
      * constructor; [lia | assumption].
    + rewrite IHc. apply firstn_skipn.
Qed.

(** ** Round-robin selection *)

Lemma provider_index_small (n i : Z) :
  0 <= i < 2 ^ 64 -> provider_index n i = i mod n.
Proof.
  intros. unfold provider_index, to_size_t.
  now rewrite (Z.mod_small i) by lia.
Qed.

Lemma assigned_count_S (n : Z) (k : nat) (b : Z) :
  assigned_count n (S k) b
  = (assigned_count n k b
     + if (provider_index n (Z.of_nat k) =? b)%Z then 1 else 0)%nat.
Proof.
  unfold assigned_count.
  rewrite seq_S, map_app, filter_app, length_app. simpl.
  now destruct (provider_index n (Z.of_nat k) =? b).
Qed.

Lemma div_one_block (n q x : Z) :
  0 < n -> 0 <= x < 2 * n ->
  (q * n + x) / n = q + (if x <? n then 0 else 1).
Proof.
  intros Hn Hx. rewrite Z.div_add_l by lia. f_equal.
  destruct (Z.ltb_spec x n).
  - apply Z.div_small. lia.
  - replace x with (1 * n + (x - n)) by lia.
    rewrite Z.div_add_l by lia. rewrite Z.div_small; lia.
Qed.

Lemma count_step (n k b : Z) :
  0 <= b < n -> 0 <= k ->
  (k + 1 + n - 1 - b) / n
  = (k + n - 1 - b) / n + (if k mod n =? b then 1 else 0).
Proof.
  intros Hb Hk.
  pose proof (Z.div_mod k n ltac:(lia)) as Hdiv.
  pose proof (Z.mod_pos_bound k n ltac:(lia)) as Hr.
  set (q := k / n) in *. set (r := k mod n) in *.
  replace (k + 1 + n - 1 - b) with (q * n + (r + n - b)) by lia.
  replace (k + n - 1 - b) with (q * n + (r + n - 1 - b)) by lia.
  rewrite !div_one_block by lia.
  destruct (Z.ltb_spec (r + n - b) n), (Z.ltb_spec (r + n - 1 - b) n),
    (Z.eqb_spec r b); lia.
Qed.

Lemma assigned_count_formula (n : Z) (k : nat) (b : Z) :
  0 <= b < n -> Z.of_nat k <= 2 ^ 64 ->
  Z.of_nat (assigned_count n k b) = (Z.of_nat k + n - 1 - b) / n.
Proof.
  intros Hb. induction k as [|k IH]; intros Hk.
  - unfold assigned_count. simpl. symmetry. apply Z.div_small. lia.
  - rewrite assigned_count_S, Nat2Z.inj_add, IH by lia.
    rewrite provider_index_small by lia.
    rewrite Nat2Z.inj_succ.
    replace (Z.succ (Z.of_nat k) + n - 1 - b)
      with (Z.of_nat k + 1 + n - 1 - b) by lia.
    rewrite count_step by lia.
    now destruct (Z.of_nat k mod n =? b).
Qed.

Lemma assigned_count_balanced (n : Z) (k : nat) (b : Z) :
  0 <= b < n -> Z.of_nat k <= 2 ^ 64 ->
  Z.of_nat (assigned_count n k b) = Z.of_nat k / n
  \/ Z.of_nat (assigned_count n k b) = Z.of_nat k / n + 1.
Proof.
  intros Hb Hk. rewrite assigned_count_formula by assumption.
  pose proof (Z.div_mod (Z.of_nat k) n ltac:(lia)) as Hdiv.
  pose proof (Z.mod_pos_bound (Z.of_nat k) n ltac:(lia)) as Hr.
  set (q := Z.of_nat k / n) in *. set (r := Z.of_nat k mod n) in *.
  replace (Z.of_nat k + n - 1 - b) with (q * n + (r + n - 1 - b)) by lia.
  rewrite div_one_block by lia.
  destruct (Z.ltb_spec (r + n - 1 - b) n); lia.
Qed.

Lemma to_int_small (z : Z) : 0 <= z <= INT_MAX -> to_int z = z.
Proof.
  unfold to_int, INT_MAX. intros H.
  rewrite Z.mod_small; lia.
Qed.

Lemma to_size_t_small (z : Z) : 0 <= z < 2 ^ 64 -> to_size_t z = z.
Proof. intros. now apply Z.mod_small. Qed.

Lemma select_provider_nth (providers : list CloudProvider) (i : Z) :
  providers <> [] -> 0 <= i < 2 ^ 64 ->
  select_provider providers i
  = nth_error providers (Z.to_nat (i mod Z.of_nat (length providers))).
Proof.
  intros Hne Hi. unfold select_provider.
  destruct providers as [|p ps]; [contradiction|].
  now rewrite provider_index_small.
Qed.

(* ----------------------------------------------------------------- *)
(** ** Claims on the checksum, the chunker and the selector *)

(** C9: [calculateChecksum] depends only on the multiset of byte values of
    the payload. Two payloads that are permutations of each other get the
    same checksum string, and so do any two payloads with the same byte
    sum: the recorded checksum cannot tell a reordered or otherwise
    sum-preserving corruption of the stored blob from the original. *)
Theorem calculateChecksum_multiset :
  (forall d1 d2 : list byte,
      Permutation d1 d2 -> calculateChecksum d1 = calculateChecksum d2)
  /\ (forall d1 d2 : list byte,
         byte_sum d1 = byte_sum d2 ->
         calculateChecksum d1 = calculateChecksum d2).
Proof.
  split; intros d1 d2 H; rewrite !calculateChecksum_sum.
  - now rewrite (byte_sum_Permutation d1 d2 H).
  - now rewrite H.
Qed.

Lemma calculateChecksum_multiset_witness :
  calculateChecksum [x03; x01; x02] = calculateChecksum [x01; x02; x03]
  /\ calculateChecksum [x01; x03] = calculateChecksum [x02; x02].
Proof.
  split.
  - apply (proj1 calculateChecksum_multiset).
    exact (Permutation_cons_append [x01; x02] x03).
  - apply (proj2 calculateChecksum_multiset). reflexivity.
Defined.

(** C6, as the code has it: for every chunk size [cs > 0] and every file
    whose size [S] keeps [S + cs - 1] below [2^64] and [ceil(S/cs)] within
    the range of the [int] that holds [chunk_count], the chunk loop
    produces exactly [ceil(S/cs)] chunks, indexed [0, 1, ...] in order;
    every chunk but the last has exactly [cs] bytes, the last one has
    between 1 and [cs] bytes; and the chunks concatenated in index order
    are the file's bytes. *)
Theorem chunks_of_spec (cs : Z) (content : list byte) :
  0 < cs ->
  Z.of_nat (length content) + cs - 1 < 2 ^ 64 ->
  ceil_div (Z.of_nat (length content)) cs <= INT_MAX ->
  let chunks := chunks_of cs content in
  Z.of_nat (length chunks) = ceil_div (Z.of_nat (length content)) cs
  /\ map fst chunks = all_indices (ceil_div (Z.of_nat (length content)) cs)
  /\ sizes_ok cs (map snd chunks)
  /\ concat (map snd chunks) = content.
Proof.
  intros Hcs Hfit Hint chunks. subst chunks.
  set (len := Z.of_nat (length content)) in *.
  assert (Hc0 : 0 <= ceil_div len cs).
  { unfold ceil_div. apply Z.div_pos; lia. }
  assert (Hfs : file_size_of content = len).
  { unfold file_size_of. apply to_size_t_small. lia. }
  assert (Hit : loop_iterations cs len = Z.to_nat (ceil_div len cs)).
  { unfold loop_iterations, chunk_count_of.
    rewrite to_size_t_small by lia.
    fold (ceil_div len cs). now rewrite to_int_small by lia. }
  unfold chunks_of. rewrite Hfs, Hit.
  assert (Hrem : 0 < Z.of_nat (length content) ->
                 len = 0 * cs + Z.of_nat (length content)) by (subst len; lia).
  assert (Hn : Z.of_nat (Z.to_nat (ceil_div len cs))
               = ceil_div (Z.of_nat (length content)) cs)
    by now rewrite Z2Nat.id.
  destruct (chunk_loop_spec cs len Hcs ltac:(lia)
              (Z.to_nat (ceil_div len cs)) 0 content (Z.le_refl 0) Hrem Hn)
    as (Hidx & Hsz & Hcat).
  split; [|split; [|split]]; try assumption.
  rewrite chunk_loop_length. lia.
Qed.

Lemma chunks_of_spec_witness :
  let content := [x61; x62; x63; x64; x65; x66; x67] in
  let chunks := chunks_of 3 content in
  Z.of_nat (length chunks) = ceil_div (Z.of_nat (length content)) 3
  /\ map fst chunks = all_indices (ceil_div (Z.of_nat (length content)) 3)
  /\ sizes_ok 3 (map snd chunks)
  /\ concat (map snd chunks) = content.
Proof.
  apply (chunks_of_spec 3 [x61; x62; x63; x64; x65; x66; x67]).
  - lia.
  - vm_compute. reflexivity.
  - vm_compute. discriminate.
Defined.

(** On a file of [2^31 * CHUNK_SIZE] bytes the loop produces no chunk. *)
Lemma chunks_of_huge_file (content : list byte) :
  Z.of_nat (length content) = 2 ^ 31 * CHUNK_SIZE ->
  chunks_of CHUNK_SIZE content = [].
Proof.
  intros H. unfold chunks_of, file_size_of. rewrite H. reflexivity.
Qed.

(** C6 as stated fails where the count leaves the range of [int]: on a
    file of [2^31 * CHUNK_SIZE] bytes [chunk_count] wraps to a negative
    number and the loop body never runs, while [ceil(S/C)] is [2^31]. *)
Lemma chunk_count_overflow :
  chunk_count_of CHUNK_SIZE (2 ^ 31 * CHUNK_SIZE) = - 2 ^ 31
  /\ loop_iterations CHUNK_SIZE (2 ^ 31 * CHUNK_SIZE) = 0%nat
  /\ ceil_div (2 ^ 31 * CHUNK_SIZE) CHUNK_SIZE = 2 ^ 31.
Proof. repeat split. Qed.

(** C7: the backend of chunk [i] is [providers[i mod N]], and of the
    chunks [0 .. K-1] every backend receives [K div N] or [K div N + 1]. *)
Theorem round_robin_selection (providers : list CloudProvider) (k : nat) :
  providers <> [] ->
  Z.of_nat k <= INT_MAX ->
  let n := Z.of_nat (length providers) in
  (forall i, 0 <= i <= INT_MAX ->
     exists p, select_provider providers i = Some p
               /\ nth_error providers (Z.to_nat (i mod n)) = Some p)
  /\ (forall b, 0 <= b < n ->
        Z.of_nat (assigned_count n k b) = Z.of_nat k / n
        \/ Z.of_nat (assigned_count n k b) = Z.of_nat k / n + 1).
Proof.
  intros Hne Hk n. unfold INT_MAX in *. split.
  - intros i Hi. rewrite select_provider_nth by (assumption || lia).
    fold n.
    assert (Hn : 0 < n) by (destruct providers; [contradiction|subst n; simpl length; lia]).
    pose proof (Z.mod_pos_bound i n Hn) as Hb.
    destruct (nth_error providers (Z.to_nat (i mod n))) as [p|] eqn:Hp.
    + now exists p.
    + apply nth_error_None in Hp. subst n. lia.
  - intros b Hb. apply assigned_count_balanced; [assumption | lia].
Qed.

Lemma round_robin_selection_witness :
  (exists p, select_provider default_providers 7 = Some p
             /\ nth_error default_providers (Z.to_nat (7 mod 3)) = Some p)
  /\ (Z.of_nat (assigned_count 3 8 2) = 8 / 3
      \/ Z.of_nat (assigned_count 3 8 2) = 8 / 3 + 1).
Proof.
  assert (Hne : default_providers <> []) by discriminate.
  assert (Hk : Z.of_nat 8 <= INT_MAX) by (vm_compute; discriminate).
  pose proof (round_robin_selection default_providers 8 Hne Hk) as [Hsel Hbal].
  split.
  - apply Hsel. vm_compute. split; discriminate.
  - apply (Hbal 2). vm_compute. split; [discriminate | reflexivity].
Defined.

(* ----------------------------------------------------------------- *)
(** ** Blocks, padding and buffers *)

Lemma bits_xor_comm (x y : bits) : bits_xor x y = bits_xor y x.
Proof.
  split_bits x; split_bits y; simpl.
  repeat (apply f_equal2; [apply xorb_comm|]). apply xorb_comm.
Qed.

Lemma byte_xor_comm (a b : byte) : byte_xor a b = byte_xor b a.
Proof.
  apply to_bits_inj. rewrite !to_bits_byte_xor. apply bits_xor_comm.
Qed.

Lemma byte_xor_flip (x y m : byte) :
  byte_xor (byte_xor x y) (byte_xor y m) = byte_xor x m.
Proof.
  rewrite (byte_xor_comm y m), <- byte_xor_assoc.
  rewrite (byte_xor_assoc x y m), (byte_xor_comm y m), <- byte_xor_assoc.
  apply byte_xor_cancel_r.
Qed.

Lemma length_xor_block (a b : list byte) :
  length (xor_block a b) = Nat.min (length a) (length b).
Proof. unfold xor_block. now rewrite length_map, length_combine. Qed.

Lemma xor_block_cancel (a b : list byte) :
  length a = length b -> xor_block (xor_block a b) b = a.
Proof.
  revert b. induction a as [|x a IH]; intros [|y b] H; try discriminate.
  - reflexivity.
  - injection H as H. unfold xor_block in *. cbn [combine map fst snd].
    now rewrite byte_xor_cancel_r, IH.
Qed.

Lemma xor_block_flip (a c : list byte) (pos : nat) :
  length a = length c ->
  xor_block (xor_block a c) (flip_bit pos c) = flip_bit pos a.
Proof.
  revert c pos. induction a as [|x a IH]; intros [|y c] pos H;
    try discriminate.
  - reflexivity.
  - injection H as H. cbn [flip_bit].
    destruct (pos <? 8)%nat.
    + change (xor_block (xor_block (x :: a) (y :: c))
                        (byte_xor y (bit_mask pos) :: c))
        with (byte_xor (byte_xor x y) (byte_xor y (bit_mask pos))
              :: xor_block (xor_block a c) c).
      now rewrite byte_xor_flip, xor_block_cancel.
    + change (xor_block (xor_block (x :: a) (y :: c))
                        (y :: flip_bit (pos - 8) c))
        with (byte_xor (byte_xor x y) y
              :: xor_block (xor_block a c) (flip_bit (pos - 8) c)).
      now rewrite byte_xor_cancel_r, IH.
Qed.

Lemma length_flip_bit (pos : nat) (data : list byte) :
  length (flip_bit pos data) = length data.
Proof.
  revert pos. induction data as [|x data IH]; intros pos; cbn [flip_bit].
  - reflexivity.
  - destruct (pos <? 8)%nat; simpl; now rewrite ?IH.
Qed.

Lemma flip_bit_app_l (pos : nat) (a b : list byte) :
  (pos < 8 * length a)%nat ->
  flip_bit pos (a ++ b) = flip_bit pos a ++ b.
Proof.
  revert pos. induction a as [|x a IH]; intros pos H.
  - simpl in H. lia.
  - cbn [flip_bit app]. destruct (Nat.ltb_spec pos 8).
    + reflexivity.
    + rewrite IH; [reflexivity|]. simpl length in H. lia.
Qed.

Lemma flip_bit_app_r (pos : nat) (a b : list byte) :
  flip_bit (8 * length a + pos) (a ++ b) = a ++ flip_bit pos b.
Proof.
  induction a as [|x a IH].
  - reflexivity.
  - cbn [flip_bit app]. destruct (Nat.ltb_spec (8 * length (x :: a) + pos) 8).
    + simpl length in *. lia.
    + f_equal. rewrite <- IH. f_equal. simpl length. lia.
Qed.

Lemma bit_mask_nonzero (k : nat) : (k < 8)%nat -> bit_mask k <> x00.
Proof.
  intros H. do 8 (destruct k as [|k]; [discriminate|]). lia.
Qed.

Lemma flip_bit_changes (pos : nat) (data : list byte) :
  (pos < 8 * length data)%nat -> flip_bit pos data <> data.
Proof.
  revert pos. induction data as [|x data IH]; intros pos H.
  - simpl in H. lia.
  - cbn [flip_bit]. destruct (Nat.ltb_spec pos 8) as [Hlt|Hge].
    + intros Heq. injection Heq as Heq.
      apply byte_xor_fixed in Heq. now apply (bit_mask_nonzero pos).
    + intros Heq. injection Heq as Heq. revert Heq. apply IH.
      simpl length in H. lia.
Qed.

Lemma nat_of_byte_of_nat (n : nat) :
  (n <= 16)%nat -> nat_of_byte (byte_of_nat n) = n.
Proof.
  intros H. do 17 (destruct n as [|n]; [reflexivity|]). lia.
Qed.

Lemma last_repeat (b : byte) (n : nat) (l : list byte) :
  (0 < n)%nat -> last (l ++ repeat b n) x00 = b.
Proof.
  intros H. destruct n as [|n]; [lia|].
  change (repeat b (S n)) with (b :: repeat b n).
  rewrite repeat_cons, app_assoc. apply last_last.
Qed.

Lemma firstn_app_exact (a b : list byte) : firstn (length a) (a ++ b) = a.
Proof.
  rewrite firstn_app, Nat.sub_diag, firstn_all. cbn [firstn].
  apply app_nil_r.
Qed.

Lemma skipn_app_exact (a b : list byte) : skipn (length a) (a ++ b) = b.
Proof.
  rewrite skipn_app, Nat.sub_diag, skipn_all. reflexivity.
Qed.

Lemma length_pkcs7_pad (buf : list byte) :
  (length buf < AES_BLOCK_SIZE)%nat ->
  length (pkcs7_pad buf) = AES_BLOCK_SIZE.
Proof.
  intros H. unfold pkcs7_pad. rewrite length_app, repeat_length. lia.
Qed.

Lemma pkcs7_unpad_pad (buf : list byte) :
  (length buf < AES_BLOCK_SIZE)%nat ->
  pkcs7_unpad (pkcs7_pad buf) = Some buf.
Proof.
  intros H. unfold pkcs7_unpad, pkcs7_pad.
  set (n := (AES_BLOCK_SIZE - length buf)%nat).
  assert (Hn : (0 < n <= 16)%nat) by (unfold AES_BLOCK_SIZE in *; lia).
  rewrite last_repeat by lia.
  rewrite nat_of_byte_of_nat by lia.
  destruct (Nat.eqb_spec n 0); [lia|].
  destruct (Nat.ltb_spec AES_BLOCK_SIZE n);
    [unfold AES_BLOCK_SIZE in *; lia|].
  cbn [orb].
  replace (AES_BLOCK_SIZE - n)%nat with (length buf) by lia.
  rewrite skipn_app_exact, firstn_app_exact.
  assert (Hall : forallb (fun x => (nat_of_byte x =? n)%nat)
                         (repeat (byte_of_nat n) n) = true).
  { apply forallb_forall. intros x Hx. apply repeat_spec in Hx. subst x.
    rewrite nat_of_byte_of_nat by lia. apply Nat.eqb_refl. }
  now rewrite Hall.
Qed.

Lemma pkcs7_unpad_length (f out : list byte) :
  pkcs7_unpad f = Some out -> (length out <= AES_BLOCK_SIZE)%nat.
Proof.
  unfold pkcs7_unpad. generalize (nat_of_byte (last f x00)). intros n.
  destruct (_ || _)%bool; [discriminate|].
  destruct (forallb _ _); [|discriminate].
  intros [= <-]. rewrite length_firstn.
  apply Nat.le_trans with (AES_BLOCK_SIZE - n)%nat;
    [apply Nat.le_min_l | apply Nat.le_sub_l].
Qed.

Lemma buffer_result (n : nat) (out1 out2 : list byte) :
  resize (length out1 + length out2)
         (store (store (vector_new n) 0 out1) (length out1) out2)
  = out1 ++ out2.
Proof.
  unfold resize, store. cbn [firstn app].
  rewrite (firstn_app_exact out1).
  set (tail := skipn _ (out1 ++ _)).
  rewrite (app_assoc out1 out2 tail), <- length_app.
  rewrite (firstn_app_exact (out1 ++ out2)).
  rewrite (length_app (out1 ++ out2) tail).
  replace (length (out1 ++ out2) - (length (out1 ++ out2) + length tail))%nat
    with 0%nat by lia.
  cbn [repeat]. apply app_nil_r.
Qed.

(* ----------------------------------------------------------------- *)
(** ** CBC mode *)

Section CBC.
Context {cipher : BlockCipher}.

Lemma encrypt_bytes_partial (k chain buf data : list byte) :
  (length buf + length data < AES_BLOCK_SIZE)%nat ->
  encrypt_bytes k chain buf data = ([], (chain, buf ++ data)).
Proof.
  revert buf. induction data as [|x data IH]; intros buf H.
  - now rewrite app_nil_r.
  - cbn [encrypt_bytes]. simpl length in H.
    destruct (Nat.eqb_spec (length (buf ++ [x])) AES_BLOCK_SIZE) as [E|_].
    + rewrite length_app in E. simpl in E. lia.
    + rewrite IH by (rewrite length_app; simpl; lia).
      now rewrite <- app_assoc.
Qed.

Lemma encrypt_bytes_block (k chain buf b rest : list byte) :
  b <> [] ->
  (length buf + length b = AES_BLOCK_SIZE)%nat ->
  encrypt_bytes k chain buf (b ++ rest)
  = (E k (xor_block (buf ++ b) chain)
       ++ fst (encrypt_bytes k (E k (xor_block (buf ++ b) chain)) [] rest),
     snd (encrypt_bytes k (E k (xor_block (buf ++ b) chain)) [] rest)).
Proof.
  revert buf. induction b as [|x b IH]; intros buf Hne H; [contradiction|].
  cbn [encrypt_bytes app]. simpl length in H.
  destruct (Nat.eqb_spec (length (buf ++ [x])) AES_BLOCK_SIZE) as [E|N].
  - rewrite length_app in E. simpl in E.
    destruct b; [|simpl in H; lia]. cbn [app].
    now destruct (encrypt_bytes k _ [] rest).
  - rewrite length_app in N. simpl in N.
    destruct b as [|y b]; [simpl in H; lia|].
    rewrite IH; [|discriminate|rewrite length_app; simpl in *; lia].
    now rewrite <- !app_assoc.
Qed.

Lemma decrypt_bytes_partial (k chain buf data : list byte) :
  (length buf + length data < AES_BLOCK_SIZE)%nat ->
  decrypt_bytes k chain buf data = ([], (chain, buf ++ data)).
Proof.
  revert buf. induction data as [|x data IH]; intros buf H.
  - now rewrite app_nil_r.
  - cbn [decrypt_bytes]. simpl length in H.
    destruct (Nat.eqb_spec (length (buf ++ [x])) AES_BLOCK_SIZE) as [E|_].
    + rewrite length_app in E. simpl in E. lia.
    + rewrite IH by (rewrite length_app; simpl; lia).
      now rewrite <- app_assoc.
Qed.

Lemma decrypt_bytes_block (k chain buf c rest : list byte) :
  c <> [] ->
  (length buf + length c = AES_BLOCK_SIZE)%nat ->
  decrypt_bytes k chain buf (c ++ rest)
  = (xor_block (D k (buf ++ c)) chain
       :: fst (decrypt_bytes k (buf ++ c) [] rest),
     snd (decrypt_bytes k (buf ++ c) [] rest)).
Proof.
  revert buf. induction c as [|x c IH]; intros buf Hne H; [contradiction|].
  cbn [decrypt_bytes app]. simpl length in H.
  destruct (Nat.eqb_spec (length (buf ++ [x])) AES_BLOCK_SIZE) as [E|N].
  - rewrite length_app in E. simpl in E.
    destruct c; [|simpl in H; lia]. cbn [app].
    now destruct (decrypt_bytes k _ [] rest).
  - rewrite length_app in N. simpl in N.
    destruct c as [|y c]; [simpl in H; lia|].
    rewrite IH; [|discriminate|rewrite length_app; simpl in *; lia].
    now rewrite <- !app_assoc.
Qed.



Lemma cbc_ciphertext_short (k chain P : list byte) :
  (length P < AES_BLOCK_SIZE)%nat ->
  cbc_ciphertext k chain P = E k (xor_block (pkcs7_pad P) chain).
Proof.
  intros H. unfold cbc_ciphertext.
  now rewrite encrypt_bytes_partial by (simpl; lia).
Qed.

Lemma cbc_ciphertext_block (k chain b rest : list byte) :
  length b = AES_BLOCK_SIZE ->
  cbc_ciphertext k chain (b ++ rest)
  = E k (xor_block b chain)
      ++ cbc_ciphertext k (E k (xor_block b chain)) rest.
Proof.
  intros H. unfold cbc_ciphertext.
  rewrite (encrypt_bytes_block k chain [] b rest);
    [|intros ->; discriminate|assumption].
  cbn [fst snd app]. now rewrite <- app_assoc.
Qed.

(** Splitting off the first block of a long enough vector. *)
Lemma split_block (P : list byte) :
  (AES_BLOCK_SIZE <= length P)%nat ->
  P = firstn AES_BLOCK_SIZE P ++ skipn AES_BLOCK_SIZE P
  /\ length (firstn AES_BLOCK_SIZE P) = AES_BLOCK_SIZE
  /\ length (skipn AES_BLOCK_SIZE P) = (length P - AES_BLOCK_SIZE)%nat.
Proof.
  intros H. rewrite firstn_skipn, length_firstn, length_skipn.
  repeat split; lia.
Qed.

(** Decrypting a ciphertext gives back the plaintext blocks and, last,
    the padded partial block. *)
Lemma cbc_round_trip (k : list byte) (n : nat) :
  forall (P chain : list byte),
    (length P <= n)%nat ->
    length chain = AES_BLOCK_SIZE ->
    exists (bs : list (list byte)) (buf c : list byte),
      decrypt_bytes k chain [] (cbc_ciphertext k chain P)
      = (bs ++ [pkcs7_pad buf], (c, []))
      /\ concat bs ++ buf = P
      /\ (length buf < AES_BLOCK_SIZE)%nat
      /\ length (cbc_ciphertext k chain P)
         = (length (concat bs) + AES_BLOCK_SIZE)%nat.
Proof.
  induction n as [n IH] using lt_wf_ind. intros P chain Hn Hchain.
  destruct (Nat.lt_ge_cases (length P) AES_BLOCK_SIZE) as [Hshort|Hlong].
  - exists [], P, (E k (xor_block (pkcs7_pad P) chain)).
    rewrite cbc_ciphertext_short by assumption.
    assert (Hx : length (xor_block (pkcs7_pad P) chain) = AES_BLOCK_SIZE).
    { rewrite length_xor_block, length_pkcs7_pad, Hchain by assumption.
      apply Nat.min_id. }
    pose proof (E_length k _ Hx) as HE.
    rewrite <- (app_nil_r (E k _)) at 1.
    rewrite decrypt_bytes_block;
      [|intros Hnil; rewrite Hnil in HE; discriminate|assumption].
    cbn [app decrypt_bytes fst snd concat].
    rewrite D_E by assumption.
    rewrite xor_block_cancel
      by (now rewrite length_pkcs7_pad, Hchain).
    repeat split; assumption.
  - destruct (split_block P Hlong) as (HP & Hb & Hrest).
    set (b := firstn AES_BLOCK_SIZE P) in *.
    set (rest := skipn AES_BLOCK_SIZE P) in *.
    assert (Hx : length (xor_block b chain) = AES_BLOCK_SIZE).
    { rewrite length_xor_block, Hb, Hchain. apply Nat.min_id. }
    pose proof (E_length k _ Hx) as HE.
    set (c0 := E k (xor_block b chain)) in *.
    destruct (IH (length rest)) with (P := rest) (chain := c0)
      as (bs & buf & c & Hdec & Hcat & Hbuf & Hlen);
      [unfold AES_BLOCK_SIZE in *; lia | lia | assumption |].
    exists (b :: bs), buf, c.
    rewrite HP at 1 3. rewrite cbc_ciphertext_block by assumption.
    fold c0.
    rewrite decrypt_bytes_block;
      [|intros Hnil; rewrite Hnil in HE; discriminate|assumption].
    cbn [app]. rewrite Hdec. cbn [fst snd].
    unfold c0 at 1. rewrite D_E by assumption.
    rewrite xor_block_cancel by (now rewrite Hb, Hchain).
    repeat split.
    + cbn [concat]. rewrite <- app_assoc, Hcat. symmetry. exact HP.
    + assumption.
    + rewrite length_app, Hlen, HE. cbn [concat].
      rewrite !length_app, Hb. lia.
Qed.
End CBC.

(* ----------------------------------------------------------------- *)
(** ** [Encryption::encrypt] and [Encryption::decrypt] *)

Section EncryptDecrypt.
Context {cipher : BlockCipher}.

Lemma encrypt_bytes_state (k : list byte) (n : nat) :
  forall (P chain : list byte),
    (length P <= n)%nat ->
    length chain = AES_BLOCK_SIZE ->
    length (fst (snd (encrypt_bytes k chain [] P))) = AES_BLOCK_SIZE
    /\ (length (snd (snd (encrypt_bytes k chain [] P))) < AES_BLOCK_SIZE)%nat
    /\ (length (fst (encrypt_bytes k chain [] P))
        + length (snd (snd (encrypt_bytes k chain [] P))))%nat = length P.
Proof.
  induction n as [n IH] using lt_wf_ind. intros P chain Hn Hchain.
  destruct (Nat.lt_ge_cases (length P) AES_BLOCK_SIZE) as [Hshort|Hlong].
  - rewrite encrypt_bytes_partial by (simpl; lia). cbn [fst snd app length].
    repeat split; assumption.
  - destruct (split_block P Hlong) as (HP & Hb & Hrest).
    set (b := firstn AES_BLOCK_SIZE P) in *.
    set (rest := skipn AES_BLOCK_SIZE P) in *.
    assert (Hx : length (xor_block b chain) = AES_BLOCK_SIZE).
    { rewrite length_xor_block, Hb, Hchain. apply Nat.min_id. }
    pose proof (E_length k _ Hx) as HE.
    destruct (IH (length rest)) with (P := rest)
                                     (chain := E k (xor_block b chain))
      as (H1 & H2 & H3);
      [unfold AES_BLOCK_SIZE in *; lia | lia | assumption |].
    rewrite HP.
    rewrite (encrypt_bytes_block k chain [] b rest);
      [|intros Hnil; rewrite Hnil in Hb; discriminate|assumption].
    cbn [fst snd app]. rewrite !length_app, HE, Hb.
    repeat split; try assumption. lia.
Qed.

Lemma EVP_EncryptUpdate_all (k i P : list byte) :
  EVP_EncryptUpdate (EVP_EncryptInit_ex k i) P (Z.of_nat (length P))
  = (mkCtx k (fst (snd (encrypt_bytes k i [] P)))
           (snd (snd (encrypt_bytes k i [] P))) None,
     fst (encrypt_bytes k i [] P)).
Proof.
  unfold EVP_EncryptUpdate, EVP_EncryptInit_ex. cbn [ctx_key ctx_iv ctx_buf].
  destruct (Z.leb_spec (Z.of_nat (length P)) 0) as [H0|Hpos].
  - destruct P; [reflexivity | simpl length in H0; lia].
  - rewrite Nat2Z.id, firstn_all.
    now destruct (encrypt_bytes k i [] P) as [out [chain buf]].
Qed.

Lemma encrypt_cbc (enc : Encryption) (P : list byte) :
  valid_Encryption enc ->
  Z.of_nat (length P) + Z.of_nat AES_BLOCK_SIZE <= INT_MAX ->
  encrypt enc P = cbc_ciphertext (key enc) (iv enc) P.
Proof.
  intros [_ Hiv] Hint. unfold encrypt.
  rewrite to_int_small by lia.
  rewrite EVP_EncryptUpdate_all.
  destruct (encrypt_bytes_state (key enc) (length P) P (iv enc)
              (Nat.le_refl _) Hiv) as (Hchain & Hbuf & Hlen).
  unfold cbc_ciphertext, EVP_EncryptFinal_ex. cbn [ctx_key ctx_iv ctx_buf].
  set (out1 := fst (encrypt_bytes (key enc) (iv enc) [] P)) in *.
  set (st := snd (encrypt_bytes (key enc) (iv enc) [] P)) in *.
  set (out2 := E (key enc) (xor_block (pkcs7_pad (snd st)) (fst st))).
  assert (Hout2 : length out2 = AES_BLOCK_SIZE).
  { apply E_length.
    rewrite length_xor_block, length_pkcs7_pad, Hchain by assumption.
    apply Nat.min_id. }
  rewrite Nat2Z.id.
  rewrite to_int_small by (unfold AES_BLOCK_SIZE in *; lia).
  rewrite to_size_t_small
    by (unfold INT_MAX, AES_BLOCK_SIZE in *; lia).
  rewrite <- Nat2Z.inj_add, Nat2Z.id.
  apply buffer_result.
Qed.

Lemma EVP_DecryptUpdate_all (k i C : list byte) (bs : list (list byte))
  (f c : list byte) :
  C <> [] ->
  decrypt_bytes k i [] C = (bs ++ [f], (c, [])) ->
  EVP_DecryptUpdate (EVP_DecryptInit_ex k i) C (Z.of_nat (length C))
  = (mkCtx k c [] (Some f), concat bs).
Proof.
  intros Hne Hdec.
  unfold EVP_DecryptUpdate, EVP_DecryptInit_ex.
  cbn [ctx_key ctx_iv ctx_buf ctx_final].
  destruct (Z.leb_spec (Z.of_nat (length C)) 0) as [H0|Hpos].
  - destruct C; [contradiction | simpl length in H0; lia].
  - rewrite Nat2Z.id, firstn_all, Hdec.
    destruct (bs ++ [f]) as [|x l] eqn:El.
    + apply app_eq_nil in El. destruct El; discriminate.
    + rewrite <- El. now rewrite last_last, removelast_last.
Qed.

(** What [decrypt] returns on a ciphertext that splits into whole blocks. *)
Lemma decrypt_run_blocks (enc : Encryption) (C : list byte)
  (bs : list (list byte)) (f c : list byte) :
  C <> [] ->
  Z.of_nat (length C) <= INT_MAX ->
  Z.of_nat (length (concat bs)) + Z.of_nat AES_BLOCK_SIZE <= INT_MAX ->
  decrypt_bytes (key enc) (iv enc) [] C = (bs ++ [f], (c, [])) ->
  decrypt_run enc C
  = match pkcs7_unpad f with
    | Some out => (true, concat bs ++ out)
    | None => (false, concat bs)
    end.
Proof.
  intros Hne HC Hbs Hdec. unfold decrypt_run.
  rewrite to_int_small by lia.
  rewrite (EVP_DecryptUpdate_all _ _ _ bs f c Hne Hdec).
  unfold EVP_DecryptFinal_ex. cbn [ctx_buf ctx_final].
  rewrite Nat2Z.id.
  assert (Hout : forall out, (length out <= AES_BLOCK_SIZE)%nat ->
    resize
      (Z.to_nat (to_size_t (to_int (Z.of_nat (length (concat bs))
                                    + Z.of_nat (length out)))))
      (store (store (vector_new (length C)) 0 (concat bs))
             (length (concat bs)) out)
    = concat bs ++ out).
  { intros out Hlen.
    rewrite to_int_small by lia.
    rewrite to_size_t_small by (unfold INT_MAX in *; lia).
    rewrite <- Nat2Z.inj_add, Nat2Z.id. apply buffer_result. }
  destruct (pkcs7_unpad f) as [out|] eqn:Hf.
  - rewrite Hout; [reflexivity|]. now apply pkcs7_unpad_length with f.
  - rewrite Hout by (simpl; lia). now rewrite app_nil_r.
Qed.

Lemma cbc_ciphertext_nonempty (k chain P : list byte) :
  length chain = AES_BLOCK_SIZE -> cbc_ciphertext k chain P <> [].
Proof.
  intros Hchain Hnil.
  destruct (cbc_round_trip k (length P) P chain (Nat.le_refl _) Hchain)
    as (bs & buf & c & _ & _ & _ & Hlen).
  rewrite Hnil in Hlen. simpl in Hlen. unfold AES_BLOCK_SIZE in Hlen. lia.
Qed.
End EncryptDecrypt.

(* ----------------------------------------------------------------- *)
(** ** The small cipher is a block cipher *)

Lemma demo_E_length (k b : list byte) :
  length b = AES_BLOCK_SIZE -> length (demo_E k b) = AES_BLOCK_SIZE.
Proof. intros H. unfold demo_E. now rewrite length_map, length_rev. Qed.

Lemma demo_D_length (k c : list byte) :
  length c = AES_BLOCK_SIZE -> length (demo_D k c) = AES_BLOCK_SIZE.
Proof. intros H. unfold demo_D. now rewrite length_rev, length_map. Qed.

Lemma demo_D_E (k b : list byte) :
  length b = AES_BLOCK_SIZE -> demo_D k (demo_E k b) = b.
Proof.
  intros _. unfold demo_D, demo_E. rewrite map_map.
  rewrite (map_ext _ (fun x => x)) by (intros; apply byte_xor_cancel_r).
  rewrite map_id. apply rev_involutive.
Qed.

Definition demo_cipher : BlockCipher :=
  Build_BlockCipher demo_E demo_D demo_E_length demo_D_length demo_D_E.

(* ----------------------------------------------------------------- *)
(** ** Claims on the cipher engine *)

(** C5: decrypting what [encrypt] produced gives back the plaintext, for
    every key and IV of the declared sizes and every plaintext whose
    length fits the [int] the EVP calls take (every chunk does: a chunk
    has at most [CHUNK_SIZE] bytes); the same holds for the ciphertext
    the loop body stores in the task of any chunk index [i]. *)
Theorem encrypt_decrypt_round_trip {cipher : BlockCipher}
  (enc : Encryption) (P : list byte) :
  valid_Encryption enc ->
  Z.of_nat (length P) + Z.of_nat AES_BLOCK_SIZE <= INT_MAX ->
  decrypt enc (encrypt enc P) = P
  /\ forall (fid fsize count : Z) (p : CloudProvider) (i size : Z),
       decrypt enc
         (t_encrypted (make_task (mkRun enc fid fsize count) p i size P)) = P.
Proof.
  intros Hvalid Hint.
  assert (Hrt : decrypt enc (encrypt enc P) = P).
  { rewrite encrypt_cbc by assumption.
    destruct Hvalid as [Hkey Hiv].
    destruct (cbc_round_trip (key enc) (length P) P (iv enc)
                (Nat.le_refl _) Hiv)
      as (bs & buf & c & Hdec & Hcat & Hbuf & Hlen).
    assert (Hbs : (length (concat bs) <= length P)%nat).
    { rewrite <- Hcat, length_app. lia. }
    unfold decrypt.
    rewrite (decrypt_run_blocks enc _ bs (pkcs7_pad buf) c);
      [ | now apply cbc_ciphertext_nonempty | rewrite Hlen; lia | lia
        | assumption ].
    rewrite pkcs7_unpad_pad by assumption. exact Hcat. }
  split; [exact Hrt | intros; exact Hrt].
Qed.

Lemma encrypt_decrypt_round_trip_witness :
  valid_Encryption demo_enc
  /\ @decrypt demo_cipher demo_enc (@encrypt demo_cipher demo_enc demo_payload)
     = demo_payload.
Proof.
  assert (Hv : valid_Encryption demo_enc) by (split; reflexivity).
  split; [exact Hv|].
  apply (@encrypt_decrypt_round_trip demo_cipher demo_enc demo_payload Hv).
  vm_compute. discriminate.
Defined.

(** C3, as the code has it: the ciphertext of a chunk does not depend on
    its index. Every chunk of a file is encrypted under the file's one key
    and one IV, so two chunks with the same plaintext get the same
    ciphertext whatever their indices, and the first cipher block of any
    chunk is the block cipher applied to its first 16 bytes XOR that IV. *)
Theorem chunk_ciphertext_ignores_index {cipher : BlockCipher}
  (run : Run) (B rest : list byte) :
  valid_Encryption (run_enc run) ->
  length B = AES_BLOCK_SIZE ->
  Z.of_nat (length (B ++ rest)) + Z.of_nat AES_BLOCK_SIZE <= INT_MAX ->
  forall (p_i p_j : CloudProvider) (i j size_i size_j : Z),
    t_encrypted (make_task run p_i i size_i (B ++ rest))
    = t_encrypted (make_task run p_j j size_j (B ++ rest))
    /\ firstn AES_BLOCK_SIZE
              (t_encrypted (make_task run p_i i size_i (B ++ rest)))
       = E (key (run_enc run)) (xor_block B (iv (run_enc run))).
Proof.
  intros Hvalid HB Hint p_i p_j i j size_i size_j.
  split; [reflexivity|].
  cbn [make_task t_encrypted].
  rewrite encrypt_cbc by assumption.
  rewrite cbc_ciphertext_block by assumption.
  destruct Hvalid as [_ Hiv].
  assert (HE : length (E (key (run_enc run))
                         (xor_block B (iv (run_enc run)))) = AES_BLOCK_SIZE).
  { apply E_length. rewrite length_xor_block, HB, Hiv. apply Nat.min_id. }
  rewrite <- HE at 1. apply firstn_app_exact.
Qed.

Lemma chunk_ciphertext_ignores_index_witness :
  t_encrypted (@make_task demo_cipher demo_run
                 (mkCloudProvider "GoogleDrive" "./backup/gdrive")
                 0 40 demo_payload)
  = t_encrypted (@make_task demo_cipher demo_run
                   (mkCloudProvider "Dropbox" "./backup/dropbox")
                   1 40 demo_payload)
  /\ firstn AES_BLOCK_SIZE
            (t_encrypted (@make_task demo_cipher demo_run
                            (mkCloudProvider "GoogleDrive" "./backup/gdrive")
                            0 40 demo_payload))
     = demo_E (key demo_enc)
              (xor_block (firstn 16 demo_payload) (iv demo_enc)).
Proof.
  apply (@chunk_ciphertext_ignores_index demo_cipher demo_run
           (firstn 16 demo_payload) (skipn 16 demo_payload)).
  - split; reflexivity.
  - reflexivity.
  - vm_compute. discriminate.
Defined.

(** C3 as stated fails: the loop body gives chunks 0 and 1 of one file the
    same ciphertext when their 40-byte plaintexts are the same; and with a
    chunk size of 4, the two chunks of the 8-byte file [abcdabcd] are
    queued with one and the same ciphertext. *)
Lemma same_ciphertext_for_two_indices :
  t_encrypted (@make_task demo_cipher demo_run
                 (mkCloudProvider "GoogleDrive" "./backup/gdrive")
                 0 40 demo_payload)
  = t_encrypted (@make_task demo_cipher demo_run
                   (mkCloudProvider "Dropbox" "./backup/dropbox")
                   1 40 demo_payload)
  /\ (let st :=
        @exec demo_cipher 4 [MainStep; MainStep; MainStep]
          (backupFile
             (mkInput "a.bin" (Some [x61; x62; x63; x64; x61; x62; x63; x64])
                      (repeat x5a 32) (map byte_of_nat (seq 1 16))
                      "2024-01-01 00:00:00")
             empty_db no_files) in
      map t_i (upload_queue (sys st)) = [0; 1]
      /\ map t_encrypted (upload_queue (sys st))
         = [ [x46; x59; x58; x5b; x5a; x5d; x5c; x5f;
              x5e; x51; x50; x53; x3a; x3a; x3a; x3a];
             [x46; x59; x58; x5b; x5a; x5d; x5c; x5f;
              x5e; x51; x50; x53; x3a; x3a; x3a; x3a] ]).
Proof. split; [reflexivity | split; vm_compute; reflexivity]. Qed.

Lemma skipn_block_app (X Y : list byte) :
  length X = AES_BLOCK_SIZE -> skipn AES_BLOCK_SIZE (X ++ Y) = Y.
Proof. intros <-. apply skipn_app_exact. Qed.

(** Decrypting after a bit of the first cipher block was flipped: the
    first plaintext block is garbage, the second has that bit flipped, the
    rest and the padding are untouched. *)
Lemma decrypt_run_tampered {cipher : BlockCipher}
  (enc : Encryption) (b0 b1 rest : list byte) (pos : nat) :
  valid_Encryption enc ->
  length b0 = AES_BLOCK_SIZE ->
  length b1 = AES_BLOCK_SIZE ->
  Z.of_nat (length (b0 ++ b1 ++ rest)) + Z.of_nat AES_BLOCK_SIZE <= INT_MAX ->
  (pos < 8 * AES_BLOCK_SIZE)%nat ->
  exists X : list byte,
    length X = AES_BLOCK_SIZE
    /\ decrypt_run enc (flip_bit pos (encrypt enc (b0 ++ b1 ++ rest)))
       = (true, X ++ flip_bit pos b1 ++ rest).
Proof.
  intros Hvalid Hb0 Hb1 Hint Hpos.
  pose proof Hvalid as [_ Hiv].
  rewrite encrypt_cbc by assumption.
  rewrite !cbc_ciphertext_block by assumption.
  set (k := key enc) in *.
  set (c0 := E k (xor_block b0 (iv enc))).
  set (c1 := E k (xor_block b1 c0)).
  assert (Hc0 : length c0 = AES_BLOCK_SIZE).
  { apply E_length. rewrite length_xor_block, Hb0, Hiv. apply Nat.min_id. }
  assert (Hc1 : length c1 = AES_BLOCK_SIZE).
  { apply E_length. rewrite length_xor_block, Hb1, Hc0. apply Nat.min_id. }
  rewrite flip_bit_app_l by (rewrite Hc0; assumption).
  set (c0' := flip_bit pos c0).
  assert (Hc0' : length c0' = AES_BLOCK_SIZE)
    by (unfold c0'; now rewrite length_flip_bit).
  destruct (cbc_round_trip k (length rest) rest c1 (Nat.le_refl _) Hc1)
    as (bs & buf & c & Hdec & Hcat & Hbuf & Hlen).
  set (X := xor_block (D k c0') (iv enc)).
  assert (HX : length X = AES_BLOCK_SIZE).
  { unfold X. rewrite length_xor_block, D_length, Hiv by assumption.
    apply Nat.min_id. }
  assert (HY : xor_block (D k c1) c0' = flip_bit pos b1).
  { unfold c1, c0'.
    rewrite D_E by (rewrite length_xor_block, Hb1, Hc0; apply Nat.min_id).
    apply xor_block_flip. now rewrite Hb1, Hc0. }
  assert (Hblocks :
    decrypt_bytes k (iv enc) [] (c0' ++ c1 ++ cbc_ciphertext k c1 rest)
    = ((X :: flip_bit pos b1 :: bs) ++ [pkcs7_pad buf], (c, []))).
  { rewrite decrypt_bytes_block;
      [|intros Hnil; rewrite Hnil in Hc0'; discriminate|assumption].
    cbn [app].
    rewrite decrypt_bytes_block;
      [|intros Hnil; rewrite Hnil in Hc1; discriminate|assumption].
    cbn [app fst snd]. rewrite Hdec. cbn [fst snd].
    now rewrite HY. }
  assert (Hrest : (length (concat bs) <= length rest)%nat).
  { rewrite <- Hcat, length_app. lia. }
  rewrite !length_app, Hb0, Hb1 in Hint.
  exists X. split; [assumption|].
  rewrite (decrypt_run_blocks enc _ (X :: flip_bit pos b1 :: bs)
                              (pkcs7_pad buf) c).
  - rewrite pkcs7_unpad_pad by assumption.
    cbn [concat]. now rewrite <- !app_assoc, Hcat.
  - intros Hnil. apply (f_equal (@length byte)) in Hnil.
    rewrite length_app, Hc0' in Hnil. discriminate.
  - rewrite !length_app, Hc0', Hc1, Hlen. lia.
  - cbn [concat]. rewrite !length_app, HX, length_flip_bit, Hb1. lia.
  - exact Hblocks.
Qed.

(** C4, as the code has it: [decrypt] has no failure result, it returns a
    byte vector for every input, and CBC carries no authentication tag.
    After any single bit of the first ciphertext block is flipped (the
    plaintext having at least two blocks), the padding check that
    [EVP_DecryptFinal_ex] makes still succeeds and [decrypt] returns a
    plaintext of the original length that differs from the original: from
    byte 16 on it is the original with the same bit of the second block
    flipped. *)
Theorem tampered_first_block_undetected {cipher : BlockCipher}
  (enc : Encryption) (P : list byte) (pos : nat) :
  valid_Encryption enc ->
  (2 * AES_BLOCK_SIZE <= length P)%nat ->
  Z.of_nat (length P) + Z.of_nat AES_BLOCK_SIZE <= INT_MAX ->
  (pos < 8 * AES_BLOCK_SIZE)%nat ->
  let tampered := flip_bit pos (encrypt enc P) in
  fst (decrypt_run enc tampered) = true
  /\ length (decrypt enc tampered) = length P
  /\ decrypt enc tampered <> P
  /\ skipn AES_BLOCK_SIZE (decrypt enc tampered)
     = skipn AES_BLOCK_SIZE (flip_bit (8 * AES_BLOCK_SIZE + pos) P).
Proof.
  intros Hvalid Hlong Hint Hpos tampered. subst tampered.
  destruct (split_block P) as (HP & Hb0 & Hr0); [lia|].
  set (b0 := firstn AES_BLOCK_SIZE P) in *.
  destruct (split_block (skipn AES_BLOCK_SIZE P)) as (HP1 & Hb1 & Hr1);
    [lia|].
  set (b1 := firstn AES_BLOCK_SIZE (skipn AES_BLOCK_SIZE P)) in *.
  set (rest := skipn AES_BLOCK_SIZE (skipn AES_BLOCK_SIZE P)) in *.
  assert (HPeq : P = b0 ++ b1 ++ rest) by (now rewrite <- HP1).
  clearbody b0 b1 rest. subst P.
  destruct (decrypt_run_tampered enc b0 b1 rest pos Hvalid Hb0 Hb1 Hint Hpos)
    as (X & HX & Hrun).
  unfold decrypt. rewrite Hrun. cbn [fst snd].
  assert (Hflip : skipn AES_BLOCK_SIZE
                        (flip_bit (8 * AES_BLOCK_SIZE + pos)
                                  (b0 ++ b1 ++ rest))
                  = flip_bit pos b1 ++ rest).
  { rewrite <- Hb0 at 2. rewrite flip_bit_app_r.
    rewrite skipn_block_app by assumption.
    apply flip_bit_app_l. now rewrite Hb1. }
  split; [reflexivity|]. split; [|split].
  - rewrite !length_app, length_flip_bit. lia.
  - intros Heq. apply (f_equal (skipn AES_BLOCK_SIZE)) in Heq.
    rewrite !skipn_block_app in Heq by assumption.
    apply app_inv_tail in Heq.
    revert Heq. apply flip_bit_changes. now rewrite Hb1.
  - rewrite Hflip. now apply skipn_block_app.
Qed.

Lemma tampered_first_block_undetected_witness :
  let tampered := flip_bit 3 (@encrypt demo_cipher demo_enc demo_payload) in
  fst (@decrypt_run demo_cipher demo_enc tampered) = true
  /\ length (@decrypt demo_cipher demo_enc tampered) = length demo_payload
  /\ (@decrypt demo_cipher demo_enc tampered = demo_payload -> False)
  /\ skipn AES_BLOCK_SIZE (@decrypt demo_cipher demo_enc tampered)
     = skipn AES_BLOCK_SIZE (flip_bit (8 * AES_BLOCK_SIZE + 3) demo_payload).
Proof.
  apply (@tampered_first_block_undetected demo_cipher demo_enc demo_payload 3).
  - split; reflexivity.
  - vm_compute. lia.
  - vm_compute. discriminate.
  - vm_compute. lia.
Defined.

(** C4 as stated fails: with bit 0 of a stored ciphertext flipped,
    [decrypt] reports nothing ([EVP_DecryptFinal_ex] even returns 1) and
    hands back 40 bytes that are not the plaintext: bytes 15 and 16 are
    changed. *)
Lemma tampered_ciphertext_decrypts :
  @decrypt_run demo_cipher demo_enc
     (flip_bit 0 (@encrypt demo_cipher demo_enc demo_payload))
  = (true,
     [x41; x42; x43; x44; x45; x46; x47; x48;
      x49; x4a; x4b; x4c; x4d; x4e; x4f; x51;
      x50; x52; x53; x54; x55; x56; x57; x58;
      x59; x5a; x5b; x5c; x5d; x5e; x5f; x60;
      x61; x62; x63; x64; x65; x66; x67; x68])
  /\ demo_payload
     = [x41; x42; x43; x44; x45; x46; x47; x48;
        x49; x4a; x4b; x4c; x4d; x4e; x4f; x50;
        x51; x52; x53; x54; x55; x56; x57; x58;
        x59; x5a; x5b; x5c; x5d; x5e; x5f; x60;
        x61; x62; x63; x64; x65; x66; x67; x68]
  /\ @decrypt demo_cipher demo_enc
       (flip_bit 0 (@encrypt demo_cipher demo_enc demo_payload))
     <> demo_payload.
Proof.
  split; [vm_compute; reflexivity|]. split; [vm_compute; reflexivity|].
  intros H. vm_compute in H. discriminate H.
Qed.

(* ----------------------------------------------------------------- *)
(** ** The catalog under the steps of the threads *)

Lemma run_task_failed (t : Task) (effect : Effect) (s : BackupSystem) :
  db (run_task t false effect s) = db s.
Proof. reflexivity. Qed.

Lemma run_task_uploaded (t : Task) (effect : Effect) (s : BackupSystem) :
  chunks (db (run_task t true effect s))
  = chunks (db s) ++ [row_of (db s) t]
  /\ files (db (run_task t true effect s)) = files (db s).
Proof. split; reflexivity. Qed.

Lemma worker_take_db (w : nat) (s : BackupSystem) :
  db (worker_take w s) = db s.
Proof.
  unfold worker_take. destruct (stop_workers s); [reflexivity|].
  destruct (nth_error (workers s) w) as [[t|]|]; try reflexivity.
  now destruct (upload_queue s).
Qed.

Section Steps.
Context {cipher : BlockCipher}.
Variable cs : Z.

Lemma main_step_chunks (m : Main) (s : BackupSystem) :
  chunks (db (snd (main_step cs m s))) = chunks (db s).
Proof.
  destruct m as [inp|run i stream|run|run|what]; cbn [main_step].
  - destruct (in_content inp); reflexivity.
  - destruct (i <? run_chunk_count run); [|reflexivity].
    destruct (read _ stream) as [chunk rest].
    now destruct (select_provider (providers s) i).
  - now destruct (upload_queue s).
  - reflexivity.
  - reflexivity.
Qed.

Lemma step_MainStep (st : State) :
  step cs MainStep st
  = mkState (fst (main_step cs (main st) (sys st)))
            (snd (main_step cs (main st) (sys st))).
Proof. cbn [step]. now destruct (main_step cs (main st) (sys st)). Qed.

(** The chunk table follows what [upload] returns, not what its stream
    did. A worker running a task whose [upload] returns [false] leaves
    the chunk table as it was; so does every step of the thread in
    [backupFile], the submission of a task included, and a worker taking
    a task off the queue; a worker running a task whose [upload] returns
    [true] appends the row of that task, whether or not the object was
    written. *)
Lemma chunk_rows_follow_return (st : State) :
  (forall w effect,
      chunks (db (sys (step cs (WorkerRun w false effect) st)))
      = chunks (db (sys st)))
  /\ chunks (db (sys (step cs MainStep st))) = chunks (db (sys st))
  /\ (forall w, chunks (db (sys (step cs (WorkerTake w) st)))
                = chunks (db (sys st)))
  /\ (forall w effect,
        match nth_error (workers (sys st)) w with
        | Some (Some t) =>
            chunks (db (sys (step cs (WorkerRun w true effect) st)))
            = chunks (db (sys st)) ++ [row_of (db (sys st)) t]
        | _ =>
            chunks (db (sys (step cs (WorkerRun w true effect) st)))
            = chunks (db (sys st))
        end).
Proof.
  split; [|split; [|split]].
  - intros w effect. cbn [step sys]. unfold worker_run.
    now destruct (nth_error (workers (sys st)) w) as [[t|]|].
  - rewrite step_MainStep. cbn [sys]. apply main_step_chunks.
  - intros w. cbn [step sys]. now rewrite worker_take_db.
  - intros w effect. cbn [step sys]. unfold worker_run.
    now destruct (nth_error (workers (sys st)) w) as [[t|]|].
Qed.
End Steps.

(* ----------------------------------------------------------------- *)
(** ** Schedules *)

Lemma main_steps_app (a b : list Event) :
  main_steps (a ++ b) = (main_steps a + main_steps b)%nat.
Proof. unfold main_steps. now rewrite filter_app, length_app. Qed.

Section Schedules.
Context {cipher : BlockCipher}.
Variable cs : Z.


Lemma worker_step_quiet (ev : Event) (st : State) :
  is_main ev = false -> quiet (sys st) -> step cs ev st = st.
Proof.
  intros Hev [Hq Hw]. destruct st as [m s]. cbn [sys] in *.
  destruct ev as [|w|w completes effect]; [discriminate| |];
    cbn [step main sys].
  - f_equal. unfold worker_take. rewrite Hq.
    destruct (stop_workers s); [reflexivity|].
    now destruct (nth_error (workers s) w) as [[t|]|].
  - f_equal. unfold worker_run.
    destruct (nth_error (workers s) w) as [[t|]|] eqn:Hn; try reflexivity.
    apply nth_error_In in Hn.
    rewrite Forall_forall in Hw. now specialize (Hw _ Hn).
Qed.
End Schedules.

(* ----------------------------------------------------------------- *)
(** ** Accounting for the chunks of a run *)

Lemma outstanding_eq (s : BackupSystem) :
  outstanding s = upload_queue s ++ flat_map slot_tasks (workers s).
Proof. reflexivity. Qed.

Lemma cnt_app (x : Z) (a b : list Z) :
  cnt x (a ++ b) = (cnt x a + cnt x b)%nat.
Proof. apply count_occ_app. Qed.

Lemma cnt_cons (x y : Z) (l : list Z) :
  cnt x (y :: l) = (cnt x [y] + cnt x l)%nat.
Proof. apply (cnt_app x [y] l). Qed.

Lemma cnt_single (x y : Z) :
  cnt x [y] = if Z.eq_dec y x then 1%nat else 0%nat.
Proof. unfold cnt. cbn [count_occ]. now destruct (Z.eq_dec y x). Qed.

Lemma cnt_set_worker (x : Z) (v old : option Task) :
  forall (ws : list (option Task)) (w : nat),
    nth_error ws w = Some old ->
    (cnt x (map t_i (flat_map slot_tasks (set_worker w v ws)))
     + cnt x (map t_i (slot_tasks old)))%nat
    = (cnt x (map t_i (flat_map slot_tasks ws))
       + cnt x (map t_i (slot_tasks v)))%nat.
Proof.
  induction ws as [|y ws IH]; intros [|w] H; try discriminate.
  - injection H as ->. cbn [set_worker flat_map].
    rewrite !map_app, !cnt_app. lia.
  - cbn [nth_error] in H. cbn [set_worker flat_map].
    rewrite !map_app, !cnt_app. specialize (IH w H). lia.
Qed.

Lemma in_set_worker (t : Task) (v : option Task) :
  forall (ws : list (option Task)) (w : nat),
    In t (flat_map slot_tasks (set_worker w v ws)) ->
    In t (flat_map slot_tasks ws) \/ v = Some t.
Proof.
  induction ws as [|y ws IH]; intros [|w] H; cbn [set_worker flat_map] in *;
    try contradiction.
  - apply in_app_or in H as [H|H].
    + right. destruct v as [u|]; [|contradiction].
      destruct H as [->|[]]. reflexivity.
    + left. apply in_or_app. now right.
  - apply in_app_or in H as [H|H].
    + left. apply in_or_app. now left.
    + destruct (IH w H) as [H'|H']; [left|now right].
      apply in_or_app. now right.
Qed.

Lemma all_indices_succ (i : Z) :
  0 <= i -> all_indices (i + 1) = all_indices i ++ [i].
Proof.
  intros Hi. unfold all_indices.
  replace (Z.to_nat (i + 1)) with (S (Z.to_nat i)) by lia.
  rewrite seq_S, map_app. cbn [map Nat.add]. now rewrite Z2Nat.id.
Qed.

Lemma all_indices_nonpos (n : Z) : n <= 0 -> all_indices n = [].
Proof.
  intros Hn. unfold all_indices.
  now replace (Z.to_nat n) with 0%nat by lia.
Qed.

Lemma failed_indices_app (a b : list Output) :
  failed_indices (a ++ b) = failed_indices a ++ failed_indices b.
Proof. apply flat_map_app. Qed.

Lemma filter_all {A} (f : A -> bool) (l : list A) :
  Forall (fun x => f x = true) l -> filter f l = l.
Proof.
  induction 1 as [|x l Hx _ IH]; cbn [filter]; [reflexivity|].
  now rewrite Hx, IH.
Qed.

Lemma filter_none {A} (f : A -> bool) (l : list A) :
  Forall (fun x => f x = false) l -> filter f l = [].
Proof.
  induction 1 as [|x l Hx _ IH]; cbn [filter]; [reflexivity|].
  now rewrite Hx, IH.
Qed.

Lemma find_last {A} (f : A -> bool) (l : list A) (x : A) :
  Forall (fun y => f y = false) l ->
  find f (l ++ [x]) = if f x then Some x else None.
Proof.
  induction 1 as [|y l Hy _ IH]; cbn [find app]; [reflexivity|].
  now rewrite Hy, IH.
Qed.

Lemma new_chunks_start (d0 : Database) (s : BackupSystem) :
  chunks (db s) = chunks d0 -> new_chunks d0 s = [].
Proof. intros H. unfold new_chunks. rewrite H. apply skipn_all. Qed.

Lemma new_chunks_insert (d0 : Database) (s s' : BackupSystem)
  (row : ChunkRow) :
  chunks (db s) = chunks d0 ++ new_chunks d0 s ->
  chunks (db s') = chunks (db s) ++ [row] ->
  new_chunks d0 s' = new_chunks d0 s ++ [row].
Proof.
  intros H H'. unfold new_chunks in *. rewrite H', skipn_app.
  apply (f_equal (@length ChunkRow)) in H. rewrite length_app in H.
  replace (length (chunks d0) - length (chunks (db s)))%nat with 0%nat by lia.
  reflexivity.
Qed.

Lemma worker_take_frame (d0 : Database) (w : nat) (s : BackupSystem)
  (n : Z) :
  db (worker_take w s) = db s
  /\ output (worker_take w s) = output s
  /\ (tasks_of_run d0 s -> tasks_of_run d0 (worker_take w s))
  /\ (balanced d0 s n -> balanced d0 (worker_take w s) n).
Proof.
  unfold worker_take.
  destruct (stop_workers s); [tauto|].
  destruct (nth_error (workers s) w) as [[held|]|] eqn:Hw; try tauto.
  destruct (upload_queue s) as [|task rest] eqn:Hq; [tauto|].
  split; [reflexivity|]. split; [reflexivity|]. split.
  - intros (Ht & Hc & Hrows). split; [|split; [exact Hc | exact Hrows]].
    intros t Hin. apply Ht. rewrite outstanding_eq, Hq.
    rewrite outstanding_eq in Hin.
    cbn [with_workers upload_queue workers] in Hin.
    apply in_app_or in Hin as [Hin|Hin].
    + apply in_or_app. left. now right.
    + apply in_set_worker in Hin as [Hin|Hin].
      * apply in_or_app. now right.
      * injection Hin as ->. apply in_or_app. left. now left.
  - intros Hb x. specialize (Hb x).
    rewrite outstanding_eq, Hq in Hb.
    rewrite outstanding_eq. cbn [with_workers upload_queue workers output].
    change (new_chunks d0 (with_workers s rest
                             (set_worker w (Some task) (workers s))))
      with (new_chunks d0 s).
    pose proof (cnt_set_worker x (Some task) None (workers s) w Hw) as Hc.
    cbn [app map] in Hb. rewrite cnt_cons, map_app, cnt_app in Hb.
    rewrite map_app, cnt_app.
    cbn [slot_tasks map] in Hc.
    change (cnt x []) with 0%nat in Hc. lia.
Qed.

Lemma worker_run_frame (d0 : Database) (w : nat) (completes : bool)
  (effect : Effect) (s : BackupSystem) (n : Z) :
  files (db (worker_run w completes effect s)) = files (db s)
  /\ (tasks_of_run d0 s ->
      tasks_of_run d0 (worker_run w completes effect s)
      /\ (balanced d0 s n -> balanced d0 (worker_run w completes effect s) n)).
Proof.
  unfold worker_run.
  destruct (nth_error (workers s) w) as [[task|]|] eqn:Hw; try tauto.
  set (s' := with_workers (run_task task completes effect s)
               (upload_queue (run_task task completes effect s))
               (set_worker w None
                  (workers (run_task task completes effect s)))).
  assert (Hin : In task (outstanding s)).
  { rewrite outstanding_eq. apply in_or_app. right.
    apply in_flat_map. exists (Some task). split; [|now left].
    eapply nth_error_In. exact Hw. }
  assert (Eout : outstanding s'
                 = upload_queue s
                   ++ flat_map slot_tasks (set_worker w None (workers s)))
    by (now destruct completes).
  assert (Echunks : chunks (db s')
                    = chunks (db s)
                      ++ if completes then [row_of (db s) task] else []).
  { destruct completes; [reflexivity|]. symmetry. apply app_nil_r. }
  assert (Efailed : failed_indices (output s')
                    = failed_indices (output s)
                      ++ if completes then [] else [t_i task]).
  { destruct completes; subst s';
      cbn [with_workers run_task upload output];
      rewrite !failed_indices_app; cbn [failed_indices flat_map app];
      now rewrite ?app_nil_r. }
  split; [now destruct completes|].
  intros (Ht & Hc & Hrows).
  assert (Enew : new_chunks d0 s'
                 = new_chunks d0 s
                   ++ if completes then [row_of (db s) task] else []).
  { destruct completes.
    - now apply (new_chunks_insert d0 s).
    - rewrite app_nil_r. unfold new_chunks.
      now rewrite Echunks, app_nil_r. }
  split; [split; [|split]|].
  - intros t Hin'. apply Ht. rewrite Eout in Hin'. rewrite outstanding_eq.
    apply in_app_or in Hin' as [Hin'|Hin']; [apply in_or_app; now left|].
    apply in_set_worker in Hin' as [Hin'|Hin']; [|discriminate].
    apply in_or_app. now right.
  - rewrite Enew, Echunks, app_assoc. now rewrite <- Hc.
  - rewrite Enew. apply Forall_app. split; [exact Hrows|].
    destruct completes; constructor; [|constructor].
    cbn [row_of chunk_file_id upload_status]. split; [now apply Ht|reflexivity].
  - intros Hb x. specialize (Hb x).
    pose proof (cnt_set_worker x None (Some task) (workers s) w Hw) as Hcnt.
    rewrite Eout, Enew, Efailed. rewrite outstanding_eq in Hb.
    rewrite !map_app, !cnt_app in *.
    cbn [slot_tasks map] in Hcnt. change (cnt x []) with 0%nat in Hcnt.
    destruct completes; cbn [map row_of chunk_index];
      change (cnt x []) with 0%nat; lia.
Qed.

(* ----------------------------------------------------------------- *)
(** ** One [backupFile] call, under every schedule *)

Lemma file_row_is_files (d0 d d' : Database) (st : string) (count : Z) :
  files d' = files d -> file_row_is d0 d st count -> file_row_is d0 d' st count.
Proof. intros Heq (row & H). exists row. now rewrite Heq. Qed.

Lemma older_file_ids (d0 : Database) :
  catalog_ok d0 ->
  Forall (fun row => (file_id row =? files_seq d0 + 1) = false) (files d0).
Proof.
  intros (_ & _ & Hfiles & _). eapply Forall_impl; [|exact Hfiles].
  intros row Hrow. cbv beta in *. lia.
Qed.

Lemma file_row_completed (d0 d : Database) (count : Z) :
  catalog_ok d0 ->
  file_row_is d0 d "pending" count ->
  file_row_is d0 (updateFileStatus d (files_seq d0 + 1) "completed")
              "completed" count.
Proof.
  intros Hok (row & Hfiles & Hid & _ & Hcount).
  exists (mkFileRow (files_seq d0 + 1) (original_path row) (file_size row)
                    (chunk_count row) (encryption_key row)
                    (encryption_iv row) (backup_date row) "completed").
  cbn [updateFileStatus files]. rewrite Hfiles, map_app.
  cbn [map]. rewrite Hid, Z.eqb_refl.
  split; [|now repeat split].
  f_equal. rewrite <- (map_id (files d0)) at 2.
  apply map_ext_Forall. eapply Forall_impl; [|exact (older_file_ids d0 Hok)].
  intros r Hr. cbv beta in *. now rewrite Hr.
Qed.

Lemma file_row_status (d0 d : Database) (st : string) (count : Z) :
  catalog_ok d0 ->
  file_row_is d0 d st count -> file_status d (files_seq d0 + 1) = Some st.
Proof.
  intros Hok (row & Hfiles & Hid & Hst & _). unfold file_status.
  rewrite Hfiles, find_last by (now apply older_file_ids).
  rewrite Hid, Z.eqb_refl. cbn [option_map]. now rewrite Hst.
Qed.

Lemma uploaded_indices_new (d0 : Database) (s : BackupSystem) :
  catalog_ok d0 ->
  tasks_of_run d0 s ->
  uploaded_indices (db s) (files_seq d0 + 1)
  = map chunk_index (new_chunks d0 s).
Proof.
  intros (_ & _ & _ & Hold) (_ & Hc & Hnew). unfold uploaded_indices.
  rewrite Hc, filter_app, filter_none, filter_all; [reflexivity | |].
  - eapply Forall_impl; [|exact Hnew].
    intros row [-> ->]. now rewrite Z.eqb_refl.
  - eapply Forall_impl; [|exact Hold].
    intros row Hrow. cbv beta in *.
    destruct (Z.eqb_spec (chunk_file_id row) (files_seq d0 + 1)); [lia|].
    reflexivity.
Qed.

Section RunInvariant.
Context {cipher : BlockCipher}.
Variables (cs : Z) (d0 : Database) (st0 : Storage).
Hypothesis d0_ok : catalog_ok d0.

Lemma quiet_new : quiet (BackupSystem_new d0 st0).
Proof. split; [reflexivity | repeat constructor]. Qed.

Lemma Inv_worker_take (w : nat) (st : State) :
  Inv d0 st0 st -> Inv d0 st0 (step cs (WorkerTake w) st).
Proof.
  intros H. destruct st as [m s]. unfold Inv in *. cbn [step main sys] in *.
  destruct m as [inp|run i stream|run|run|what].
  - change (worker_take w s)
      with (sys (step cs (WorkerTake w) (mkState (Start inp) s))).
    rewrite worker_step_quiet; [assumption | reflexivity |].
    cbn [sys]. rewrite H. apply quiet_new.
  - destruct (worker_take_frame d0 w s i) as (Hdb & _ & Ht & Hb).
    rewrite Hdb. tauto.
  - destruct (worker_take_frame d0 w s (run_chunk_count run))
      as (Hdb & _ & Ht & Hb).
    rewrite Hdb. tauto.
  - destruct (worker_take_frame d0 w s (run_chunk_count run))
      as (Hdb & _ & Ht & Hb).
    rewrite Hdb. tauto.
  - destruct (worker_take_frame d0 w s 0) as (Hdb & _). now rewrite Hdb.
Qed.

Lemma Inv_worker_run (w : nat) (completes : bool) (effect : Effect)
  (st : State) :
  Inv d0 st0 st -> Inv d0 st0 (step cs (WorkerRun w completes effect) st).
Proof.
  intros H. destruct st as [m s]. unfold Inv in *. cbn [step main sys] in *.
  destruct m as [inp|run i stream|run|run|what].
  - change (worker_run w completes effect s)
      with (sys (step cs (WorkerRun w completes effect)
                      (mkState (Start inp) s))).
    rewrite worker_step_quiet; [assumption | reflexivity |].
    cbn [sys]. rewrite H. apply quiet_new.
  - destruct (worker_run_frame d0 w completes effect s i) as (Hf & Hframe).
    destruct H as (H1 & H2 & H3 & H4 & H5 & H6).
    destruct (Hframe H1) as (Ht & Hb).
    refine (conj Ht (conj H2 (conj _ (conj H4 (conj H5 (Hb H6)))))).
    now apply (file_row_is_files d0 (db s)).
  - destruct (worker_run_frame d0 w completes effect s (run_chunk_count run))
      as (Hf & Hframe).
    destruct H as (H1 & H2 & H3 & H4).
    destruct (Hframe H1) as (Ht & Hb).
    refine (conj Ht (conj H2 (conj _ (Hb H4)))).
    now apply (file_row_is_files d0 (db s)).
  - destruct (worker_run_frame d0 w completes effect s (run_chunk_count run))
      as (Hf & Hframe).
    destruct H as (H1 & H2 & H3 & H4).
    destruct (Hframe H1) as (Ht & Hb).
    refine (conj Ht (conj H2 (conj _ (Hb H4)))).
    now apply (file_row_is_files d0 (db s)).
  - destruct (worker_run_frame d0 w completes effect s 0) as (Hf & _).
    rewrite Hf. destruct H as [H | (count & H)]; [now left | right].
    exists count. now apply (file_row_is_files d0 (db s)).
Qed.

Lemma balanced_submit (s : BackupSystem) (task : Task) (i : Z) :
  0 <= i -> t_i task = i -> balanced d0 s i ->
  balanced d0 (with_workers s (upload_queue s ++ [task]) (workers s)) (i + 1).
Proof.
  intros Hi Htask Hb x. specialize (Hb x).
  rewrite all_indices_succ by assumption.
  rewrite outstanding_eq in *.
  cbn [with_workers upload_queue workers output].
  change (new_chunks d0 (with_workers s (upload_queue s ++ [task])
                           (workers s)))
    with (new_chunks d0 s).
  rewrite !map_app, !cnt_app in *. cbn [map]. rewrite Htask. lia.
Qed.

Lemma balanced_exit (s : BackupSystem) (i count : Z) :
  0 <= i -> i = 0 \/ i <= count -> ~ i < count ->
  balanced d0 s i -> balanced d0 s count.
Proof.
  intros Hi Hrange Hexit Hb x. rewrite (Hb x). f_equal.
  destruct Hrange as [-> | Hle].
  - rewrite (all_indices_nonpos count) by lia. reflexivity.
  - now replace count with i by lia.
Qed.

Lemma Inv_main_step (st : State) :
  Inv d0 st0 st -> Inv d0 st0 (step cs MainStep st).
Proof.
  intros H. rewrite step_MainStep. destruct st as [m s].
  unfold Inv in *. cbn [main sys] in *.
  destruct m as [inp|run i stream|run|run|what]; cbn [main_step].
  - subst s. destruct (in_content inp) as [content|]; cbn [fst snd].
    + cbn [getKey insertFile BackupSystem_new db files_seq fst snd
           run_file_id run_chunk_count].
      assert (Hnew : forall s', chunks (db s') = chunks d0 ->
                                new_chunks d0 s' = []).
      { intros s'. apply new_chunks_start. }
      split; [split; [intros t []|]|].
      { rewrite Hnew by reflexivity. split; [|constructor].
        cbn [db chunks]. now rewrite app_nil_r. }
      split; [apply to_int_small; destruct d0_ok; lia|].
      split; [eexists; split; [reflexivity|]; now repeat split|].
      split; [lia|]. split; [now left|].
      intros x. rewrite Hnew by reflexivity. reflexivity.
    + left. reflexivity.
  - destruct H as (Ht & Hid & Hrow & Hi & Hrange & Hb).
    destruct (Z.ltb_spec i (run_chunk_count run)) as [Hlt|Hge].
    + destruct (read _ stream) as [chunk rest].
      destruct (select_provider (providers s) i) as [p|]; cbn [fst snd].
      * split;
          [|refine (conj Hid (conj Hrow (conj _ (conj _ _)))); try lia].
        -- destruct Ht as (Ht & Hc & Hrows).
           split; [|split; [exact Hc | exact Hrows]].
           intros t Hin. rewrite outstanding_eq in Hin.
           cbn [with_workers upload_queue workers] in Hin.
           rewrite <- app_assoc in Hin.
           apply in_app_or in Hin as [Hin|Hin].
           ++ apply Ht. rewrite outstanding_eq. apply in_or_app. now left.
           ++ apply in_app_or in Hin as [[<-|[]]|Hin]; [exact Hid|].
              apply Ht. rewrite outstanding_eq. apply in_or_app. now right.
        -- now apply balanced_submit.
      * right. now exists (run_chunk_count run).
    + cbn [fst snd]. refine (conj Ht (conj Hid (conj Hrow _))).
      apply (balanced_exit s i); (assumption || lia).
  - destruct H as (Ht & Hid & Hrow & Hb).
    destruct (upload_queue s) as [|t q] eqn:Hq; cbn [fst snd];
      [|exact (conj Ht (conj Hid (conj Hrow Hb)))].
    split.
    { destruct Ht as (Ht & Hc & Hrows).
      split; [|split; [exact Hc | exact Hrows]].
      intros t Hin. apply Ht. rewrite outstanding_eq in *.
      cbn [upload_queue workers] in Hin. now rewrite Hq. }
    split; [exact Hid|]. split.
    + cbn [db]. rewrite Hid. now apply file_row_completed.
    + intros x. specialize (Hb x). rewrite outstanding_eq in *.
      cbn [upload_queue workers output].
      rewrite failed_indices_app. cbn [failed_indices flat_map app].
      rewrite Hq in Hb. rewrite app_nil_r. exact Hb.
  - exact H.
  - exact H.
Qed.

Lemma Inv_exec (inp : Input) (sched : list Event) :
  Inv d0 st0 (exec cs sched (backupFile inp d0 st0)).
Proof.
  assert (Hstart : Inv d0 st0 (backupFile inp d0 st0)) by reflexivity.
  revert Hstart. generalize (backupFile inp d0 st0).
  induction sched as [|ev sched IH]; intros st H; [exact H|].
  apply IH. destruct ev as [|w|w completes effect].
  - now apply Inv_main_step.
  - now apply Inv_worker_take.
  - now apply Inv_worker_run.
Qed.
End RunInvariant.

(* ----------------------------------------------------------------- *)
(** ** Backing up an empty file *)

Section EmptyFile.
Context {cipher : BlockCipher}.
Variables (path : string) (rk ri : list byte) (now : string).
Variables (d0 : Database) (st0 : Storage).

Local Abbreviation phase := (empty_phase path rk ri now d0 st0).

Lemma empty_phase_quiet (k : nat) :
  (k <= 3)%nat -> quiet (sys (phase k)).
Proof.
  intros Hk. destruct k as [|[|[|[|k]]]]; try lia;
    (split; [reflexivity | repeat constructor]).
Qed.

Lemma empty_phase_step (k : nat) :
  (k <= 3)%nat ->
  step CHUNK_SIZE MainStep (phase k) = phase (Nat.min 3 (S k)).
Proof.
  intros Hk. destruct k as [|[|[|[|k]]]]; try lia; reflexivity.
Qed.

Lemma exec_empty_phase (sched : list Event) :
  forall k, (k <= 3)%nat ->
    exec CHUNK_SIZE sched (phase k)
    = phase (Nat.min 3 (k + main_steps sched)).
Proof.
  induction sched as [|ev sched IH]; intros k Hk.
  - cbn [exec fold_left]. unfold main_steps. cbn [filter length].
    now rewrite Nat.add_0_r, Nat.min_r.
  - change (exec CHUNK_SIZE (ev :: sched) (phase k))
      with (exec CHUNK_SIZE sched (step CHUNK_SIZE ev (phase k))).
    destruct (is_main ev) eqn:Hev.
    + destruct ev; try discriminate.
      rewrite empty_phase_step by assumption.
      rewrite IH by lia.
      change (main_steps (MainStep :: sched)) with (S (main_steps sched)).
      f_equal. lia.
    + rewrite worker_step_quiet
        by (assumption || now apply empty_phase_quiet).
      rewrite IH by assumption.
      replace (main_steps (ev :: sched)) with (main_steps sched);
        [reflexivity|].
      unfold main_steps. cbn [filter]. now rewrite Hev.
Qed.

Lemma exec_empty_file (sched : list Event) :
  exec CHUNK_SIZE sched
       (backupFile (mkInput path (Some []) rk ri now) d0 st0)
  = phase (Nat.min 3 (main_steps sched)).
Proof. exact (exec_empty_phase sched 0 (Nat.le_0_l 3)). Qed.

(** C10, within the range of the [int] the file id is kept in: on a
    catalog as SQLite and this program keep it whose next file id is at
    most [INT_MAX], backing up an empty readable file is accepted.
    Whatever the schedule, no upload task is ever queued or held by a
    worker and no chunk row is written; and once the thread in
    [backupFile] has run three times (start, loop exit, wait) the call
    is over, with [chunk_count = 0] computed and recorded and the status
    of the file record set to ['completed']. *)
Theorem backup_of_empty_file :
  catalog_ok d0 ->
  (forall sched : list Event,
      let st :=
        exec CHUNK_SIZE sched
             (backupFile (mkInput path (Some []) rk ri now) d0 st0) in
      upload_queue (sys st) = []
      /\ outstanding (sys st) = []
      /\ chunks (db (sys st)) = chunks d0)
  /\ (forall s0 s1 s2 s3 : list Event,
        let st :=
          exec CHUNK_SIZE
               (s0 ++ MainStep :: s1 ++ MainStep :: s2 ++ MainStep :: s3)
               (backupFile (mkInput path (Some []) rk ri now) d0 st0) in
        exists run row,
          main st = Finished run
          /\ run_chunk_count run = 0
          /\ files (db (sys st)) = files d0 ++ [row]
          /\ file_id row = run_file_id run
          /\ chunk_count row = 0
          /\ status row = "completed"%string
          /\ file_status (db (sys st)) (run_file_id run)
             = Some "completed"%string).
Proof.
  intros Hok. split.
  - intros sched st. subst st. rewrite exec_empty_file.
    destruct (Nat.min 3 (main_steps sched)) as [|[|[|[|k]]]] eqn:Hm;
      try lia; repeat split.
  - intros s0 s1 s2 s3 st.
    pose proof (Inv_exec CHUNK_SIZE d0 st0 Hok
                  (mkInput path (Some []) rk ri now)
                  (s0 ++ MainStep :: s1 ++ MainStep :: s2 ++ MainStep :: s3))
      as HInv.
    fold st in HInv. unfold Inv in HInv.
    assert (Hst : st = phase 3).
    { subst st. rewrite exec_empty_file. f_equal.
      change (MainStep :: s1 ++ MainStep :: s2 ++ MainStep :: s3)
        with ([MainStep] ++ s1 ++ [MainStep] ++ s2 ++ [MainStep] ++ s3).
      rewrite !main_steps_app.
      change (main_steps [MainStep]) with 1%nat. lia. }
    assert (Hmain : exists run,
               main st = Finished run /\ run_chunk_count run = 0).
    { rewrite Hst. eexists. split; reflexivity. }
    destruct Hmain as (run & Hmain & Hcount).
    rewrite Hmain in HInv.
    destruct HInv as (_ & Hid & Hrow & _).
    pose proof (file_row_status d0 _ _ _ Hok Hrow) as Hstatus.
    destruct Hrow as (row & Hfiles & Hrid & Hrst & Hrcount).
    exists run, row. rewrite Hid.
    repeat split; try assumption. now rewrite Hrcount.
Qed.
End EmptyFile.

Lemma catalog_ok_empty : catalog_ok empty_db.
Proof.
  unfold catalog_ok, INT_MAX. cbn [empty_db files_seq files chunks].
  repeat split; try constructor; lia.
Qed.

Lemma backup_of_empty_file_witness :
  catalog_ok empty_db
  /\ (let st :=
        @exec demo_cipher CHUNK_SIZE
          ([] ++ MainStep :: [WorkerTake 0] ++ MainStep
              :: [WorkerRun 1 true Written] ++ MainStep :: [])
          (backupFile (mkInput "empty.bin" (Some []) (repeat x5a 32)
                               (map byte_of_nat (seq 1 16))
                               "2024-01-01 00:00:00")
                      empty_db no_files) in
      exists run row,
        main st = Finished run
        /\ run_chunk_count run = 0
        /\ files (db (sys st)) = files empty_db ++ [row]
        /\ file_id row = run_file_id run
        /\ chunk_count row = 0
        /\ status row = "completed"%string
        /\ file_status (db (sys st)) (run_file_id run)
           = Some "completed"%string).
Proof.
  split; [exact catalog_ok_empty|].
  exact (proj2 (@backup_of_empty_file demo_cipher "empty.bin" (repeat x5a 32)
                  (map byte_of_nat (seq 1 16)) "2024-01-01 00:00:00"
                  empty_db no_files catalog_ok_empty)
               [] [WorkerTake 0] [WorkerRun 1 true Written] []).
Defined.

(** C10 as stated fails once the AUTOINCREMENT counter of the file table
    has reached [INT_MAX]: the record of the empty file gets the row id
    [2^31], [insertFile] returns it cut down to [int], the status update
    goes to the id [-2^31], which no record has, and the call ends with
    the record of the file still ['pending']. *)
Lemma empty_file_left_pending :
  let st :=
    @exec demo_cipher CHUNK_SIZE [MainStep; MainStep; MainStep]
      (backupFile (mkInput "empty.bin" (Some []) (repeat x5a 32)
                           (map byte_of_nat (seq 1 16))
                           "2024-01-01 00:00:00")
                  (mkDatabase [] [] INT_MAX 0) no_files) in
  main st = Finished (mkRun demo_enc (- 2 ^ 31) 0 0)
  /\ upload_queue (sys st) = []
  /\ chunks (db (sys st)) = []
  /\ map (fun row => (file_id row, chunk_count row, status row))
         (files (db (sys st)))
     = [(2 ^ 31, 0, "pending"%string)]
  /\ file_status (db (sys st)) (2 ^ 31) = Some "pending"%string
  /\ file_status (db (sys st)) (- 2 ^ 31) = None.
Proof. repeat split. Qed.

(* ----------------------------------------------------------------- *)
(** ** Claims on the orchestrator *)

(** C1, as the code has it, on a catalog as SQLite and this program keep
    it whose next file id is at most [INT_MAX]: whatever the schedule of
    a [backupFile] call,
    when the call has finished the file's status is ['completed'], set
    without reading the chunk rows; the record of the run never has a
    status other than ['pending'] or ['completed'] (['failed'] is never
    written) and the older records are left as they were. If by then
    every submitted task has run, each index counts once in
    [0 .. chunk_count-1] exactly when it counts once among the rows
    recorded as uploaded and the failures reported together; so the
    uploaded indices are [0 .. chunk_count-1] when no upload failed. *)
Theorem completed_without_reading_catalog {cipher : BlockCipher}
  (cs : Z) (inp : Input) (d0 : Database) (st0 : Storage)
  (sched : list Event) :
  catalog_ok d0 ->
  let st := exec cs sched (backupFile inp d0 st0) in
  (forall run, main st = Finished run ->
      file_status (db (sys st)) (run_file_id run) = Some "completed"%string
      /\ (outstanding (sys st) = [] ->
          (forall x,
              (cnt x (uploaded_indices (db (sys st)) (run_file_id run))
               + cnt x (failed_indices (output (sys st))))%nat
              = cnt x (all_indices (run_chunk_count run)))
          /\ (failed_indices (output (sys st)) = [] ->
              Permutation (uploaded_indices (db (sys st)) (run_file_id run))
                          (all_indices (run_chunk_count run)))))
  /\ (files (db (sys st)) = files d0
      \/ exists row,
           files (db (sys st)) = files d0 ++ [row]
           /\ (status row = "pending"%string
               \/ status row = "completed"%string)).
Proof.
  intros Hok st. pose proof (Inv_exec cs d0 st0 Hok inp sched) as H.
  fold st in H. unfold Inv in H. split.
  - intros run Hmain. rewrite Hmain in H.
    destruct H as (Ht & Hid & Hrow & Hb).
    rewrite Hid.
    split; [now apply (file_row_status d0 _ _ (run_chunk_count run))|].
    intros Hout. rewrite uploaded_indices_new by assumption.
    assert (Hcount : forall x,
      (cnt x (map chunk_index (new_chunks d0 (sys st)))
       + cnt x (failed_indices (output (sys st))))%nat
      = cnt x (all_indices (run_chunk_count run))).
    { intros x. specialize (Hb x). rewrite Hout in Hb.
      cbn [map] in Hb. change (cnt x []) with 0%nat in Hb. lia. }
    split; [exact Hcount|].
    intros Hfail. apply (Permutation_count_occ Z.eq_dec). intros x.
    specialize (Hcount x). rewrite Hfail in Hcount.
    change (cnt x []) with 0%nat in Hcount. unfold cnt in Hcount. lia.
  - destruct (main st) as [i0|run i stream|run|run|what].
    + left. now rewrite H.
    + destruct H as (_ & _ & (r & Hf & _ & Hs & _) & _).
      right. exists r. split; [exact Hf | now left].
    + destruct H as (_ & _ & (r & Hf & _ & Hs & _) & _).
      right. exists r. split; [exact Hf | now left].
    + destruct H as (_ & _ & (r & Hf & _ & Hs & _) & _).
      right. exists r. split; [exact Hf | now right].
    + destruct H as [Hf | (count & r & Hf & _ & Hs & _)]; [now left|].
      right. exists r. split; [exact Hf | now left].
Qed.

Lemma completed_without_reading_catalog_witness :
  catalog_ok empty_db
  /\ (let st :=
        @exec demo_cipher CHUNK_SIZE
          [MainStep; MainStep; WorkerTake 0; WorkerRun 0 true Written;
           MainStep; MainStep]
          (backupFile one_byte_file empty_db no_files) in
      (forall run, main st = Finished run ->
          file_status (db (sys st)) (run_file_id run)
          = Some "completed"%string
          /\ (outstanding (sys st) = [] ->
              (forall x,
                  (cnt x (uploaded_indices (db (sys st)) (run_file_id run))
                   + cnt x (failed_indices (output (sys st))))%nat
                  = cnt x (all_indices (run_chunk_count run)))
              /\ (failed_indices (output (sys st)) = [] ->
                  Permutation
                    (uploaded_indices (db (sys st)) (run_file_id run))
                    (all_indices (run_chunk_count run)))))
      /\ (files (db (sys st)) = files empty_db
          \/ exists row,
               files (db (sys st)) = files empty_db ++ [row]
               /\ (status row = "pending"%string
                   \/ status row = "completed"%string))).
Proof.
  split; [exact catalog_ok_empty|].
  exact (@completed_without_reading_catalog demo_cipher CHUNK_SIZE
           one_byte_file empty_db no_files
           [MainStep; MainStep; WorkerTake 0; WorkerRun 0 true Written;
            MainStep; MainStep]
           catalog_ok_empty).
Defined.

(** C1 as stated fails: the upload of the only chunk of a one-byte file
    fails, the worker is done before the wait loop looks at the queue, and
    the file is marked ['completed'] with no uploaded chunk index where
    [{0}] is expected. *)
Lemma completed_with_failed_chunk :
  let st :=
    @exec demo_cipher CHUNK_SIZE
      [MainStep; MainStep; MainStep; WorkerTake 0; WorkerRun 0 false NotOpened;
       MainStep]
      (backupFile one_byte_file empty_db no_files) in
  main st = Finished (mkRun demo_enc 1 1 1)
  /\ outstanding (sys st) = []
  /\ failed_indices (output (sys st)) = [0]
  /\ uploaded_indices (db (sys st)) 1 = []
  /\ all_indices 1 = [0]
  /\ same_set (uploaded_indices (db (sys st)) 1) (all_indices 1) = false
  /\ file_status (db (sys st)) 1 = Some "completed"%string.
Proof. repeat split. Qed.

(** C2: the wait loop of [backupFile] ends as soon as it finds the queue
    empty, and a task that a worker has popped but not yet run is in no
    queue. On a one-byte file, with worker 0 having taken the task of
    chunk 0 before the loop looks, the call finishes and marks the file
    ['completed'] while that task is still held by the worker: chunk 0
    has no row and no reported failure. *)
Lemma wait_ends_with_task_in_flight :
  let st :=
    @exec demo_cipher CHUNK_SIZE
      [MainStep; MainStep; WorkerTake 0; MainStep; MainStep]
      (backupFile one_byte_file empty_db no_files) in
  main st = Finished (mkRun demo_enc 1 1 1)
  /\ upload_queue (sys st) = []
  /\ map t_i (outstanding (sys st)) = [0]
  /\ terminal (sys st) 1 0 = false
  /\ file_status (db (sys st)) 1 = Some "completed"%string.
Proof. repeat split. Qed.

(** C8: the claim fails when the stream of [upload] does not open its
    file (the provider's directory is gone or not writable). The stream
    raises nothing and its state is not tested, so [upload] returns
    [true]: the task records chunk 0 as ['uploaded'] and reports no
    failure, although nothing was stored and [download] of the recorded
    object throws. *)
Lemma row_recorded_for_unwritten_object :
  let st :=
    @exec demo_cipher CHUNK_SIZE
      [MainStep; MainStep; WorkerTake 0; WorkerRun 0 true NotOpened]
      (backupFile one_byte_file empty_db no_files) in
  storage (sys st) = no_files
  /\ map (fun row => (chunk_file_id row, chunk_index row, cloud_provider row,
                      remote_path row, upload_status row))
         (chunks (db (sys st)))
     = [(1, 0, "GoogleDrive"%string, "file_1_chunk_0.enc"%string,
         "uploaded"%string)]
  /\ uploaded_indices (db (sys st)) 1 = [0]
  /\ failed_indices (output (sys st)) = []
  /\ output (sys st)
     = [OutStarting "a.bin"; OutFileSize 1; OutWillCreate 1;
        OutUploading 0 "GoogleDrive"; OutUploaded 0]
  /\ download (mkCloudProvider "GoogleDrive" "./backup/gdrive")
              "file_1_chunk_0.enc" (storage (sys st))
     = None.
Proof. repeat split. Qed.

(* ================================================================= *)
(** * Further properties of the code *)

(** ** [Encryption]: lengths, short inputs, exported keys *)

Section EncryptionLaws.
Context {cipher : BlockCipher}.

Lemma length_cbc_ciphertext (k : list byte) (n : nat) :
  forall (P chain : list byte),
    (length P <= n)%nat ->
    length chain = AES_BLOCK_SIZE ->
    length (cbc_ciphertext k chain P)
    = (AES_BLOCK_SIZE * (length P / AES_BLOCK_SIZE) + AES_BLOCK_SIZE)%nat.
Proof.
  induction n as [|n IH]; intros P chain Hn Hchain.
  - destruct P; [|simpl in Hn; lia].
    rewrite cbc_ciphertext_short by (simpl; unfold AES_BLOCK_SIZE; lia).
    rewrite E_length; [reflexivity|].
    rewrite length_xor_block, length_pkcs7_pad, Hchain
      by (simpl; unfold AES_BLOCK_SIZE; lia).
    apply Nat.min_id.
  - destruct (Nat.lt_ge_cases (length P) AES_BLOCK_SIZE) as [Hs|Hl].
    + rewrite cbc_ciphertext_short by assumption.
      rewrite Nat.div_small by assumption.
      rewrite E_length; [lia|].
      rewrite length_xor_block, length_pkcs7_pad, Hchain by assumption.
      apply Nat.min_id.
    + destruct (split_block P Hl) as (HP & Hb & Hrest).
      set (b := firstn AES_BLOCK_SIZE P) in *.
      set (rest := skipn AES_BLOCK_SIZE P) in *.
      assert (Hblock : length (E k (xor_block b chain)) = AES_BLOCK_SIZE).
      { apply E_length. rewrite length_xor_block, Hb, Hchain.
        apply Nat.min_id. }
      rewrite HP at 1. rewrite cbc_ciphertext_block by assumption.
      rewrite length_app, Hblock.
      rewrite IH by (try assumption; unfold AES_BLOCK_SIZE in *; lia).
      replace (length P) with (length rest + 1 * AES_BLOCK_SIZE)%nat
        by (rewrite Hrest; lia).
      rewrite Nat.div_add by (unfold AES_BLOCK_SIZE; lia).
      lia.
Qed.

(** What [decrypt] does on the output of [encrypt]: [EVP_DecryptFinal_ex]
    accepts the padding and the plaintext comes back. *)
Lemma decrypt_run_encrypt (enc : Encryption) (P : list byte) :
  valid_Encryption enc ->
  Z.of_nat (length P) + Z.of_nat AES_BLOCK_SIZE <= INT_MAX ->
  decrypt_run enc (encrypt enc P) = (true, P).
Proof.
  intros Hvalid Hint.
  rewrite encrypt_cbc by assumption.
  destruct Hvalid as [_ Hiv].
  destruct (cbc_round_trip (key enc) (length P) P (iv enc)
              (Nat.le_refl _) Hiv)
    as (bs & buf & c & Hdec & Hcat & Hbuf & Hlen).
  assert (Hbs : (length (concat bs) <= length P)%nat).
  { rewrite <- Hcat, length_app. lia. }
  rewrite (decrypt_run_blocks enc _ bs (pkcs7_pad buf) c);
    [ | now apply cbc_ciphertext_nonempty | rewrite Hlen; lia | lia
      | assumption ].
  rewrite pkcs7_unpad_pad by assumption. now rewrite Hcat.
Qed.

Lemma setKey_getKey (enc other : Encryption) :
  valid_Encryption enc ->
  setKey other (fst (getKey enc)) (snd (getKey enc)) = enc.
Proof.
  intros [Hk Hi]. unfold setKey, getKey. cbn [fst snd].
  rewrite !firstn_all2 by (unfold AES_BLOCK_SIZE in *; lia).
  now destruct enc.
Qed.

Lemma valid_Encryption_new (rk ri : list byte) :
  (32 <= length rk)%nat -> (16 <= length ri)%nat ->
  valid_Encryption (Encryption_new rk ri).
Proof.
  intros Hk Hi. unfold valid_Encryption, Encryption_new. cbn [key iv].
  rewrite !length_firstn. unfold AES_BLOCK_SIZE. lia.
Qed.

(** X1: the ciphertext [encrypt] returns is a whole number of 16-byte
    blocks: the full blocks of the plaintext and one more, so it is longer
    than the plaintext by 1 to 16 bytes. *)
Theorem encrypt_length (enc : Encryption) (P : list byte) :
  valid_Encryption enc ->
  Z.of_nat (length P) + Z.of_nat AES_BLOCK_SIZE <= INT_MAX ->
  length (encrypt enc P)
  = (AES_BLOCK_SIZE * (length P / AES_BLOCK_SIZE) + AES_BLOCK_SIZE)%nat
  /\ (length P < length (encrypt enc P) <= length P + AES_BLOCK_SIZE)%nat.
Proof.
  intros Hvalid Hint.
  assert (H : length (encrypt enc P)
              = (AES_BLOCK_SIZE * (length P / AES_BLOCK_SIZE)
                 + AES_BLOCK_SIZE)%nat).
  { rewrite encrypt_cbc by assumption.
    apply (length_cbc_ciphertext _ (length P)); [lia | apply Hvalid]. }
  split; [exact H|]. rewrite H.
  pose proof (Nat.div_mod_eq (length P) AES_BLOCK_SIZE) as Hdm.
  pose proof (Nat.mod_upper_bound (length P) AES_BLOCK_SIZE) as Hub.
  unfold AES_BLOCK_SIZE in *. lia.
Qed.

(** X2: a ciphertext shorter than one block, the empty one included, makes
    [EVP_DecryptFinal_ex] fail; [decrypt] raises nothing and returns an
    empty vector. *)
Theorem decrypt_short_ciphertext (enc : Encryption) (c : list byte) :
  (length c < AES_BLOCK_SIZE)%nat ->
  decrypt_run enc c = (false, []) /\ decrypt enc c = [].
Proof.
  intros Hc.
  assert (H : decrypt_run enc c = (false, [])).
  { unfold decrypt_run.
    rewrite to_int_small by (unfold INT_MAX, AES_BLOCK_SIZE in *; lia).
    unfold EVP_DecryptUpdate, EVP_DecryptInit_ex.
    cbn [ctx_key ctx_iv ctx_buf ctx_final].
    destruct c as [|x c'].
    - reflexivity.
    - destruct (Z.leb_spec (Z.of_nat (length (x :: c'))) 0) as [H0|_];
        [simpl length in H0; lia|].
      rewrite Nat2Z.id, firstn_all.
      rewrite decrypt_bytes_partial by (simpl length in *; lia).
      reflexivity. }
  split; [exact H | unfold decrypt; now rewrite H].
Qed.

(** X3: the key and IV that [getKey] exports, loaded into any other
    [Encryption] object with [setKey], decrypt what the first object
    encrypted, and [EVP_DecryptFinal_ex] reports success. *)
Theorem exported_key_decrypts (enc other : Encryption) (P : list byte) :
  valid_Encryption enc ->
  Z.of_nat (length P) + Z.of_nat AES_BLOCK_SIZE <= INT_MAX ->
  decrypt_run (setKey other (fst (getKey enc)) (snd (getKey enc)))
              (encrypt enc P)
  = (true, P).
Proof.
  intros Hvalid Hint.
  rewrite setKey_getKey by assumption.
  now apply decrypt_run_encrypt.
Qed.
End EncryptionLaws.

Lemma encrypt_length_witness :
  valid_Encryption demo_enc
  /\ length (@encrypt demo_cipher demo_enc demo_payload)
     = (AES_BLOCK_SIZE * (length demo_payload / AES_BLOCK_SIZE)
        + AES_BLOCK_SIZE)%nat
  /\ (length demo_payload
      < length (@encrypt demo_cipher demo_enc demo_payload)
      <= length demo_payload + AES_BLOCK_SIZE)%nat.
Proof.
  assert (Hv : valid_Encryption demo_enc) by (split; reflexivity).
  split; [exact Hv|].
  apply (@encrypt_length demo_cipher demo_enc demo_payload Hv).
  vm_compute. discriminate.
Defined.

Lemma decrypt_short_ciphertext_witness :
  @decrypt_run demo_cipher demo_enc [x01; x02; x03] = (false, [])
  /\ @decrypt demo_cipher demo_enc [x01; x02; x03] = [].
Proof.
  apply (@decrypt_short_ciphertext demo_cipher demo_enc [x01; x02; x03]).
  unfold AES_BLOCK_SIZE. simpl. lia.
Defined.

Lemma exported_key_decrypts_witness :
  valid_Encryption demo_enc
  /\ @decrypt_run demo_cipher
       (setKey (mkEncryption [] []) (fst (getKey demo_enc))
               (snd (getKey demo_enc)))
       (@encrypt demo_cipher demo_enc demo_payload)
     = (true, demo_payload).
Proof.
  assert (Hv : valid_Encryption demo_enc) by (split; reflexivity).
  split; [exact Hv|].
  apply (@exported_key_decrypts demo_cipher demo_enc (mkEncryption [] [])
           demo_payload Hv).
  vm_compute. discriminate.
Defined.

Section EncryptionFailures.
Context {cipher : BlockCipher}.

Lemma decrypt_bytes_buffer (k : list byte) (n : nat) :
  forall (C chain : list byte),
    (length C <= n)%nat ->
    length (snd (snd (decrypt_bytes k chain [] C)))
    = (length C mod AES_BLOCK_SIZE)%nat.
Proof.
  induction n as [|n IH]; intros C chain Hn.
  - destruct C; [reflexivity | simpl in Hn; lia].
  - destruct (Nat.lt_ge_cases (length C) AES_BLOCK_SIZE) as [Hs|Hl].
    + rewrite decrypt_bytes_partial by (simpl; lia).
      rewrite Nat.mod_small by assumption. reflexivity.
    + destruct (split_block C Hl) as (HC & Hb & Hrest).
      set (b := firstn AES_BLOCK_SIZE C) in *.
      set (rest := skipn AES_BLOCK_SIZE C) in *.
      assert (Hne : b <> []).
      { intros E0. rewrite E0 in Hb. discriminate. }
      rewrite HC at 1.
      rewrite decrypt_bytes_block by (simpl; assumption).
      cbn [snd].
      rewrite IH by (unfold AES_BLOCK_SIZE in *; lia).
      replace (length C) with (length rest + 1 * AES_BLOCK_SIZE)%nat
        by (rewrite Hrest; lia).
      now rewrite Nat.Div0.mod_add.
Qed.

(** X4: a ciphertext whose length is not a multiple of the block size
    leaves a partial block in the context, so [EVP_DecryptFinal_ex]
    fails; [decrypt] does not look at that result. *)
Theorem decrypt_partial_block_fails (enc : Encryption) (c : list byte) :
  Z.of_nat (length c) <= INT_MAX ->
  (length c mod AES_BLOCK_SIZE <> 0)%nat ->
  fst (decrypt_run enc c) = false.
Proof.
  intros Hint Hmod. unfold decrypt_run.
  rewrite to_int_small by lia.
  unfold EVP_DecryptUpdate, EVP_DecryptInit_ex.
  cbn [ctx_key ctx_iv ctx_buf ctx_final].
  destruct (Z.leb_spec (Z.of_nat (length c)) 0) as [H0|Hpos].
  - destruct c; [now elim Hmod | simpl length in H0; lia].
  - rewrite Nat2Z.id, firstn_all.
    pose proof (decrypt_bytes_buffer (key enc) (length c) c (iv enc)
                  (Nat.le_refl _)) as Hbuf.
    destruct (decrypt_bytes (key enc) (iv enc) [] c)
      as [blocks [chain buf]].
    cbn [snd] in Hbuf.
    destruct buf as [|y buf']; [rewrite <- Hbuf in Hmod; now elim Hmod|].
    reflexivity.
Qed.
End EncryptionFailures.

Lemma decrypt_partial_block_fails_witness :
  fst (@decrypt_run demo_cipher demo_enc (map byte_of_nat (seq 1 20)))
  = false.
Proof.
  apply (@decrypt_partial_block_fails demo_cipher).
  - vm_compute. discriminate.
  - vm_compute. discriminate.
Defined.

(* ----------------------------------------------------------------- *)
(** ** [DatabaseManager]: what the three statements do to lookups *)

Lemma find_app_first {A} (f : A -> bool) (l l' : list A) :
  find f (l ++ l')
  = match find f l with Some x => Some x | None => find f l' end.
Proof.
  induction l as [|x l IH]; [reflexivity|].
  simpl. now destruct (f x).
Qed.

Lemma to_int_upper (z : Z) : to_int z <= INT_MAX.
Proof.
  unfold to_int, INT_MAX.
  pose proof (Z.mod_pos_bound (z + 2 ^ 31) (2 ^ 32) ltac:(lia)). lia.
Qed.

Lemma find_file_fresh (d : Database) (fid : Z) :
  Forall (fun row => file_id row <= files_seq d) (files d) ->
  files_seq d < fid ->
  find (fun row => file_id row =? fid) (files d) = None.
Proof.
  intros Hall Hlt. induction Hall as [|row l Hrow _ IH]; [reflexivity|].
  simpl. destruct (Z.eqb_spec (file_id row) fid); [lia | exact IH].
Qed.

(** X5: on a catalog whose file ids do not exceed the AUTOINCREMENT
    counter, [insertFile] returns the next id; looking that id up finds
    the record just written, with the key and IV passed in and status
    "pending"; every other id looks up as before and the chunk table is
    untouched. *)
Theorem insertFile_lookup (d : Database) (path : string) (size count : Z)
  (k i : list byte) (now : string) :
  Forall (fun row => file_id row <= files_seq d) (files d) ->
  0 <= files_seq d -> files_seq d + 1 <= INT_MAX ->
  let d' := fst (insertFile d path size count k i now) in
  let fid := snd (insertFile d path size count k i now) in
  fid = files_seq d + 1
  /\ find (fun row => file_id row =? fid) (files d')
     = Some (mkFileRow fid path (to_int64 size) count
                       (firstn 32 k) (firstn 16 i) now "pending")
  /\ file_status d' fid = Some "pending"%string
  /\ (forall fid', fid' <> fid -> file_status d' fid' = file_status d fid')
  /\ chunks d' = chunks d.
Proof.
  intros Hall H0 Hmax d' fid.
  assert (Hfid : fid = files_seq d + 1).
  { unfold fid, insertFile. cbn [snd]. apply to_int_small. lia. }
  assert (Hfind : find (fun row => file_id row =? fid) (files d')
                  = Some (mkFileRow fid path (to_int64 size) count
                            (firstn 32 k) (firstn 16 i) now "pending")).
  { unfold d', insertFile. cbn [fst files].
    rewrite find_app_first, find_file_fresh by (assumption || lia).
    rewrite Hfid. cbn [find file_id]. now rewrite Z.eqb_refl. }
  split; [exact Hfid|]. split; [exact Hfind|].
  split; [unfold file_status; now rewrite Hfind|].
  split; [|reflexivity].
  intros fid' Hne. unfold file_status, d', insertFile. cbn [fst files].
  rewrite find_app_first.
  destruct (find (fun row => file_id row =? fid') (files d)); [reflexivity|].
  cbn [find file_id].
  destruct (Z.eqb_spec (files_seq d + 1) fid'); [congruence | reflexivity].
Qed.

Lemma insertFile_lookup_witness :
  let d := fst (insertFile empty_db "a.bin" 7 1 [] [] "t0") in
  let d' := fst (insertFile d "b.bin" 9 1 [x01] [x02] "t1") in
  let fid := snd (insertFile d "b.bin" 9 1 [x01] [x02] "t1") in
  fid = files_seq d + 1
  /\ find (fun row => file_id row =? fid) (files d')
     = Some (mkFileRow fid "b.bin" (to_int64 9) 1
                       (firstn 32 [x01]) (firstn 16 [x02]) "t1" "pending")
  /\ file_status d' fid = Some "pending"%string
  /\ (forall fid', fid' <> fid -> file_status d' fid' = file_status d fid')
  /\ chunks d' = chunks d.
Proof.
  intros d.
  apply (insertFile_lookup d "b.bin" 9 1 [x01] [x02] "t1").
  - repeat constructor. vm_compute. discriminate.
  - vm_compute. discriminate.
  - vm_compute. discriminate.
Defined.

(** X6: the id [insertFile] returns is the row id cut down to [int]. Once
    the AUTOINCREMENT counter has reached [INT_MAX] (and is still below
    SQLite's largest row id) the returned id is smaller than the id of
    the record written, and a status update made with the returned id
    leaves that record as it was inserted. *)
Theorem insertFile_id_truncated (d : Database) (path : string)
  (size count : Z) (k i : list byte) (now st : string) :
  INT_MAX <= files_seq d < 2 ^ 63 - 1 ->
  let d' := fst (insertFile d path size count k i now) in
  let fid := snd (insertFile d path size count k i now) in
  let row := mkFileRow (files_seq d + 1) path (to_int64 size) count
                       (firstn 32 k) (firstn 16 i) now "pending" in
  fid < files_seq d + 1
  /\ files d' = files d ++ [row]
  /\ files (updateFileStatus d' fid st)
     = files (updateFileStatus d fid st) ++ [row].
Proof.
  intros Hseq d' fid row.
  assert (Hlt : fid < files_seq d + 1).
  { unfold fid, insertFile. cbn [snd].
    pose proof (to_int_upper (files_seq d + 1)). lia. }
  split; [exact Hlt|]. split; [reflexivity|].
  unfold d', updateFileStatus, insertFile. cbn [fst files].
  rewrite map_app. cbn [map file_id].
  destruct (Z.eqb_spec (files_seq d + 1) fid); [lia | reflexivity].
Qed.

Lemma insertFile_id_truncated_witness :
  let d := mkDatabase [] [] INT_MAX 0 in
  let d' := fst (insertFile d "a.bin" 7 1 [] [] "t0") in
  let fid := snd (insertFile d "a.bin" 7 1 [] [] "t0") in
  let row := mkFileRow (files_seq d + 1) "a.bin" (to_int64 7) 1
                       (firstn 32 []) (firstn 16 []) "t0" "pending" in
  fid < files_seq d + 1
  /\ files d' = files d ++ [row]
  /\ files (updateFileStatus d' fid "completed")
     = files (updateFileStatus d fid "completed") ++ [row].
Proof.
  intros d.
  apply (insertFile_id_truncated d "a.bin" 7 1 [] [] "t0" "completed").
  vm_compute. split; [discriminate | reflexivity].
Defined.

(** X7: [updateFileStatus] sets the status of the record with that id and
    of no other; when no record has the id nothing is created and nothing
    changes; ids and the chunk table stay as they are. *)
Theorem updateFileStatus_lookup (d : Database) (fid : Z) (st : string) :
  (forall fid',
      file_status (updateFileStatus d fid st) fid'
      = if fid' =? fid then option_map (fun _ => st) (file_status d fid)
        else file_status d fid')
  /\ map file_id (files (updateFileStatus d fid st)) = map file_id (files d)
  /\ chunks (updateFileStatus d fid st) = chunks d.
Proof.
  split; [|split; [|reflexivity]].
  - intros fid'. unfold file_status, updateFileStatus. cbn [files].
    induction (files d) as [|row l IH].
    + simpl. now destruct (fid' =? fid).
    + cbn [map find].
      destruct (Z.eqb_spec (file_id row) fid) as [Eid|Nid].
      * cbn [file_id]. rewrite Eid.
        destruct (Z.eqb_spec fid fid') as [E2|N2].
        -- subst fid'. rewrite Z.eqb_refl. reflexivity.
        -- rewrite IH.
           destruct (Z.eqb_spec fid' fid); [congruence | reflexivity].
      * destruct (Z.eqb_spec (file_id row) fid') as [E2|N2].
        -- destruct (Z.eqb_spec fid' fid); [congruence | reflexivity].
        -- exact IH.
  - unfold updateFileStatus. cbn [files]. rewrite map_map.
    apply map_ext. intros row. now destruct (file_id row =? fid).
Qed.

(** X8: of two status updates of the same record the later one wins, and
    updates of different records commute. *)
Theorem updateFileStatus_compose (d : Database) (fid1 fid2 : Z)
  (s1 s2 : string) :
  updateFileStatus (updateFileStatus d fid1 s1) fid1 s2
  = updateFileStatus d fid1 s2
  /\ (fid1 <> fid2 ->
      updateFileStatus (updateFileStatus d fid1 s1) fid2 s2
      = updateFileStatus (updateFileStatus d fid2 s2) fid1 s1).
Proof.
  split; [|intros Hne]; unfold updateFileStatus; cbn [files chunks files_seq
    chunks_seq]; f_equal; rewrite !map_map; apply map_ext; intros row.
  - destruct (Z.eqb_spec (file_id row) fid1) as [E|N]; cbn [file_id];
      [rewrite E, Z.eqb_refl | rewrite (proj2 (Z.eqb_neq _ _) N)];
      reflexivity.
  - destruct (Z.eqb_spec (file_id row) fid1) as [E1|N1];
      destruct (Z.eqb_spec (file_id row) fid2) as [E2|N2];
      cbn [file_id];
      try rewrite (proj2 (Z.eqb_eq _ _) E1);
      try rewrite (proj2 (Z.eqb_eq _ _) E2);
      try rewrite (proj2 (Z.eqb_neq _ _) N1);
      try rewrite (proj2 (Z.eqb_neq _ _) N2);
      try reflexivity.
    congruence.
Qed.

Lemma updateFileStatus_compose_witness :
  let d := fst (insertFile (fst (insertFile empty_db "a" 1 1 [] [] "t"))
                           "b" 2 1 [] [] "t") in
  updateFileStatus (updateFileStatus d 1 "failed") 1 "completed"
  = updateFileStatus d 1 "completed"
  /\ updateFileStatus (updateFileStatus d 1 "failed") 2 "completed"
     = updateFileStatus (updateFileStatus d 2 "completed") 1 "failed".
Proof.
  intros d.
  destruct (updateFileStatus_compose d 1 2 "failed" "completed") as [H1 H2].
  split; [exact H1 | apply H2; discriminate].
Defined.

(** X9: [insertChunk] adds the index to what is recorded for that file
    and for no other, also when the index is recorded already and when
    no file record has the id; the file table is not read or changed. *)
Theorem insertChunk_lookup (d : Database) (fid index size : Z)
  (provider path sum : string) :
  let d' := insertChunk d fid index size provider path sum in
  (forall fid',
      uploaded_indices d' fid'
      = uploaded_indices d fid' ++ (if fid' =? fid then [index] else []))
  /\ files d' = files d
  /\ chunks d'
     = chunks d ++ [mkChunkRow (chunks_seq d + 1) fid index (to_int64 size)
                               provider path sum "uploaded"].
Proof.
  intros d'. split; [|split; reflexivity].
  intros fid'. unfold uploaded_indices, d', insertChunk. cbn [chunks].
  rewrite filter_app, map_app. f_equal.
  cbn [filter chunk_file_id upload_status].
  rewrite Z.eqb_sym.
  now destruct (fid' =? fid).
Qed.

(* ----------------------------------------------------------------- *)
(** ** The primary keys of the catalog *)

Lemma NoDup_snoc_fresh {A} (f : A -> Z) (l : list A) (x : A) (bound : Z) :
  Forall (fun y => f y <= bound) l -> bound < f x ->
  NoDup (map f l) -> NoDup (map f (l ++ [x])).
Proof.
  intros Hall Hx Hnd. rewrite map_app. apply NoDup_app.
  - exact Hnd.
  - repeat constructor. simpl. tauto.
  - intros a Ha [Hb|[]]. subst a.
    apply in_map_iff in Ha. destruct Ha as (y & Hy & Hin).
    rewrite Forall_forall in Hall. specialize (Hall y Hin). lia.
Qed.

Lemma Forall_snoc_bound {A} (f : A -> Z) (l : list A) (x : A)
  (bound : Z) :
  Forall (fun y => f y <= bound) l ->
  f x = bound + 1 ->
  Forall (fun y => f y <= bound + 1) (l ++ [x]).
Proof.
  intros Hall Hx. apply Forall_app. split.
  - eapply Forall_impl; [|exact Hall]. simpl. intros. lia.
  - repeat constructor. lia.
Qed.

Lemma ids_ok_insertFile (d : Database) (path : string) (size count : Z)
  (k i : list byte) (now : string) :
  ids_ok d -> ids_ok (fst (insertFile d path size count k i now)).
Proof.
  intros (Hf & Hc & Hnf & Hnc). unfold insertFile, ids_ok.
  cbn [fst files chunks files_seq chunks_seq].
  split; [|split; [assumption|split; [|assumption]]].
  - now apply Forall_snoc_bound.
  - apply (NoDup_snoc_fresh file_id _ _ (files_seq d));
      [assumption | cbn [file_id]; lia | assumption].
Qed.

Lemma ids_ok_insertChunk (d : Database) (fid index size : Z)
  (provider path sum : string) :
  ids_ok d -> ids_ok (insertChunk d fid index size provider path sum).
Proof.
  intros (Hf & Hc & Hnf & Hnc). unfold insertChunk, ids_ok.
  cbn [files chunks files_seq chunks_seq].
  split; [assumption|split; [|split; [assumption|]]].
  - now apply Forall_snoc_bound.
  - apply (NoDup_snoc_fresh chunk_id _ _ (chunks_seq d));
      [assumption | cbn [chunk_id]; lia | assumption].
Qed.

Lemma ids_ok_updateFileStatus (d : Database) (fid : Z) (st : string) :
  ids_ok d -> ids_ok (updateFileStatus d fid st).
Proof.
  intros (Hf & Hc & Hnf & Hnc).
  assert (Hids : map file_id (files (updateFileStatus d fid st))
                 = map file_id (files d)).
  { unfold updateFileStatus. cbn [files]. rewrite map_map.
    apply map_ext. intros row. now destruct (file_id row =? fid). }
  unfold ids_ok. rewrite Hids.
  split; [|split; [assumption|split; assumption]].
  unfold updateFileStatus. cbn [files files_seq].
  apply Forall_map. eapply Forall_impl; [|exact Hf].
  intros row Hrow. now destruct (file_id row =? fid).
Qed.

Section CatalogKeys.
Context {cipher : BlockCipher}.
Variable cs : Z.

Lemma ids_ok_step (ev : Event) (st : State) :
  ids_ok (db (sys st)) -> ids_ok (db (sys (step cs ev st))).
Proof.
  intros Hok. destruct st as [m s]. cbn [sys main] in *.
  destruct ev as [|w|w completes effect]; cbn [step main sys].
  - destruct m as [inp|run i stream|run|run|what]; cbn [main_step].
    + destruct (in_content inp) as [content|]; cbn [sys db]; [|assumption].
      now apply ids_ok_insertFile.
    + destruct (i <? run_chunk_count run); [|assumption].
      destruct (read _ stream) as [chunk rest].
      destruct (select_provider (providers s) i); assumption.
    + destruct (upload_queue s); cbn [sys db]; [|assumption].
      now apply ids_ok_updateFileStatus.
    + assumption.
    + assumption.
  - now rewrite worker_take_db.
  - unfold worker_run.
    destruct (nth_error (workers s) w) as [[t|]|]; [|assumption..].
    unfold with_workers. cbn [db].
    destruct completes.
    + unfold run_task, upload. cbn [db]. now apply ids_ok_insertChunk.
    + now rewrite run_task_failed.
Qed.

(** X10: the primary keys stay primary keys. If the ids of the catalog are
    bounded by its AUTOINCREMENT counters and pairwise distinct when
    [backupFile] is called, they are so after every schedule of the main
    thread and the workers. *)
Theorem ids_ok_exec (inp : Input) (d0 : Database) (st0 : Storage)
  (sched : list Event) :
  ids_ok d0 -> ids_ok (db (sys (exec cs sched (backupFile inp d0 st0)))).
Proof.
  intros Hok.
  assert (H : forall st, ids_ok (db (sys st)) ->
                         ids_ok (db (sys (exec cs sched st)))).
  { induction sched as [|ev sched IH]; intros st Hst; [exact Hst|].
    cbn [exec fold_left]. apply IH. now apply ids_ok_step. }
  apply H. exact Hok.
Qed.
End CatalogKeys.

Lemma ids_ok_exec_witness :
  ids_ok empty_db
  /\ ids_ok (db (sys (@exec demo_cipher CHUNK_SIZE
                        [MainStep; MainStep; WorkerTake 0;
                         WorkerRun 0 true Written; MainStep; MainStep]
                        (backupFile one_byte_file empty_db no_files)))).
Proof.
  assert (H0 : ids_ok empty_db).
  { unfold ids_ok, empty_db. cbn. repeat split; constructor. }
  split; [exact H0|].
  apply (@ids_ok_exec demo_cipher CHUNK_SIZE one_byte_file empty_db no_files).
  exact H0.
Defined.

(* ----------------------------------------------------------------- *)
(** ** [CloudProvider]: [download] after [upload] *)

Lemma append_inj_l (a b c : string) :
  (a ++ b)%string = (a ++ c)%string -> b = c.
Proof.
  induction a as [|x a IH]; simpl; intros H; [exact H|].
  injection H as H. now apply IH.
Qed.

Lemma open_file_written (st : Storage) (path path' : string)
  (data : list byte) :
  resolve st path' = resolve st path ->
  open_file (write_file st path data) path' = Some data.
Proof.
  intros Hsame. unfold open_file, write_file. cbn [resolve objects find fst].
  now rewrite Hsame, String.eqb_refl.
Qed.

Lemma open_file_other (st : Storage) (path path' : string)
  (data : list byte) :
  resolve st path <> resolve st path' ->
  open_file (write_file st path data) path' = open_file st path'.
Proof.
  intros Hne. unfold open_file, write_file. cbn [resolve objects find fst].
  now rewrite (proj2 (String.eqb_neq _ _) Hne).
Qed.

Lemma open_file_absent (st : Storage) (path : string) :
  (forall data, ~ In (resolve st path, data) (objects st)) ->
  open_file st path = None.
Proof.
  intros Habs. unfold open_file.
  destruct (find _ (objects st)) as [[p data]|] eqn:Hfind; [|reflexivity].
  apply find_some in Hfind. destruct Hfind as [Hin Heq].
  cbn [fst] in Heq. apply String.eqb_eq in Heq. subst p.
  now elim (Habs data).
Qed.

(** [download] looks at the file system through [open_file] only. *)
Lemma download_same_file (p : CloudProvider) (filename : string)
  (st st' : Storage) :
  open_file st' (base_path p ++ "/" ++ filename)
  = open_file st (base_path p ++ "/" ++ filename) ->
  download p filename st' = download p filename st.
Proof. intros H. unfold download. now rewrite H. Qed.

(** [download] of a file that is there and fits a vector. *)
Lemma download_open (p : CloudProvider) (filename : string) (st : Storage)
  (content : list byte) :
  open_file st (base_path p ++ "/" ++ filename) = Some content ->
  Z.of_nat (length content) <= vector_max_size ->
  download p filename st = Some content.
Proof.
  intros Hopen Hlen. unfold download. rewrite Hopen.
  unfold vector_max_size in *.
  rewrite to_size_t_small by lia.
  destruct (Z.ltb_spec (2 ^ 63 - 1) (Z.of_nat (length content))); [lia|].
  rewrite read_exact by lia. cbn [fst].
  now rewrite Nat2Z.id, firstn_all.
Qed.

(** X11: what [download] returns after an [upload] follows what the
    stream did, not what [upload] returned. For a name that denotes the
    same file as the one uploaded to: all the data when the stream wrote
    it all, its first [n] bytes when the write stopped there, and what
    [download] returned before when the stream did not open; [upload]
    returns [true] in each of these cases unless its body threw. *)
Theorem upload_download (p : CloudProvider) (data : list byte)
  (filename alias : string) (completes : bool) (effect : Effect)
  (st : Storage) :
  resolve st (base_path p ++ "/" ++ alias)
  = resolve st (base_path p ++ "/" ++ filename) ->
  Z.of_nat (length data) <= vector_max_size ->
  snd (upload p data filename completes effect st) = completes
  /\ download p alias (fst (upload p data filename completes effect st))
     = match effect with
       | Written => Some data
       | Truncated n => Some (firstn n data)
       | NotOpened => download p alias st
       end.
Proof.
  intros Hsame Hlen. split; [reflexivity|].
  unfold upload. cbn [fst].
  destruct effect as [|n|]; cbn [stream_effect].
  - apply download_open; [now apply open_file_written | exact Hlen].
  - apply download_open; [now apply open_file_written|].
    rewrite length_firstn. lia.
  - reflexivity.
Qed.

Lemma upload_download_witness :
  let dropbox := mkCloudProvider "Dropbox" "./backup/dropbox" in
  let st :=
    mkStorage (fun path => path)
              [("./backup/dropbox/file_1_chunk_0.enc"%string, [x09])] in
  (snd (upload dropbox [x01; x02; x03] "file_1_chunk_0.enc" true Written st)
   = true
   /\ download dropbox "file_1_chunk_0.enc"
        (fst (upload dropbox [x01; x02; x03] "file_1_chunk_0.enc" true
                     Written st))
      = Some [x01; x02; x03])
  /\ (snd (upload dropbox [x01; x02; x03] "file_1_chunk_0.enc" true
                  NotOpened st)
      = true
      /\ download dropbox "file_1_chunk_0.enc"
           (fst (upload dropbox [x01; x02; x03] "file_1_chunk_0.enc" true
                        NotOpened st))
         = download dropbox "file_1_chunk_0.enc" st).
Proof.
  intros dropbox st. split.
  - apply (upload_download dropbox [x01; x02; x03] "file_1_chunk_0.enc"
             "file_1_chunk_0.enc" true Written st);
      [reflexivity | vm_compute; discriminate].
  - apply (upload_download dropbox [x01; x02; x03] "file_1_chunk_0.enc"
             "file_1_chunk_0.enc" true NotOpened st);
      [reflexivity | vm_compute; discriminate].
Defined.

(** X12: [download] of a name under which the provider's directory holds
    no file does not return an empty vector: the stream fails to open,
    [tellg] gives [-1], and the vector of [2^64 - 1] bytes cannot be
    constructed. *)
Theorem download_missing (p : CloudProvider) (filename : string)
  (st : Storage) :
  (forall data,
      ~ In (resolve st (base_path p ++ "/" ++ filename), data)
           (objects st)) ->
  download p filename st = None.
Proof.
  intros Habs. unfold download.
  now rewrite (open_file_absent _ _ Habs).
Qed.

Lemma download_missing_witness :
  download (mkCloudProvider "Dropbox" "./backup/dropbox") "file_1_chunk_0.enc"
    (mkStorage (fun path => path)
               [("./backup/gdrive/file_1_chunk_0.enc"%string, [x09])])
  = None.
Proof.
  apply download_missing.
  intros data [H|[]]. discriminate H.
Defined.

(** X13: an [upload] under one name, whatever its outcome, does not
    change what [download] returns for a name that denotes a different
    file at that provider. *)
Theorem upload_keeps_other_files (p : CloudProvider) (data : list byte)
  (filename other : string) (completes : bool) (effect : Effect)
  (st : Storage) :
  resolve st (base_path p ++ "/" ++ filename)
  <> resolve st (base_path p ++ "/" ++ other) ->
  download p other (fst (upload p data filename completes effect st))
  = download p other st.
Proof.
  intros Hne. unfold upload. cbn [fst]. apply download_same_file.
  destruct effect as [|n|]; cbn [stream_effect];
    [now apply open_file_other | now apply open_file_other | reflexivity].
Qed.

Lemma upload_keeps_other_files_witness :
  let dropbox := mkCloudProvider "Dropbox" "./backup/dropbox" in
  let st :=
    mkStorage (fun path => path)
              [("./backup/dropbox/file_1_chunk_1.enc"%string, [x09])] in
  download dropbox "file_1_chunk_1.enc"
    (fst (upload dropbox [x01; x02; x03] "file_1_chunk_0.enc" true Written
                 st))
  = download dropbox "file_1_chunk_1.enc" st.
Proof.
  intros dropbox st. apply upload_keeps_other_files. discriminate.
Defined.

(* ----------------------------------------------------------------- *)
(** ** The names of the stored objects *)

Lemma split_at_char (c : ascii) (s1 s2 r1 r2 : string) :
  avoids c s1 = true -> avoids c s2 = true ->
  (s1 ++ String c r1)%string = (s2 ++ String c r2)%string ->
  s1 = s2 /\ r1 = r2.
Proof.
  revert s2. induction s1 as [|x s1 IH]; intros [|y s2] H1 H2 Heq;
    simpl in *.
  - injection Heq as Heq. now split.
  - injection Heq as Hc _. subst y. rewrite Ascii.eqb_refl in H2.
    discriminate.
  - injection Heq as Hc _. subst x. rewrite Ascii.eqb_refl in H1.
    discriminate.
  - injection Heq as Hxy Heq. subst y.
    apply andb_true_iff in H1. apply andb_true_iff in H2.
    destruct (IH s2 (proj2 H1) (proj2 H2) Heq) as [E1 E2].
    split; congruence.
Qed.

Lemma avoids_string_of_uint (c : ascii) (d : Decimal.uint) :
  avoids c "0123456789" = true ->
  avoids c (DecimalString.NilEmpty.string_of_uint d) = true.
Proof.
  intros Hc. simpl in Hc.
  repeat (apply andb_true_iff in Hc; destruct Hc as [? Hc]).
  induction d; simpl; try (apply andb_true_iff; split); easy.
Qed.

Lemma avoids_to_string (c : ascii) (z : Z) :
  avoids c "-0123456789" = true -> avoids c (to_string z) = true.
Proof.
  intros Hc.
  change (negb (Ascii.eqb "-" c) && avoids c "0123456789" = true) in Hc.
  apply andb_true_iff in Hc. destruct Hc as [Hm Hd].
  assert (Hu : forall d, avoids c (DecimalString.NilZero.string_of_uint d)
                         = true).
  { intros d. destruct d;
      try (apply (avoids_string_of_uint c); exact Hd).
    change (negb (Ascii.eqb "0" c) && true = true).
    change (negb (Ascii.eqb "0" c) && avoids c "123456789" = true) in Hd.
    apply andb_true_iff in Hd. now rewrite (proj1 Hd). }
  unfold to_string, DecimalString.NilZero.string_of_int.
  destruct (Z.to_int z); [apply Hu|].
  cbn [avoids]. rewrite Hm. apply Hu.
Qed.

Lemma to_string_inj (a b : Z) : to_string a = to_string b -> a = b.
Proof.
  intros H. apply DecimalZ.to_int_inj.
  assert (Hnn : forall z, Z.to_int z <> Decimal.Pos Decimal.Nil
                          /\ Z.to_int z <> Decimal.Neg Decimal.Nil).
  { intros [|p|p]; simpl; split; try discriminate;
      intros E; injection E as E;
      now apply DecimalPos.Unsigned.to_uint_nonnil in E. }
  unfold to_string in H.
  apply (f_equal DecimalString.NilZero.int_of_string) in H.
  rewrite !DecimalString.NilZero.isi in H by apply Hnn.
  now injection H.
Qed.

Lemma remote_filename_of_inj (fid fid' i j : Z) :
  remote_filename_of fid i = remote_filename_of fid' j ->
  fid = fid' /\ i = j.
Proof.
  unfold remote_filename_of. intros H.
  apply append_inj_l in H.
  apply (split_at_char "_") in H;
    [ | now apply avoids_to_string | now apply avoids_to_string ].
  destruct H as [Hfid H].
  apply (append_inj_l "chunk_") in H.
  apply (split_at_char ".") in H;
    [ | now apply avoids_to_string | now apply avoids_to_string ].
  split; apply to_string_inj; [exact Hfid | exact (proj1 H)].
Qed.

(** X14: the object name the loop body builds determines the file id and
    the chunk index: two tasks with the same remote filename belong to
    the same file and the same chunk, so the chunks of a run never
    overwrite each other or those of another file. *)
Theorem remote_filename_inj {cipher : BlockCipher} (run run' : Run)
  (p p' : CloudProvider) (i j size size' : Z) (chunk chunk' : list byte) :
  t_remote_filename (make_task run p i size chunk)
  = t_remote_filename (make_task run' p' j size' chunk') ->
  run_file_id run = run_file_id run' /\ i = j.
Proof.
  unfold make_task. cbn [t_remote_filename]. intros H.
  apply append_inj_l in H.
  apply (split_at_char "_") in H;
    [ | now apply avoids_to_string | now apply avoids_to_string ].
  destruct H as [Hfid H].
  apply (append_inj_l "chunk_") in H.
  apply (split_at_char ".") in H;
    [ | now apply avoids_to_string | now apply avoids_to_string ].
  split; apply to_string_inj; [exact Hfid | exact (proj1 H)].
Qed.

Lemma remote_filename_inj_witness :
  run_file_id demo_run = run_file_id demo_run /\ 3 = 3.
Proof.
  apply (@remote_filename_inj demo_cipher demo_run demo_run
           (mkCloudProvider "Dropbox" "./backup/dropbox")
           (mkCloudProvider "OneDrive" "./backup/onedrive")
           3 3 40 40 demo_payload demo_payload).
  reflexivity.
Defined.

(* ----------------------------------------------------------------- *)
(** ** [backupFile] on a file that cannot be opened *)

Lemma exec_cons {cipher : BlockCipher} (cs : Z) (ev : Event)
  (sched : list Event) (st : State) :
  exec cs (ev :: sched) st = exec cs sched (step cs ev st).
Proof. reflexivity. Qed.

Section UnreadableFile.
Context {cipher : BlockCipher}.
Variables (cs : Z) (path : string) (rk ri : list byte) (now : string).
Variables (d0 : Database) (st0 : Storage).

Local Abbreviation unreadable := (mkInput path None rk ri now).

Local Abbreviation thrown :=
  (mkState (Threw ("Cannot open file: " ++ path))
           (mkBackupSystem d0 default_providers st0 []
                           (repeat None NUM_UPLOAD_THREADS) false
                           [OutStarting path])).

Lemma thrown_quiet : quiet (sys thrown).
Proof. split; [reflexivity | repeat constructor]. Qed.

Lemma exec_thrown (sched : list Event) : exec cs sched thrown = thrown.
Proof.
  induction sched as [|ev sched IH]; [reflexivity|].
  rewrite exec_cons.
  destruct ev as [|w|w completes effect].
  - exact IH.
  - rewrite worker_step_quiet by (reflexivity || apply thrown_quiet).
    exact IH.
  - rewrite worker_step_quiet by (reflexivity || apply thrown_quiet).
    exact IH.
Qed.

Lemma exec_unreadable (sched : list Event) :
  exec cs sched (backupFile unreadable d0 st0)
  = if (main_steps sched =? 0)%nat then backupFile unreadable d0 st0
    else thrown.
Proof.
  induction sched as [|ev sched IH]; [reflexivity|].
  rewrite exec_cons.
  destruct ev as [|w|w completes effect].
  - change (step cs MainStep (backupFile unreadable d0 st0)) with thrown.
    rewrite exec_thrown. reflexivity.
  - rewrite worker_step_quiet by (reflexivity || apply quiet_new).
    exact IH.
  - rewrite worker_step_quiet by (reflexivity || apply quiet_new).
    exact IH.
Qed.

(** X15: when the file cannot be opened, [backupFile] throws
    "Cannot open file: <path>" as soon as its thread runs, under every
    schedule; it has printed the starting line only, no file record was
    inserted, nothing was queued or stored, and the workers stay idle. *)
Theorem backup_of_unreadable_file :
  (forall sched : list Event,
      let st := exec cs sched (backupFile unreadable d0 st0) in
      db (sys st) = d0 /\ storage (sys st) = st0
      /\ outstanding (sys st) = [])
  /\ (forall s1 s2 : list Event,
         exec cs (s1 ++ MainStep :: s2) (backupFile unreadable d0 st0)
         = thrown).
Proof.
  split.
  - intros sched st. unfold st. rewrite exec_unreadable.
    now destruct (main_steps sched =? 0)%nat.
  - intros s1 s2. rewrite exec_unreadable, main_steps_app.
    cbn [main_steps filter is_main length].
    now rewrite Nat.add_succ_r.
Qed.
End UnreadableFile.

(* ----------------------------------------------------------------- *)
(** ** The loop of [backupFile] and the chunker *)

Lemma select_provider_default (i : Z) :
  select_provider default_providers i = Some (provider_for i).
Proof.
  unfold select_provider, provider_for, default_providers.
  cbn [length Z.of_nat Pos.of_succ_nat Pos.succ].
  apply nth_error_nth'.
  unfold provider_index.
  pose proof (Z.mod_pos_bound (to_size_t i) 3 ltac:(lia)).
  cbn [length]. lia.
Qed.


Section LoopAndChunker.
Context {cipher : BlockCipher}.
Variable cs : Z.


End LoopAndChunker.

(* ----------------------------------------------------------------- *)
(** ** No chunk is lost or handled twice *)

Lemma NoDup_all_indices (n : Z) : NoDup (all_indices n).
Proof.
  unfold all_indices.
  assert (H : forall l : list nat, NoDup l -> NoDup (map Z.of_nat l)).
  { induction 1 as [|x l Hx _ IH]; [constructor|].
    cbn [map]. constructor; [|exact IH].
    intros Hin. apply in_map_iff in Hin. destruct Hin as (y & Hy & Hin).
    apply Nat2Z.inj in Hy. now subst y. }
  apply H, seq_NoDup.
Qed.

Lemma accounted_Permutation (d0 : Database) (st : State) (run : Run)
  (n : Z) :
  catalog_ok d0 ->
  tasks_of_run d0 (sys st) ->
  run_file_id run = files_seq d0 + 1 ->
  balanced d0 (sys st) n ->
  Permutation (accounted st run) (all_indices n).
Proof.
  intros Hok Htasks Hfid Hbal.
  apply (Permutation_count_occ Z.eq_dec). intros x.
  unfold accounted.
  rewrite Hfid, (uploaded_indices_new d0 (sys st) Hok Htasks).
  specialize (Hbal x). unfold cnt in Hbal.
  rewrite !count_occ_app. lia.
Qed.



(* ----------------------------------------------------------------- *)
(** ** Restoring from catalog and storage, and earlier backups *)

Lemma provider_for_cases (i : Z) :
  provider_for i = mkCloudProvider "GoogleDrive" "./backup/gdrive"
  \/ provider_for i = mkCloudProvider "Dropbox" "./backup/dropbox"
  \/ provider_for i = mkCloudProvider "OneDrive" "./backup/onedrive".
Proof.
  unfold provider_for, provider_index.
  pose proof (Z.mod_pos_bound (to_size_t i) 3 ltac:(lia)) as Hb.
  destruct (Z.to_nat (to_size_t i mod 3)) as [|[|[|n]]] eqn:E;
    cbn; auto. lia.
Qed.

Lemma chunk_loop_indices (cs fs : Z) (n : nat) :
  forall (i : Z) (stream : list byte),
    map fst (chunk_loop cs fs n i stream)
    = map (fun k => i + Z.of_nat k) (seq 0 n).
Proof.
  induction n as [|n IH]; intros i stream; [reflexivity|].
  cbn [chunk_loop].
  destruct (read (chunk_size_at cs fs i) stream) as [chunk rest].
  cbn [map fst seq]. rewrite IH, <- seq_shift, map_map.
  f_equal; [lia|]. apply map_ext. intros k. lia.
Qed.

Lemma chunks_of_indices (cs : Z) (content : list byte) :
  map fst (chunks_of cs content)
  = all_indices (chunk_count_of cs (file_size_of content)).
Proof.
  unfold chunks_of, all_indices, loop_iterations.
  rewrite chunk_loop_indices. apply map_ext. intros k. lia.
Qed.

Lemma chunks_of_functional (cs : Z) (content : list byte) (i : Z)
  (c c' : list byte) :
  In (i, c) (chunks_of cs content) -> In (i, c') (chunks_of cs content) ->
  c = c'.
Proof.
  pose proof (NoDup_all_indices (chunk_count_of cs (file_size_of content)))
    as Hnd.
  rewrite <- chunks_of_indices in Hnd.
  induction (chunks_of cs content) as [|[j x] l IH]; [intros []|].
  cbn [map fst] in Hnd. inversion Hnd as [|? ? Hnin Hnd']. subst.
  intros [H1|H1] [H2|H2].
  - congruence.
  - injection H1 as -> ->. elim Hnin.
    apply in_map_iff. now exists (i, c').
  - injection H2 as -> ->. elim Hnin.
    apply in_map_iff. now exists (i, c).
  - now apply IH.
Qed.

Lemma length_read (n : Z) (stream : list byte) :
  length (fst (read n stream)) = Z.to_nat n.
Proof.
  unfold read. cbn [fst].
  rewrite length_app, repeat_length, length_firstn. lia.
Qed.

Lemma chunk_loop_sizes (cs fs : Z) (n : nat) :
  forall (i : Z) (stream : list byte) (j : Z) (c : list byte),
    In (j, c) (chunk_loop cs fs n i stream) ->
    length c = Z.to_nat (chunk_size_at cs fs j).
Proof.
  induction n as [|n IH]; intros i stream j c; [intros []|].
  cbn [chunk_loop].
  pose proof (length_read (chunk_size_at cs fs i) stream) as Hlen.
  destruct (read (chunk_size_at cs fs i) stream) as [chunk rest].
  cbn [fst] in Hlen.
  intros [H|H]; [now injection H as <- <- | now apply IH in H].
Qed.

Lemma chunk_size_at_bounds (cs fs i : Z) :
  0 < cs -> 0 <= chunk_size_at cs fs i <= cs.
Proof.
  intros Hcs. unfold chunk_size_at.
  pose proof (Z.mod_pos_bound (fs - to_size_t (to_size_t i * cs)) (2 ^ 64)
                ltac:(lia)) as Hb.
  unfold to_size_t at 1. lia.
Qed.

Lemma to_int64_small (z : Z) : 0 <= z <= INT_MAX -> to_int64 z = z.
Proof.
  unfold to_int64, INT_MAX. intros H.
  rewrite Z.mod_small by lia. lia.
Qed.

Lemma chunks_of_concat (cs : Z) (content : list byte) :
  0 < cs ->
  Z.of_nat (length content) + cs - 1 < 2 ^ 64 ->
  ceil_div (Z.of_nat (length content)) cs <= INT_MAX ->
  concat (map snd (chunks_of cs content)) = content.
Proof.
  intros Hcs Hfit Hint.
  set (len := Z.of_nat (length content)) in *.
  assert (Hc0 : 0 <= ceil_div len cs).
  { unfold ceil_div. apply Z.div_pos; lia. }
  assert (Hfs : file_size_of content = len).
  { unfold file_size_of. apply to_size_t_small. lia. }
  assert (Hit : loop_iterations cs len = Z.to_nat (ceil_div len cs)).
  { unfold loop_iterations, chunk_count_of.
    rewrite to_size_t_small by lia.
    fold (ceil_div len cs). now rewrite to_int_small by lia. }
  unfold chunks_of. rewrite Hfs, Hit.
  assert (Hrem : 0 < Z.of_nat (length content) ->
                 len = 0 * cs + Z.of_nat (length content)) by (subst len; lia).
  assert (Hn : Z.of_nat (Z.to_nat (ceil_div len cs))
               = ceil_div (Z.of_nat (length content)) cs)
    by now rewrite Z2Nat.id.
  now destruct (chunk_loop_spec cs len Hcs ltac:(lia)
                  (Z.to_nat (ceil_div len cs)) 0 content (Z.le_refl 0)
                  Hrem Hn) as (_ & _ & Hcat).
Qed.

Lemma length_encrypt_le {cipher : BlockCipher} (enc : Encryption)
  (P : list byte) :
  valid_Encryption enc ->
  Z.of_nat (length P) + Z.of_nat AES_BLOCK_SIZE <= INT_MAX ->
  (length (encrypt enc P) <= length P + AES_BLOCK_SIZE)%nat.
Proof.
  intros Hvalid Hint.
  rewrite encrypt_cbc by assumption.
  rewrite (length_cbc_ciphertext _ (length P)) by (lia || apply Hvalid).
  pose proof (Nat.div_mod_eq (length P) AES_BLOCK_SIZE) as Hdm.
  unfold AES_BLOCK_SIZE in *. lia.
Qed.

Lemma firstn_prefix {A} (a b : list A) : firstn (length a) (a ++ b) = a.
Proof.
  induction a as [|x a IH]; [reflexivity|]. cbn [length app firstn].
  now rewrite IH.
Qed.

Lemma storage_worker_take (w : nat) (s : BackupSystem) :
  storage (worker_take w s) = storage s.
Proof.
  unfold worker_take. destruct (stop_workers s); [reflexivity|].
  destruct (nth_error (workers s) w) as [[held|]|]; try reflexivity.
  now destruct (upload_queue s).
Qed.

Lemma resolve_stream_effect (sto : Storage) (path : string)
  (data : list byte) (effect : Effect) :
  resolve (stream_effect sto path data effect) = resolve sto.
Proof. now destruct effect. Qed.

Lemma alias_free_resolve (a b : Storage) :
  resolve a = resolve b -> alias_free b -> alias_free a.
Proof. unfold alias_free. intros ->. trivial. Qed.

Lemma alias_free_no_files : alias_free no_files.
Proof. intros a b _ _ H. exact H. Qed.

Lemma held_outstanding (w : nat) (s : BackupSystem) (t : Task) :
  nth_error (workers s) w = Some (Some t) -> In t (outstanding s).
Proof.
  intros Hw. rewrite outstanding_eq, in_app_iff. right.
  apply in_flat_map. exists (Some t).
  split; [now apply nth_error_In with w | now left].
Qed.

Lemma outstanding_worker_take (w : nat) (s : BackupSystem) (t : Task) :
  In t (outstanding (worker_take w s)) -> In t (outstanding s).
Proof.
  unfold worker_take.
  destruct (stop_workers s); [tauto|].
  destruct (nth_error (workers s) w) as [[held|]|] eqn:Hw; try tauto.
  destruct (upload_queue s) as [|task rest] eqn:Hq; [tauto|].
  rewrite !outstanding_eq. unfold with_workers.
  cbn [upload_queue workers]. rewrite Hq, !in_app_iff.
  intros [H|H]; [left; now right|].
  apply in_set_worker in H. destruct H as [H|H]; [now right|].
  injection H as ->. left. now left.
Qed.

Lemma outstanding_worker_run (w : nat) (completes : bool)
  (effect : Effect) (s : BackupSystem) (t : Task) :
  In t (outstanding (worker_run w completes effect s)) ->
  In t (outstanding s).
Proof.
  unfold worker_run.
  destruct (nth_error (workers s) w) as [[held|]|] eqn:Hw; try tauto.
  rewrite !outstanding_eq. unfold with_workers.
  cbn [upload_queue workers].
  assert (Hq : upload_queue (run_task held completes effect s)
               = upload_queue s)
    by (unfold run_task, upload; now destruct completes).
  assert (Hws : workers (run_task held completes effect s) = workers s)
    by (unfold run_task, upload; now destruct completes).
  rewrite Hq, Hws, !in_app_iff.
  intros [H|H]; [now left|].
  apply in_set_worker in H. destruct H as [H|H]; [now right|discriminate].
Qed.

(** What a worker running the task [t] changes. *)
Lemma worker_run_effect (w : nat) (completes : bool) (effect : Effect)
  (s : BackupSystem) (t : Task) :
  nth_error (workers s) w = Some (Some t) ->
  providers (worker_run w completes effect s) = providers s
  /\ files (db (worker_run w completes effect s)) = files (db s)
  /\ storage (worker_run w completes effect s)
     = stream_effect (storage s) (object_path t) (t_encrypted t) effect
  /\ (completes = false -> db (worker_run w completes effect s) = db s)
  /\ (completes = true ->
      chunks (db (worker_run w completes effect s))
      = chunks (db s) ++ [row_of (db s) t]).
Proof.
  intros Hw. unfold worker_run. rewrite Hw.
  unfold with_workers, run_task, upload, object_path.
  destruct completes; cbn [db providers storage files chunks insertChunk];
    repeat split; try discriminate; reflexivity.
Qed.

Section Restore.
Context {cipher : BlockCipher}.
Variables (cs : Z) (path : string) (content rk ri : list byte).
Variables (now : string) (d0 : Database) (st0 : Storage).
Hypothesis d0_ok : catalog_ok d0.

Local Abbreviation the_run := (run_of cs rk ri d0 content).
Local Abbreviation the_tasks :=
  (map (task_for cs the_run) (chunks_of cs content)).
Local Abbreviation queued := (Queued cs path content rk ri now d0 st0).
Local Abbreviation start :=
  (backupFile (mkInput path (Some content) rk ri now) d0 st0).

Lemma the_run_file_id : run_file_id the_run = files_seq d0 + 1.
Proof.
  cbn [run_of run_file_id]. apply to_int_small.
  destruct d0_ok as (H0 & H1 & _). lia.
Qed.

Lemma object_path_inj (t t' : Task) :
  In t the_tasks -> In t' the_tasks ->
  object_path t = object_path t' -> t = t'.
Proof.
  intros Ht Ht' Hpath.
  apply in_map_iff in Ht. destruct Ht as ([i c] & <- & Hin).
  apply in_map_iff in Ht'. destruct Ht' as ([j c'] & <- & Hin').
  assert (Hij : i = j).
  { revert Hpath. unfold object_path, task_for, make_task.
    cbn [t_provider t_remote_filename fst snd].
    change (("file_" ++ to_string (run_file_id the_run) ++ "_chunk_"
             ++ to_string i ++ ".enc")%string)
      with (remote_filename_of (run_file_id the_run) i).
    change (("file_" ++ to_string (run_file_id the_run) ++ "_chunk_"
             ++ to_string j ++ ".enc")%string)
      with (remote_filename_of (run_file_id the_run) j).
    destruct (provider_for_cases i) as [Hi|[Hi|Hi]];
      destruct (provider_for_cases j) as [Hj|[Hj|Hj]];
      rewrite Hi, Hj; cbn [base_path]; intros H;
      try (apply append_inj_l in H; apply (append_inj_l "/") in H;
           now apply remote_filename_of_inj in H);
      cbn [append] in H; discriminate H. }
  subst j. now rewrite (chunks_of_functional cs content i c c').
Qed.

Lemma task_object_path (t : Task) :
  In t the_tasks -> is_object_path (object_path t).
Proof.
  intros Ht. apply in_map_iff in Ht. destruct Ht as ([i c] & <- & _).
  exists (provider_for i), (run_file_id the_run), i.
  split; [|reflexivity].
  destruct (provider_for_cases i) as [H|[H|H]]; rewrite H; simpl; tauto.
Qed.

Lemma other_file_path (p : CloudProvider) (fid' i : Z) (t : Task) :
  In p default_providers -> In t the_tasks ->
  (base_path p ++ "/" ++ remote_filename_of fid' i)%string = object_path t ->
  fid' = run_file_id the_run.
Proof.
  intros Hp Ht. apply in_map_iff in Ht. destruct Ht as ([j c] & <- & _).
  unfold object_path, task_for, make_task.
  cbn [t_provider t_remote_filename fst snd].
  change (("file_" ++ to_string (run_file_id the_run) ++ "_chunk_"
           ++ to_string j ++ ".enc")%string)
    with (remote_filename_of (run_file_id the_run) j).
  destruct Hp as [<-|[<-|[<-|[]]]];
    destruct (provider_for_cases j) as [Hj|[Hj|Hj]];
    rewrite Hj; cbn [base_path]; intros H;
    try (apply append_inj_l in H; apply (append_inj_l "/") in H;
         now apply remote_filename_of_inj in H);
    cbn [append] in H; discriminate H.
Qed.

Lemma key_row_files (d d' : Database) (enc : Encryption) :
  files d' = files d -> key_row d0 d path enc -> key_row d0 d' path enc.
Proof. intros Hf (frow & H). exists frow. now rewrite Hf. Qed.

Lemma key_row_completed (d : Database) (enc : Encryption) (st : string) :
  key_row d0 d path enc ->
  key_row d0 (updateFileStatus d (files_seq d0 + 1) st) path enc.
Proof.
  intros (frow & Hf & Hid & Hp & Hk & Hi).
  exists (mkFileRow (file_id frow) (original_path frow) (file_size frow)
            (chunk_count frow) (encryption_key frow) (encryption_iv frow)
            (backup_date frow) st).
  cbn [file_id original_path encryption_key encryption_iv].
  split; [|now repeat split].
  unfold updateFileStatus. cbn [files]. rewrite Hf, map_app.
  cbn [map]. rewrite Hid, Z.eqb_refl. f_equal. clear Hf.
  pose proof (older_file_ids d0 d0_ok) as Hold.
  induction Hold as [|row l Hrow _ IH]; [reflexivity|].
  cbn [map]. now rewrite Hrow, IH.
Qed.

Lemma storage_main_step (st : State) :
  storage (sys (step cs MainStep st)) = storage (sys st).
Proof.
  destruct st as [m s]. cbn [step main sys].
  destruct m as [inp|run i stream|run|run|what]; cbn [main_step].
  - now destruct (in_content inp).
  - destruct (i <? run_chunk_count run); [|reflexivity].
    destruct (read _ stream) as [chunk rest].
    now destruct (select_provider (providers s) i).
  - now destruct (upload_queue s).
  - reflexivity.
  - reflexivity.
Qed.

Lemma resolve_step (ev : Event) (st : State) :
  resolve (storage (sys (step cs ev st))) = resolve (storage (sys st)).
Proof.
  destruct ev as [|w|w completes effect].
  - now rewrite storage_main_step.
  - cbn [step sys]. now rewrite storage_worker_take.
  - cbn [step sys].
    destruct (nth_error (workers (sys st)) w) as [[t|]|] eqn:Hw;
      [ | unfold worker_run; now rewrite Hw .. ].
    destruct (worker_run_effect w completes effect (sys st) t Hw)
      as (_ & _ & Hsto & _).
    rewrite Hsto. apply resolve_stream_effect.
Qed.

(** *** The tasks around are tasks of the file's chunks *)

Lemma Queued_start : queued start.
Proof.
  unfold Queued, backupFile. cbn [main sys].
  split; [reflexivity|].
  rewrite (new_chunks_start d0 (BackupSystem_new d0 st0) eq_refl).
  split; [now rewrite app_nil_r|].
  split; [intros t []|]. now split.
Qed.

Lemma Queued_worker_take (w : nat) (st : State) :
  queued st -> queued (step cs (WorkerTake w) st).
Proof.
  unfold Queued. cbn [step main sys].
  intros (Hp & Hc & Ho & Hm).
  assert (Hdb : db (worker_take w (sys st)) = db (sys st))
    by apply worker_take_db.
  assert (Hprov : providers (worker_take w (sys st)) = providers (sys st)).
  { unfold worker_take. destruct (stop_workers (sys st)); [reflexivity|].
    destruct (nth_error (workers (sys st)) w) as [[held|]|];
      try reflexivity.
    now destruct (upload_queue (sys st)). }
  unfold new_chunks in *. rewrite Hdb, Hprov.
  split; [assumption|]. split; [assumption|].
  split; [intros t Ht; now apply Ho, outstanding_worker_take with w|].
  destruct (main st); try assumption.
  destruct Hm as [Hinp Hsys]. split; [assumption|].
  destruct st as [m s]. cbn [sys] in *. subst s.
  apply (f_equal sys
           (worker_step_quiet cs (WorkerTake w)
              (mkState m (BackupSystem_new d0 st0)) eq_refl
              (quiet_new d0 st0))).
Qed.

Lemma Queued_worker_run (w : nat) (completes : bool) (effect : Effect)
  (st : State) :
  queued st -> queued (step cs (WorkerRun w completes effect) st).
Proof.
  intros H.
  destruct (nth_error (workers (sys st)) w) as [[t|]|] eqn:Hw;
    [ | destruct st as [m s]; cbn [step main sys] in *;
        unfold worker_run; now rewrite Hw .. ].
  revert H. unfold Queued. cbn [step main sys].
  intros (Hp & Hc & Ho & Hm).
  destruct (worker_run_effect w completes effect (sys st) t Hw)
    as (Hprov & Hfiles & _ & Hfail & Hdone).
  assert (Hmain :
    match main st with
    | Start inp =>
        inp = mkInput path (Some content) rk ri now
        /\ worker_run w completes effect (sys st) = BackupSystem_new d0 st0
    | Chunking r i stream =>
        r = the_run
        /\ key_row d0 (db (worker_run w completes effect (sys st))) path
                   (run_enc the_run)
        /\ exists done,
             chunks_of cs content
             = done ++ chunk_loop cs (run_file_size the_run)
                                  (Z.to_nat (run_chunk_count the_run - i))
                                  i stream
    | Waiting r | Finished r =>
        r = the_run
        /\ key_row d0 (db (worker_run w completes effect (sys st))) path
                   (run_enc the_run)
    | Threw _ => False
    end).
  { destruct (main st) as [inp|r i stream|r|r|what].
    - destruct Hm as [_ Hsys]. rewrite Hsys in Hw.
      apply nth_error_In, repeat_spec in Hw. discriminate.
    - destruct Hm as (Hr & Hk & Hd).
      split; [assumption|]. split; [|assumption].
      now apply key_row_files with (db (sys st)).
    - destruct Hm as (Hr & Hk). split; [assumption|].
      now apply key_row_files with (db (sys st)).
    - destruct Hm as (Hr & Hk). split; [assumption|].
      now apply key_row_files with (db (sys st)).
    - assumption. }
  split; [now rewrite Hprov|].
  assert (Hout : forall t',
             In t' (outstanding (worker_run w completes effect (sys st))) ->
             In t' the_tasks).
  { intros t' Hin. apply Ho. eapply outstanding_worker_run. exact Hin. }
  destruct completes.
  - pose proof (Hdone eq_refl) as Hchunks.
    pose proof (new_chunks_insert d0 (sys st) _ _ Hc Hchunks) as Hnew.
    rewrite Hnew, Hchunks.
    split; [now rewrite Hc at 1; rewrite <- app_assoc|].
    split; assumption.
  - pose proof (Hfail eq_refl) as Hdb.
    split; [unfold new_chunks; rewrite Hdb; exact Hc|].
    split; [exact Hout | exact Hmain].
Qed.

Lemma Queued_main_step (st : State) :
  queued st -> queued (step cs MainStep st).
Proof.
  destruct st as [m s]. unfold Queued. cbn [step main sys].
  intros (Hp & Hc & Ho & Hm).
  destruct m as [inp|r i stream|r|r|what]; cbn [main_step].
  - destruct Hm as [-> ->].
    unfold BackupSystem_new, getKey, insertFile.
    cbn [in_content in_filepath in_rand_key in_rand_iv in_now main sys
         db providers storage upload_queue workers stop_workers output
         fst snd].
    split; [reflexivity|].
    unfold new_chunks. cbn [db chunks]. rewrite skipn_all, app_nil_r.
    split; [reflexivity|]. split; [intros t []|].
    split; [reflexivity|]. split.
    + eexists. cbn [files]. split; [reflexivity|]. now repeat split.
    + exists []. cbn [app run_of run_file_size run_chunk_count].
      now rewrite Z.sub_0_r.
  - destruct Hm as (-> & Hk & done & Hdone).
    destruct (Z.ltb_spec i (run_chunk_count the_run)) as [Hlt|Hge];
      [|cbn [main sys]; repeat split; assumption].
    replace (Z.to_nat (run_chunk_count the_run - i))
      with (S (Z.to_nat (run_chunk_count the_run - (i + 1))))
      in Hdone by lia.
    cbn [chunk_loop] in Hdone.
    destruct (read (chunk_size_at cs (run_file_size the_run) i) stream)
      as [chunk rest].
    rewrite Hp, select_provider_default. cbn [main sys].
    unfold with_workers. cbn [db providers storage].
    split; [assumption|]. split; [assumption|]. split.
    + intros t. rewrite outstanding_eq. cbn [upload_queue workers].
      rewrite <- app_assoc, in_app_iff. intros [H|H].
      * apply Ho. rewrite outstanding_eq, in_app_iff. now left.
      * cbn [app] in H. destruct H as [<-|H].
        -- apply in_map_iff. exists (i, chunk). split; [reflexivity|].
           rewrite Hdone. apply in_or_app. right. now left.
        -- apply Ho. rewrite outstanding_eq, in_app_iff. now right.
    + split; [reflexivity|]. split; [assumption|].
      exists (done ++ [(i, chunk)]). now rewrite <- app_assoc.
  - destruct Hm as (-> & Hk).
    destruct (upload_queue s) eqn:Hq; cbn [main sys];
      [|repeat split; assumption].
    cbn [db providers storage].
    split; [assumption|]. split; [assumption|]. split.
    + intros t. rewrite outstanding_eq. cbn [upload_queue workers].
      intros H. apply Ho. now rewrite outstanding_eq, Hq.
    + split; [reflexivity|].
      rewrite the_run_file_id. now apply key_row_completed.
  - cbn [main sys]. tauto.
  - contradiction.
Qed.

Lemma Queued_step (ev : Event) (st : State) :
  queued st -> queued (step cs ev st).
Proof.
  destruct ev as [|w|w completes effect].
  - apply Queued_main_step.
  - apply Queued_worker_take.
  - apply Queued_worker_run.
Qed.

Lemma Queued_exec (sched : list Event) : queued (exec cs sched start).
Proof.
  assert (H : forall st, queued st -> queued (exec cs sched st)).
  { induction sched as [|ev sched IH]; intros st Hst; [exact Hst|].
    rewrite exec_cons. now apply IH, Queued_step. }
  apply H, Queued_start.
Qed.

Lemma resolve_exec (sched : list Event) :
  resolve (storage (sys (exec cs sched start))) = resolve st0.
Proof.
  assert (H : forall st, resolve (storage (sys (exec cs sched st)))
                         = resolve (storage (sys st))).
  { induction sched as [|ev sched IH]; intros st; [reflexivity|].
    rewrite exec_cons, IH. apply resolve_step. }
  now rewrite H.
Qed.

(** *** Behind the rows there are the objects *)

Lemma row_stored_written (sto : Storage) (t : Task) (row : ChunkRow) :
  alias_free sto -> In t the_tasks ->
  row_stored the_tasks sto row ->
  row_stored the_tasks (write_file sto (object_path t) (t_encrypted t)) row.
Proof.
  intros Hfree Ht (t' & d & Hin & Hrow & Hopen).
  exists t', d. split; [assumption|]. split; [assumption|].
  destruct (string_dec (resolve sto (object_path t))
                       (resolve sto (object_path t'))) as [E|N].
  - assert (Heq : t = t').
    { apply object_path_inj; try assumption.
      apply Hfree; try assumption; now apply task_object_path. }
    subst t'. now apply open_file_written.
  - now rewrite open_file_other.
Qed.

Lemma rows_stored_step (ev : Event) (st : State) :
  queued st -> alias_free (storage (sys st)) ->
  sound_upload ev = true ->
  rows_stored the_tasks d0 (sys st) ->
  rows_stored the_tasks d0 (sys (step cs ev st)).
Proof.
  unfold rows_stored. intros Hq Hfree Hev Hrows.
  destruct ev as [|w|w completes effect].
  - rewrite storage_main_step. unfold new_chunks.
    rewrite step_MainStep. cbn [sys]. rewrite main_step_chunks.
    exact Hrows.
  - cbn [step sys]. rewrite storage_worker_take. unfold new_chunks.
    rewrite worker_take_db. exact Hrows.
  - cbn [step sys].
    destruct (nth_error (workers (sys st)) w) as [[t|]|] eqn:Hw;
      [ | unfold worker_run; now rewrite Hw .. ].
    destruct Hq as (_ & Hc & Ho & _).
    assert (Ht : In t the_tasks) by now apply Ho, held_outstanding with w.
    destruct (worker_run_effect w completes effect (sys st) t Hw)
      as (_ & _ & Hsto & Hfail & Hdone).
    rewrite Hsto.
    assert (Hold : forall sto',
               (forall row, row_stored the_tasks (storage (sys st)) row ->
                            row_stored the_tasks sto' row) ->
               completes = false ->
               Forall (row_stored the_tasks sto')
                      (new_chunks d0 (worker_run w completes effect (sys st)))).
    { intros sto' Hkeep Hcompl. unfold new_chunks.
      rewrite (Hfail Hcompl).
      eapply Forall_impl; [|exact Hrows]. exact Hkeep. }
    destruct effect as [|n|]; cbn [stream_effect].
    + destruct completes.
      * rewrite (new_chunks_insert d0 (sys st) _ _ Hc (Hdone eq_refl)).
        apply Forall_app. split.
        -- eapply Forall_impl; [|exact Hrows].
           intros row. now apply row_stored_written.
        -- repeat constructor. exists t, (db (sys st)).
           split; [assumption|]. split; [reflexivity|].
           now apply open_file_written.
      * apply Hold; [|reflexivity].
        intros row. now apply row_stored_written.
    + destruct completes; discriminate Hev.
    + destruct completes; [discriminate Hev|].
      now apply Hold.
Qed.

Lemma rows_stored_exec (sched : list Event) :
  alias_free st0 ->
  forallb sound_upload sched = true ->
  rows_stored the_tasks d0 (sys (exec cs sched start)).
Proof.
  intros Hfree.
  assert (H : forall st,
             queued st -> resolve (storage (sys st)) = resolve st0 ->
             rows_stored the_tasks d0 (sys st) ->
             forallb sound_upload sched = true ->
             rows_stored the_tasks d0 (sys (exec cs sched st))).
  { induction sched as [|ev sched IH]; intros st Hq Hres Hrows Hall;
      [exact Hrows|].
    cbn [forallb] in Hall. apply andb_true_iff in Hall.
    destruct Hall as [Hev Hall]. rewrite exec_cons. apply IH.
    - now apply Queued_step.
    - now rewrite resolve_step.
    - apply rows_stored_step; try assumption.
      now apply alias_free_resolve with st0.
    - exact Hall. }
  apply H; [apply Queued_start | reflexivity | ].
  unfold rows_stored, backupFile. cbn [sys].
  rewrite (new_chunks_start d0 (BackupSystem_new d0 st0) eq_refl).
  constructor.
Qed.

(** *** What was stored before stays *)

Lemma objects_added_step (ev : Event) (st : State) :
  queued st ->
  objects_added the_tasks st0 (storage (sys st)) ->
  objects_added the_tasks st0 (storage (sys (step cs ev st))).
Proof.
  intros Hst Hadd. destruct ev as [|w|w completes effect].
  - now rewrite storage_main_step.
  - cbn [step sys]. now rewrite storage_worker_take.
  - cbn [step sys].
    destruct (nth_error (workers (sys st)) w) as [[t|]|] eqn:Hw;
      [ | unfold worker_run; now rewrite Hw .. ].
    destruct (worker_run_effect w completes effect (sys st) t Hw)
      as (_ & _ & Hsto & _).
    rewrite Hsto.
    assert (Ht : In t the_tasks).
    { destruct Hst as (_ & _ & Ho & _). now apply Ho, held_outstanding with w. }
    destruct Hadd as (Hres & added & Heq & Hall).
    assert (Hwrite : forall data,
               objects_added the_tasks st0
                 (write_file (storage (sys st)) (object_path t) data)).
    { intros data. split; [exact Hres|].
      exists ((resolve st0 (object_path t), data) :: added).
      unfold write_file. cbn [objects]. rewrite Hres, Heq.
      split; [reflexivity|].
      constructor; [|exact Hall]. now exists t. }
    destruct effect as [|n|]; cbn [stream_effect];
      [apply Hwrite | apply Hwrite | ].
    split; [exact Hres|]. now exists added.
Qed.

Lemma objects_added_exec (sched : list Event) :
  objects_added the_tasks st0 (storage (sys (exec cs sched start))).
Proof.
  assert (H : forall st,
             queued st ->
             objects_added the_tasks st0 (storage (sys st)) ->
             objects_added the_tasks st0 (storage (sys (exec cs sched st)))).
  { induction sched as [|ev sched IH]; intros st Hst Hadd; [exact Hadd|].
    rewrite exec_cons. apply IH.
    - now apply Queued_step.
    - now apply objects_added_step. }
  apply H; [apply Queued_start|].
  split; [reflexivity|]. exists []. split; [reflexivity | constructor].
Qed.

Lemma earlier_objects_kept (sched : list Event) (p : CloudProvider)
  (fid' i : Z) :
  alias_free st0 ->
  In p default_providers -> fid' <> files_seq d0 + 1 ->
  download p (remote_filename_of fid' i)
           (storage (sys (exec cs sched start)))
  = download p (remote_filename_of fid' i) st0.
Proof.
  intros Hfree Hp Hfid.
  destruct (objects_added_exec sched) as (Hres & added & Heq & Hall).
  apply download_same_file. unfold open_file. rewrite Hres, Heq.
  rewrite find_app_first.
  replace (find _ added) with (@None (string * list byte)); [reflexivity|].
  symmetry. clear Heq. induction Hall as [|e l He _ IH]; [reflexivity|].
  cbn [find].
  destruct (String.eqb_spec (fst e)
              (resolve st0 (base_path p ++ "/" ++ remote_filename_of fid' i)))
    as [E|N]; [|exact IH].
  destruct He as (t & Ht & Hpath). elim Hfid.
  rewrite <- the_run_file_id.
  apply (other_file_path p fid' i t Hp Ht).
  apply Hfree.
  - now exists p, fid', i.
  - now apply task_object_path.
  - congruence.
Qed.

Lemma earlier_rows_kept (sched : list Event) :
  firstn (length (files d0)) (files (db (sys (exec cs sched start))))
  = files d0
  /\ firstn (length (chunks d0)) (chunks (db (sys (exec cs sched start))))
     = chunks d0.
Proof.
  destruct (Queued_exec sched) as (_ & Hc & _ & Hm).
  split.
  - destruct (main (exec cs sched start)) as [inp|r j stream|r|r|what].
    + destruct Hm as [_ ->]. apply firstn_all.
    + destruct Hm as (_ & (frow & -> & _) & _). apply firstn_prefix.
    + destruct Hm as (_ & (frow & -> & _)). apply firstn_prefix.
    + destruct Hm as (_ & (frow & -> & _)). apply firstn_prefix.
    + contradiction.
  - rewrite Hc. apply firstn_prefix.
Qed.

(** *** Restoring a row *)

Hypothesis cs_pos : 0 < cs.
Hypothesis cs_int : cs + Z.of_nat AES_BLOCK_SIZE <= INT_MAX.
Hypothesis rk_len : (32 <= length rk)%nat.
Hypothesis ri_len : (16 <= length ri)%nat.
Hypothesis st0_ok : alias_free st0.
Variable sched : list Event.
Hypothesis sched_ok : forallb sound_upload sched = true.

Local Abbreviation final := (exec cs sched start).

(** A row of the run's file in the catalog, the file's record, the chunk
    it stands for and the object stored for it. *)
Lemma stored_row_restores (row : ChunkRow) :
  In row (chunks (db (sys final))) ->
  chunk_file_id row = files_seq d0 + 1 ->
  exists (frow : FileRow) (chunk data : list byte),
    find (fun r => file_id r =? chunk_file_id row) (files (db (sys final)))
    = Some frow
    /\ original_path frow = path
    /\ In (chunk_index row, chunk) (chunks_of cs content)
    /\ chunk_size row = Z.of_nat (length chunk)
    /\ cloud_provider row = name (provider_for (chunk_index row))
    /\ remote_path row
       = remote_filename_of (chunk_file_id row) (chunk_index row)
    /\ download (provider_for (chunk_index row)) (remote_path row)
                (storage (sys final)) = Some data
    /\ calculateChecksum data = checksum row
    /\ forall other,
         decrypt_run (setKey other (encryption_key frow)
                             (encryption_iv frow)) data
         = (true, chunk).
Proof.
  intros Hin Hfid.
  destruct (Queued_exec sched) as (Hp & Hc & Ho & Hm).
  pose proof (rows_stored_exec sched st0_ok sched_ok) as Hs.
  unfold rows_stored in Hs.
  set (run := run_of cs rk ri d0 content) in *.
  assert (Hrunid : run_file_id run = files_seq d0 + 1)
    by now apply the_run_file_id.
  assert (Hnew : In row (new_chunks d0 (sys final))).
  { rewrite Hc in Hin. apply in_app_iff in Hin.
    destruct Hin as [Hold|Hnew]; [|exact Hnew].
    destruct d0_ok as (_ & _ & _ & Hchunks).
    rewrite Forall_forall in Hchunks. specialize (Hchunks row Hold). lia. }
  rewrite Forall_forall in Hs.
  destruct (Hs row Hnew) as (t & d & Ht & Hrow & Hopen).
  apply in_map_iff in Ht. destruct Ht as ([i chunk] & <- & Hchunk).
  assert (Hkey : key_row d0 (db (sys final)) path (run_enc run)).
  { destruct (main final) as [inp|r j stream|r|r|what].
    - destruct Hm as [_ Hsys]. unfold new_chunks in Hnew.
      rewrite Hsys in Hnew. cbn [db BackupSystem_new] in Hnew.
      rewrite skipn_all in Hnew. contradiction.
    - apply Hm.
    - apply Hm.
    - apply Hm.
    - contradiction. }
  destruct Hkey as (frow & Hfiles & Hfrow & Hpath & Hk & Hi).
  assert (Hvalid : valid_Encryption (run_enc run))
    by now apply valid_Encryption_new.
  assert (Hlen : length chunk
                 = Z.to_nat (chunk_size_at cs (run_file_size run) i)).
  { now apply (chunk_loop_sizes _ _ _ _ _ _ _ Hchunk). }
  pose proof (chunk_size_at_bounds cs (run_file_size run) i cs_pos) as Hb.
  assert (Hfit : Z.of_nat (length chunk) + Z.of_nat AES_BLOCK_SIZE
                 <= INT_MAX) by lia.
  exists frow, chunk, (encrypt (run_enc run) chunk).
  subst row.
  cbn [row_of task_for make_task chunk_file_id chunk_index chunk_size
       cloud_provider remote_path checksum t_file_id t_i t_chunk_size
       t_provider t_remote_filename t_checksum fst snd].
  repeat split.
  - rewrite Hfiles, Hrunid.
    rewrite find_last by now apply older_file_ids.
    now rewrite Hfrow, Z.eqb_refl.
  - assumption.
  - assumption.
  - rewrite to_int64_small by (unfold AES_BLOCK_SIZE in *; lia). lia.
  - apply download_open; [exact Hopen|].
    pose proof (length_encrypt_le (run_enc run) chunk Hvalid Hfit).
    unfold vector_max_size, INT_MAX, AES_BLOCK_SIZE in *. lia.
  - intros other.
    replace (setKey other (encryption_key frow) (encryption_iv frow))
      with (run_enc run); [now apply decrypt_run_encrypt|].
    rewrite Hk, Hi. unfold setKey. destruct Hvalid as [Hvk Hvi].
    rewrite (firstn_all2 (key (run_enc run))) by lia.
    rewrite (firstn_all2 (iv (run_enc run)))
      by (unfold AES_BLOCK_SIZE in *; lia).
    rewrite (firstn_all2 (key (run_enc run))) by lia.
    rewrite (firstn_all2 (iv (run_enc run)))
      by (unfold AES_BLOCK_SIZE in *; lia).
    now destruct (run_enc run).
Qed.
End Restore.

(** X18: a chunk row of the file being backed up can be restored from
    catalog and storage alone, under every schedule in which each upload
    stream writes the whole object, or does not open the file and
    [upload] returns [false], on a consistent catalog whose next file id
    fits [int] and a file system in which no two object paths name one
    file. The file record found under the row's file id carries the
    path; the object downloaded from the provider the row names, under
    the path the row names, has the checksum the row records;
    decrypting it with the key and IV of the file record succeeds and
    gives the chunk of the file at the row's index, whose length is the
    size the row records. *)
Theorem recorded_chunk_restores {cipher : BlockCipher} (cs : Z)
  (path : string) (content rk ri : list byte) (now : string)
  (d0 : Database) (st0 : Storage) (sched : list Event) (row : ChunkRow) :
  catalog_ok d0 ->
  0 < cs -> cs + Z.of_nat AES_BLOCK_SIZE <= INT_MAX ->
  (32 <= length rk)%nat -> (16 <= length ri)%nat ->
  alias_free st0 ->
  forallb sound_upload sched = true ->
  let st :=
    exec cs sched
         (backupFile (mkInput path (Some content) rk ri now) d0 st0) in
  In row (chunks (db (sys st))) ->
  chunk_file_id row = files_seq d0 + 1 ->
  exists (frow : FileRow) (chunk data : list byte),
    find (fun r => file_id r =? chunk_file_id row) (files (db (sys st)))
    = Some frow
    /\ original_path frow = path
    /\ In (chunk_index row, chunk) (chunks_of cs content)
    /\ chunk_size row = Z.of_nat (length chunk)
    /\ cloud_provider row = name (provider_for (chunk_index row))
    /\ remote_path row
       = remote_filename_of (chunk_file_id row) (chunk_index row)
    /\ download (provider_for (chunk_index row)) (remote_path row)
                (storage (sys st)) = Some data
    /\ calculateChecksum data = checksum row
    /\ forall other,
         decrypt_run (setKey other (encryption_key frow)
                             (encryption_iv frow)) data
         = (true, chunk).
Proof.
  intros Hok Hcs Hint Hrk Hri Hfree Hsched st.
  now apply stored_row_restores.
Qed.

Lemma recorded_chunk_restores_witness :
  let sched := [MainStep; MainStep; WorkerTake 0; WorkerRun 0 true Written] in
  let st :=
    @exec demo_cipher CHUNK_SIZE sched
      (backupFile one_byte_file empty_db no_files) in
  let row :=
    row_of empty_db
      (@task_for demo_cipher CHUNK_SIZE
         (run_of CHUNK_SIZE (repeat x5a 32) (map byte_of_nat (seq 1 16))
                 empty_db [x41])
         (0, [x41])) in
  catalog_ok empty_db
  /\ alias_free no_files
  /\ forallb sound_upload sched = true
  /\ In row (chunks (db (sys st)))
  /\ chunk_file_id row = files_seq empty_db + 1
  /\ exists (frow : FileRow) (chunk data : list byte),
       find (fun r => file_id r =? chunk_file_id row) (files (db (sys st)))
       = Some frow
       /\ original_path frow = "a.bin"%string
       /\ In (chunk_index row, chunk) (chunks_of CHUNK_SIZE [x41])
       /\ chunk_size row = Z.of_nat (length chunk)
       /\ cloud_provider row = name (provider_for (chunk_index row))
       /\ remote_path row
          = remote_filename_of (chunk_file_id row) (chunk_index row)
       /\ download (provider_for (chunk_index row)) (remote_path row)
                   (storage (sys st)) = Some data
       /\ calculateChecksum data = checksum row
       /\ forall other,
            @decrypt_run demo_cipher
              (setKey other (encryption_key frow) (encryption_iv frow)) data
            = (true, chunk).
Proof.
  intros sched st row.
  assert (Hin : In row (chunks (db (sys st)))) by (left; reflexivity).
  assert (Hfid : chunk_file_id row = files_seq empty_db + 1)
    by reflexivity.
  assert (Hsched : forallb sound_upload sched = true) by reflexivity.
  split; [exact catalog_ok_empty|]. split; [exact alias_free_no_files|].
  split; [exact Hsched|]. split; [exact Hin|]. split; [exact Hfid|].
  apply (@recorded_chunk_restores demo_cipher CHUNK_SIZE "a.bin" [x41]
           (repeat x5a 32) (map byte_of_nat (seq 1 16))
           "2024-01-01 00:00:00" empty_db no_files sched row
           catalog_ok_empty).
  - reflexivity.
  - vm_compute. discriminate.
  - vm_compute. lia.
  - vm_compute. lia.
  - exact alias_free_no_files.
  - exact Hsched.
  - exact Hin.
  - exact Hfid.
Defined.

(** X19: a backup that finished with no task left and no failure
    reported can be restored completely, when each upload stream wrote
    the whole object or did not open the file with [upload] returning
    [false], on a consistent catalog whose next file id fits [int] and a
    file system in which no two object paths name one file. For every
    chunk of the file there is a row under its index; the file record is
    "completed"; the object that row names downloads, has the recorded
    checksum, and decrypts with the recorded key and IV to that chunk;
    and the chunks in index order are the content of the file. *)
Theorem complete_backup_restores {cipher : BlockCipher} (cs : Z)
  (path : string) (content rk ri : list byte) (now : string)
  (d0 : Database) (st0 : Storage) (sched : list Event) (run : Run) :
  catalog_ok d0 ->
  0 < cs -> cs + Z.of_nat AES_BLOCK_SIZE <= INT_MAX ->
  (32 <= length rk)%nat -> (16 <= length ri)%nat ->
  Z.of_nat (length content) + cs - 1 < 2 ^ 64 ->
  ceil_div (Z.of_nat (length content)) cs <= INT_MAX ->
  alias_free st0 ->
  forallb sound_upload sched = true ->
  let st :=
    exec cs sched
         (backupFile (mkInput path (Some content) rk ri now) d0 st0) in
  main st = Finished run ->
  outstanding (sys st) = [] ->
  failed_indices (output (sys st)) = [] ->
  concat (map snd (chunks_of cs content)) = content
  /\ forall (i : Z) (chunk : list byte),
       In (i, chunk) (chunks_of cs content) ->
       exists (row : ChunkRow) (frow : FileRow) (data : list byte),
         In row (chunks (db (sys st)))
         /\ chunk_file_id row = run_file_id run
         /\ chunk_index row = i
         /\ find (fun r => file_id r =? run_file_id run)
                 (files (db (sys st))) = Some frow
         /\ status frow = "completed"%string
         /\ download (provider_for i) (remote_path row) (storage (sys st))
            = Some data
         /\ calculateChecksum data = checksum row
         /\ forall other,
              decrypt_run (setKey other (encryption_key frow)
                                  (encryption_iv frow)) data
              = (true, chunk).
Proof.
  intros Hok Hcs Hint Hrk Hri Hfit Hcount Hfree Hsched st Hmain Hout Hfail.
  split; [now apply chunks_of_concat|].
  intros i chunk Hchunk.
  pose proof (Inv_exec cs d0 st0 Hok
                (mkInput path (Some content) rk ri now) sched) as HInv.
  fold st in HInv. unfold Inv in HInv. rewrite Hmain in HInv.
  destruct HInv as (Htasks & Hfid & Hfrow & Hbal).
  destruct (Queued_exec cs path content rk ri now d0 st0 Hok sched)
    as (_ & _ & _ & Hm).
  fold st in Hm. rewrite Hmain in Hm. destruct Hm as [Hrun _].
  pose proof (accounted_Permutation d0 st run _ Hok Htasks Hfid Hbal)
    as HP.
  unfold accounted in HP. rewrite Hout, Hfail in HP.
  cbn [map app] in HP. rewrite app_nil_r in HP.
  assert (Hi : In i (all_indices (run_chunk_count run))).
  { rewrite Hrun. cbn [run_of run_chunk_count].
    rewrite <- chunks_of_indices. apply in_map_iff. now exists (i, chunk). }
  apply (Permutation_in _ (Permutation_sym HP)) in Hi.
  unfold uploaded_indices in Hi. apply in_map_iff in Hi.
  destruct Hi as (row & Hidx & Hrow). apply filter_In in Hrow.
  destruct Hrow as [Hin Hflt]. apply andb_true_iff in Hflt.
  destruct Hflt as [Hrowfid _]. apply Z.eqb_eq in Hrowfid.
  destruct (stored_row_restores cs path content rk ri now d0 st0
              Hok Hcs Hint Hrk Hri Hfree sched Hsched row Hin
              ltac:(congruence))
    as (frow & chunk' & data & Hfind & _ & Hchunk' & _ & _ & _ & Hdl & Hsum
        & Hdec).
  rewrite Hidx in Hchunk', Hdl.
  rewrite (chunks_of_functional cs content i chunk chunk' Hchunk Hchunk').
  rewrite Hrowfid in Hfind.
  exists row, frow, data.
  repeat (split; [assumption|]).
  split; [|split; [|split]]; try assumption.
  pose proof (file_row_status d0 (db (sys st)) _ _ Hok Hfrow) as Hst.
  unfold file_status, st in Hst. rewrite <- Hfid, Hfind in Hst.
  now injection Hst.
Qed.

Lemma complete_backup_restores_witness :
  let content := [x61; x62; x63; x64; x65; x66] in
  let run :=
    run_of 4 (repeat x5a 32) (map byte_of_nat (seq 1 16)) empty_db content in
  let sched :=
    [MainStep; MainStep; MainStep; WorkerTake 0; WorkerTake 1;
     WorkerRun 1 true Written; MainStep; WorkerRun 0 true Written;
     MainStep] in
  let st :=
    @exec demo_cipher 4 sched
      (backupFile
         (mkInput "a.bin" (Some content) (repeat x5a 32)
                  (map byte_of_nat (seq 1 16)) "2024-01-01 00:00:00")
         empty_db no_files) in
  catalog_ok empty_db
  /\ alias_free no_files
  /\ forallb sound_upload sched = true
  /\ main st = Finished run
  /\ outstanding (sys st) = []
  /\ failed_indices (output (sys st)) = []
  /\ concat (map snd (chunks_of 4 content)) = content
  /\ forall (i : Z) (chunk : list byte),
       In (i, chunk) (chunks_of 4 content) ->
       exists (row : ChunkRow) (frow : FileRow) (data : list byte),
         In row (chunks (db (sys st)))
         /\ chunk_file_id row = run_file_id run
         /\ chunk_index row = i
         /\ find (fun r => file_id r =? run_file_id run)
                 (files (db (sys st))) = Some frow
         /\ status frow = "completed"%string
         /\ download (provider_for i) (remote_path row) (storage (sys st))
            = Some data
         /\ calculateChecksum data = checksum row
         /\ forall other,
              @decrypt_run demo_cipher
                (setKey other (encryption_key frow) (encryption_iv frow))
                data
              = (true, chunk).
Proof.
  intros content run sched st.
  assert (Hmain : main st = Finished run) by reflexivity.
  assert (Hsched : forallb sound_upload sched = true) by reflexivity.
  assert (Hout : outstanding (sys st) = []) by reflexivity.
  assert (Hfail : failed_indices (output (sys st)) = []) by reflexivity.
  split; [exact catalog_ok_empty|]. split; [exact alias_free_no_files|].
  split; [exact Hsched|]. split; [exact Hmain|]. split; [exact Hout|].
  split; [exact Hfail|].
  apply (@complete_backup_restores demo_cipher 4 "a.bin" content
           (repeat x5a 32) (map byte_of_nat (seq 1 16))
           "2024-01-01 00:00:00" empty_db no_files sched run
           catalog_ok_empty).
  - reflexivity.
  - vm_compute. discriminate.
  - vm_compute. lia.
  - vm_compute. lia.
  - vm_compute. reflexivity.
  - vm_compute. discriminate.
  - exact alias_free_no_files.
  - exact Hsched.
  - exact Hmain.
  - exact Hout.
  - exact Hfail.
Defined.

(** X22: a backup leaves earlier backups as they are, under every
    schedule and whatever the upload streams do, on a consistent catalog
    whose next file id fits [int] and a file system in which no two
    object paths name one file: the file records and chunk rows the
    catalog held are still its first records and rows, unchanged, and
    for every file id other than the new one, every chunk index and each
    of the three providers, [download] of that file's object returns
    what it returned before. *)
Theorem earlier_backups_untouched {cipher : BlockCipher} (cs : Z)
  (path : string) (content rk ri : list byte) (now : string)
  (d0 : Database) (st0 : Storage) (sched : list Event) :
  catalog_ok d0 ->
  alias_free st0 ->
  let st :=
    exec cs sched
         (backupFile (mkInput path (Some content) rk ri now) d0 st0) in
  firstn (length (files d0)) (files (db (sys st))) = files d0
  /\ firstn (length (chunks d0)) (chunks (db (sys st))) = chunks d0
  /\ forall (p : CloudProvider) (fid' i : Z),
       In p default_providers -> fid' <> files_seq d0 + 1 ->
       download p (remote_filename_of fid' i) (storage (sys st))
       = download p (remote_filename_of fid' i) st0.
Proof.
  intros Hok Hfree st.
  destruct (earlier_rows_kept cs path content rk ri now d0 st0 Hok sched)
    as [Hfiles Hchunks].
  split; [exact Hfiles|]. split; [exact Hchunks|].
  intros p fid' i Hp Hfid.
  now apply earlier_objects_kept.
Qed.

Lemma earlier_backups_untouched_witness :
  let d0 :=
    insertChunk (fst (insertFile empty_db "old.bin" 3 1 [] [] "t0"))
                1 0 3 "GoogleDrive" "file_1_chunk_0.enc" "6" in
  let st0 :=
    mkStorage (fun path => path)
              [("./backup/gdrive/file_1_chunk_0.enc"%string,
                [x01; x02; x03])] in
  let st :=
    @exec demo_cipher CHUNK_SIZE
      [MainStep; MainStep; WorkerTake 0; WorkerRun 0 true (Truncated 3);
       MainStep; MainStep]
      (backupFile one_byte_file d0 st0) in
  catalog_ok d0
  /\ alias_free st0
  /\ firstn (length (files d0)) (files (db (sys st))) = files d0
  /\ firstn (length (chunks d0)) (chunks (db (sys st))) = chunks d0
  /\ forall (p : CloudProvider) (fid' i : Z),
       In p default_providers -> fid' <> files_seq d0 + 1 ->
       download p (remote_filename_of fid' i) (storage (sys st))
       = download p (remote_filename_of fid' i) st0.
Proof.
  intros d0 st0 st.
  assert (Hok : catalog_ok d0).
  { unfold catalog_ok. cbn.
    repeat split; try (repeat constructor; cbn; lia); try lia. }
  assert (Hfree : alias_free st0) by (intros a b _ _ H; exact H).
  split; [exact Hok|]. split; [exact Hfree|].
  apply (@earlier_backups_untouched demo_cipher CHUNK_SIZE "a.bin" [x41]
           (repeat x5a 32) (map byte_of_nat (seq 1 16))
           "2024-01-01 00:00:00" d0 st0
           [MainStep; MainStep; WorkerTake 0; WorkerRun 0 true (Truncated 3);
            MainStep; MainStep] Hok Hfree).
Defined.

(* ----------------------------------------------------------------- *)
(** ** What the checksum does tell apart *)

Lemma byte_sum_app (a b : list byte) :
  byte_sum (a ++ b) = byte_sum a + byte_sum b.
Proof.
  induction a as [|x a IH]; [reflexivity|].
  cbn [app]. rewrite !byte_sum_cons, IH. lia.
Qed.

Lemma to_N_inj (x y : byte) : Byte.to_N x = Byte.to_N y -> x = y.
Proof.
  intros H. apply (f_equal Byte.of_N) in H.
  rewrite !Byte.of_to_N in H. now injection H.
Qed.

Lemma hex_string_inj (n m : N) :
  HexadecimalString.NilZero.string_of_uint (N.to_hex_uint n)
  = HexadecimalString.NilZero.string_of_uint (N.to_hex_uint m) ->
  n = m.
Proof.
  intros H. apply HexadecimalN.Unsigned.to_uint_inj.
  assert (Hnn : forall k, N.to_hex_uint k <> Hexadecimal.Nil).
  { intros [|p]; [discriminate|].
    apply HexadecimalPos.Unsigned.to_uint_nonnil. }
  apply (f_equal HexadecimalString.NilZero.uint_of_string) in H.
  rewrite !HexadecimalString.NilZero.usu in H by apply Hnn.
  now injection H.
Qed.

(** X20: two payloads that differ in exactly one byte never have the same
    checksum: the sum moves by less than 256, which the 64-bit
    wrap-around cannot hide. *)
Theorem calculateChecksum_single_byte (a b : list byte) (x y : byte) :
  x <> y ->
  calculateChecksum (a ++ x :: b) <> calculateChecksum (a ++ y :: b).
Proof.
  intros Hxy Heq. rewrite !calculateChecksum_sum in Heq.
  apply hex_string_inj in Heq.
  rewrite !byte_sum_app, !byte_sum_cons in Heq.
  set (s := byte_sum a) in *. set (r := byte_sum b) in *.
  assert (Hne : Z.of_N (Byte.to_N x) <> Z.of_N (Byte.to_N y)).
  { intros E. apply N2Z.inj in E. now apply to_N_inj in E. }
  pose proof (Byte.to_N_bounded x) as Hx.
  pose proof (Byte.to_N_bounded y) as Hy.
  unfold to_size_t in Heq.
  pose proof (Z.mod_pos_bound (s + (Z.of_N (Byte.to_N x) + r)) (2 ^ 64)
                ltac:(lia)) as B1.
  pose proof (Z.mod_pos_bound (s + (Z.of_N (Byte.to_N y) + r)) (2 ^ 64)
                ltac:(lia)) as B2.
  apply Z2N.inj in Heq; [|lia|lia].
  pose proof (Z.div_mod (s + (Z.of_N (Byte.to_N x) + r)) (2 ^ 64)
                ltac:(lia)) as D1.
  pose proof (Z.div_mod (s + (Z.of_N (Byte.to_N y) + r)) (2 ^ 64)
                ltac:(lia)) as D2.
  rewrite Heq in D1.
  set (q1 := (s + (Z.of_N (Byte.to_N x) + r)) / 2 ^ 64) in *.
  set (q2 := (s + (Z.of_N (Byte.to_N y) + r)) / 2 ^ 64) in *.
  set (m := (s + (Z.of_N (Byte.to_N y) + r)) mod 2 ^ 64) in *.
  lia.
Qed.

Lemma calculateChecksum_single_byte_witness :
  x01 <> x02
  /\ calculateChecksum ([x10; x20] ++ x01 :: [x30])
     <> calculateChecksum ([x10; x20] ++ x02 :: [x30]).
Proof.
  assert (H : x01 <> x02) by discriminate.
  split; [exact H|].
  apply (calculateChecksum_single_byte [x10; x20] [x30] x01 x02 H).
Defined.

(* ----------------------------------------------------------------- *)
(** ** What [backupFile] has waited for when it returns *)

Lemma length_set_worker (w : nat) (v : option Task) :
  forall ws : list (option Task), length (set_worker w v ws) = length ws.
Proof.
  induction w as [|w IH]; intros [|x ws]; cbn [set_worker length];
    try reflexivity.
  now rewrite IH.
Qed.

Lemma length_slot_tasks (ws : list (option Task)) :
  (length (flat_map slot_tasks ws) <= length ws)%nat.
Proof.
  induction ws as [|[t|] ws IH]; cbn [flat_map slot_tasks app length];
    lia.
Qed.

Section Return.
Context {cipher : BlockCipher}.
Variable cs : Z.

Lemma returned_ok_step (ev : Event) (st : State) :
  returned_ok st -> returned_ok (step cs ev st).
Proof.
  destruct st as [m s]. unfold returned_ok. cbn [main sys].
  intros [Hlen Hq].
  destruct ev as [|w|w completes effect]; cbn [step main sys].
  - destruct m as [inp|run i stream|run|run|what]; cbn [main_step].
    + destruct (in_content inp); cbn [main sys workers]; now split.
    + destruct (i <? run_chunk_count run); [|now split].
      destruct (read _ stream) as [chunk rest].
      destruct (select_provider (providers s) i); now split.
    + destruct (upload_queue s) eqn:Eq; cbn [main sys workers upload_queue];
        now split.
    + now split.
    + now split.
  - unfold worker_take.
    destruct (stop_workers s); [now split|].
    destruct (nth_error (workers s) w) as [[held|]|]; try now split.
    destruct (upload_queue s) as [|task rest] eqn:Eq.
    + split; [assumption|]. destruct m; try exact I. exact Eq.
    + unfold with_workers. cbn [workers upload_queue].
      rewrite length_set_worker. split; [assumption|].
      destruct m; try exact I. discriminate.
  - unfold worker_run.
    destruct (nth_error (workers s) w) as [[held|]|]; try now split.
    unfold with_workers, run_task, upload.
    destruct completes; cbn [workers upload_queue];
      rewrite length_set_worker; now split.
Qed.

(** X21: what the wait loop does guarantee. Under every schedule, when
    [backupFile] has returned the upload queue is empty, and the chunks
    whose task is still running, neither recorded nor reported failed,
    are at most [NUM_UPLOAD_THREADS], one per worker. *)
Theorem returns_with_empty_queue (inp : Input) (d0 : Database)
  (st0 : Storage) (sched : list Event) :
  let st := exec cs sched (backupFile inp d0 st0) in
  match main st with
  | Finished _ =>
      upload_queue (sys st) = []
      /\ (length (outstanding (sys st)) <= NUM_UPLOAD_THREADS)%nat
  | _ => (length (flat_map slot_tasks (workers (sys st)))
          <= NUM_UPLOAD_THREADS)%nat
  end.
Proof.
  intros st.
  assert (H : forall st', returned_ok st' ->
                          returned_ok (exec cs sched st')).
  { induction sched as [|ev sched' IH]; intros st' Hst; [exact Hst|].
    rewrite exec_cons. apply IH. now apply returned_ok_step. }
  assert (H0 : returned_ok (backupFile inp d0 st0))
    by (split; [reflexivity | exact I]).
  specialize (H _ H0). fold st in H. destruct H as [Hlen Hq].
  pose proof (length_slot_tasks (workers (sys st))) as Hslots.
  rewrite Hlen in Hslots.
  destruct (main st); try exact Hslots.
  split; [exact Hq|]. now rewrite outstanding_eq, Hq.
Qed.
End Return.
